(** * asciifx: frame processing and export pipeline of [src/App.tsx]

    A shallow embedding of the per-pixel tone transform, the luminance to
    glyph mapping, the grid geometry, the two batch exporters (GIF and HQ
    MP4) and the live recorder, with the properties the specification states
    about them.

    Number model.  JavaScript numbers are IEEE doubles.  Module [Double]
    embeds the rounding of a rational to the nearest double, and the
    arithmetic operations that round their exact result; it carries the
    frame totals and the progress percentage of the exporters and
    [ToneDouble], the per-pixel tone transform as the code computes it.
    The pixel pipeline of module [Tone] ([preprocessPixel], the luminance
    and [Math.floor] of the glyph index) is the same transform over the
    real numbers [R], where every operation is the exact one: what is
    stated over [R] is either a property that rounding does not disturb
    (ranges, order, mirroring) or says that it is about exact arithmetic.
    Pixel dimensions and the cell size are integers in the program and are
    embedded in [Z]; clock values (seconds) are embedded in [Q], where the
    model computes. *)

From Stdlib Require Import Reals Lra Lia ZArith List String Ascii Bool.
From Stdlib Require Import QArith Qround Qabs Qminmax Zfloor Qpower.
From Stdlib Require Lqa.
Import ListNotations.

Close Scope Q_scope.
Close Scope R_scope.
Open Scope nat_scope.

(* ------------------------------------------------------------------ *)
(** ** Settings and constants *)

Module Settings.

(** [colorMode: 'original' | 'white' | 'matrix' | 'custom'] *)
Inductive ColorMode := original | white | matrix | custom.

(** [typeof DEFAULT_SETTINGS], with the tone values as reals. *)
Record t := mk {
  fontSize : Z;
  fontFamily : string;
  contrast : R;
  brightness : R;
  saturation : R;
  gamma : R;
  colorMode : ColorMode;
  customColor : string;
  density : string;
  invert : bool;
  backgroundColor : string
}.

Definition DEFAULT_SETTINGS : t :=
  {| fontSize := 16%Z;
     fontFamily := "Menlo, Consolas, Courier New, monospace";
     contrast := (14 / 10)%R;
     brightness := (11 / 10)%R;
     saturation := 1%R;
     gamma := 1%R;
     colorMode := original;
     customColor := "#22d3ee";
     density := "standard";
     invert := false;
     backgroundColor := "#000000" |}.

Definition with_invert (i : bool) (s : t) : t :=
  {| fontSize := fontSize s; fontFamily := fontFamily s;
     contrast := contrast s; brightness := brightness s;
     saturation := saturation s; gamma := gamma s;
     colorMode := colorMode s; customColor := customColor s;
     density := density s; invert := i;
     backgroundColor := backgroundColor s |}.

(** [{ ...s, fontSize: v }], the update the font-size slider makes. *)
Definition with_fontSize (v : Z) (s : t) : t :=
  {| fontSize := v; fontFamily := fontFamily s;
     contrast := contrast s; brightness := brightness s;
     saturation := saturation s; gamma := gamma s;
     colorMode := colorMode s; customColor := customColor s;
     density := density s; invert := invert s;
     backgroundColor := backgroundColor s |}.

(** The caller-side invariant of the tone values: the sliders range over
    0.1 .. 3. *)
Definition positiveTone (s : t) : Prop :=
  (0 < brightness s /\ 0 < contrast s /\ 0 < saturation s /\ 0 < gamma s)%R.

(** All four tone values at their neutral value. *)
Definition neutralTone (s : t) : Prop :=
  (brightness s = 1 /\ contrast s = 1 /\ saturation s = 1 /\ gamma s = 1)%R.

(** The settings with every tone value neutral. *)
Definition neutralSettings : t :=
  {| fontSize := 16%Z; fontFamily := "Courier New, monospace";
     contrast := 1%R; brightness := 1%R;
     saturation := 1%R; gamma := 1%R; colorMode := original;
     customColor := "#22d3ee"; density := "standard"; invert := false;
     backgroundColor := "#000000" |}.

End Settings.

(** A glyph is one UTF-16 code unit of a density string. *)
Definition Glyph := N.

Definition codes (s : string) : list Glyph :=
  map N_of_ascii (list_ascii_of_string s).

(** [DENSITY_SETS], keyed by name; [None] is JavaScript's [undefined] for a
    key the object does not have.  The type of [settings.density] is
    [keyof typeof DENSITY_SETS], the five names below; a name the object
    inherits from its prototype (such as [constructor]) is not a value of
    that type and is outside this table. *)
Definition DENSITY_SETS (key : string) : option (list Glyph) :=
  if String.eqb key "standard" then Some (codes " .:-=+*#%@")
  else if String.eqb key "complex" then
    Some (codes " .'`^" ++ [34%N] ++
          codes ",:;Il!i~+_-?][}{1)(|\/tfjrxnuvczXYUJCLQ0OZmwqpdbkhao*#MW&8%B@$")
  else if String.eqb key "blocks" then Some [32; 9617; 9618; 9619; 9608]%N
  else if String.eqb key "matrix" then Some (codes " 01")
  else if String.eqb key "minimal" then Some [32; 47; 92]%N
  else None.

(** [settings.density && DENSITY_SETS[settings.density] ? settings.density
    : 'standard'], followed by the lookup. *)
Definition densityOf (s : Settings.t) : list Glyph :=
  match DENSITY_SETS (Settings.density s) with
  | Some d => d
  | None => codes " .:-=+*#%@"
  end.

(* ------------------------------------------------------------------ *)
(** ** IEEE doubles *)

(** A JavaScript number is a double: 53 significant bits, the smallest
    positive one [2^-1074].  A finite double is a rational, and every
    arithmetic operation returns the double nearest to its exact result,
    ties to the even significand.  Infinities, NaN and the sign of zero are
    not represented: [fl] is the rounding for magnitudes below [2^1024]. *)
Module Double.
Local Open Scope Q_scope.

(** The nearest integer, ties to the even one. *)
Definition roundTiesToEven (z : Q) : Z :=
  let f := Qfloor z in
  match Qcompare (z - inject_Z f) (1 # 2) with
  | Lt => f
  | Gt => (f + 1)%Z
  | Eq => if Z.even f then f else (f + 1)%Z
  end.

(** [floor(log2 x)] of a positive rational: the [e] with
    [2^e <= x < 2^(e+1)]. *)
Definition exponent (x : Q) : Z :=
  let d := (Z.log2 (Qnum x) - Z.log2 (Zpos (Qden x)))%Z in
  if Qle_bool (2 ^ d) x then d else (d - 1)%Z.

(** The exponent of the unit in the last place: 52 below the exponent of
    the number, and never below -1074 (subnormal numbers). *)
Definition ulpExponent (x : Q) : Z := Z.max (exponent x - 52) (-1074).

Definition roundMagnitude (x : Q) : Q :=
  let u := 2 ^ ulpExponent x in
  inject_Z (roundTiesToEven (x / u)) * u.

(** The double nearest to [x]. *)
Definition fl (x : Q) : Q :=
  match Qcompare x 0 with
  | Lt => - roundMagnitude (- x)
  | Eq => 0
  | Gt => roundMagnitude x
  end.

(** [x + y], [x - y], [x * y], [x / y] on doubles. *)
Definition add (x y : Q) : Q := fl (x + y).
Definition sub (x y : Q) : Q := fl (x - y).
Definition mul (x y : Q) : Q := fl (x * y).
Definition div (x y : Q) : Q := fl (x / y).

(** A decimal literal of the source denotes the double nearest to it. *)
Definition literal (x : Q) : Q := fl x.

End Double.

(* ------------------------------------------------------------------ *)
(** ** The per-pixel tone transform *)

Module Tone.
Import Settings.
Local Open Scope R_scope.

(** [Math.pow] on a base that is not negative and an exponent that is
    positive, the only arguments [preprocessPixel] passes for a positive
    gamma: the base is [Math.max(0, c) / 255]. *)
Definition Math_pow (x y : R) : R :=
  if Rle_dec x 0 then 0 else Rpower x y.

(** [Math.max(0, Math.min(255, c))] *)
Definition clamp255 (c : R) : R := Rmax 0 (Rmin 255 c).

Definition Pixel : Type := R * R * R.

Definition stepBrightness (s : t) (p : Pixel) : Pixel :=
  let '(r, g, b) := p in
  (r * brightness s, g * brightness s, b * brightness s).

Definition stepContrast (s : t) (p : Pixel) : Pixel :=
  let '(r, g, b) := p in
  ((r - 128) * contrast s + 128,
   (g - 128) * contrast s + 128,
   (b - 128) * contrast s + 128).

Definition stepSaturation (s : t) (p : Pixel) : Pixel :=
  let '(r, g, b) := p in
  let gray := 2126 / 10000 * r + 7152 / 10000 * g + 722 / 10000 * b in
  (gray + (r - gray) * saturation s,
   gray + (g - gray) * saturation s,
   gray + (b - gray) * saturation s).

Definition stepGamma (s : t) (p : Pixel) : Pixel :=
  let '(r, g, b) := p in
  let invGamma := 1 / gamma s in
  (255 * Math_pow (Rmax 0 r / 255) invGamma,
   255 * Math_pow (Rmax 0 g / 255) invGamma,
   255 * Math_pow (Rmax 0 b / 255) invGamma).

Definition finalClamp (p : Pixel) : Pixel :=
  let '(r, g, b) := p in (clamp255 r, clamp255 g, clamp255 b).

(** [if (param !== 1.0) { ... }] *)
Definition unlessNeutral (param : R) (f : Pixel -> Pixel) (p : Pixel) : Pixel :=
  if Req_dec_T param 1 then p else f p.

Definition preprocessPixel (r g b : R) (s : t) : Pixel :=
  let p := (r, g, b) in
  let p := unlessNeutral (brightness s) (stepBrightness s) p in
  let p := unlessNeutral (contrast s) (stepContrast s) p in
  let p := unlessNeutral (saturation s) (stepSaturation s) p in
  let p := unlessNeutral (gamma s) (stepGamma s) p in
  finalClamp p.

(** *** The transform as the specification words it

    Written from the sentence of the specification, channel by channel, and
    with none of the functions above: every step is applied, none is
    skipped, and the gamma step works on the channel clamped to [0,255] on
    both sides. *)

(** [clamp(c, 0, 255)] *)
Definition spec_clamp (c : R) : R :=
  if Rlt_dec c 0 then 0 else if Rlt_dec 255 c then 255 else c.

(** [x ^ y] for a base that is not negative: [0 ^ y = 0] for the positive
    exponents of the gamma step, [exp (y * ln x)] otherwise. *)
Definition spec_power (x y : R) : R :=
  if Req_dec_T x 0 then 0 else exp (y * ln x).

(** "brightness scaling" *)
Definition spec_brightness (k c : R) : R := k * c.

(** "contrast around mid-gray 128" *)
Definition spec_contrast (k c : R) : R := 128 + k * (c - 128).

(** "the 0.2126/0.7152/0.0722 luma" *)
Definition spec_luma (r g b : R) : R :=
  2126 / 10000 * r + 7152 / 10000 * g + 722 / 10000 * b.

(** "saturation blend toward the luma" [y] *)
Definition spec_saturation (k y c : R) : R := y + k * (c - y).

(** "gamma as 255 * (clamp(channel,0,255)/255) ^ (1/gamma)" *)
Definition spec_gamma (k c : R) : R :=
  255 * spec_power (spec_clamp c / 255) (1 / k).

Definition spec_adjust (r g b : R) (s : t) : Pixel :=
  let r1 := spec_brightness (brightness s) r in
  let g1 := spec_brightness (brightness s) g in
  let b1 := spec_brightness (brightness s) b in
  let r2 := spec_contrast (contrast s) r1 in
  let g2 := spec_contrast (contrast s) g1 in
  let b2 := spec_contrast (contrast s) b1 in
  let y := spec_luma r2 g2 b2 in
  let r3 := spec_saturation (saturation s) y r2 in
  let g3 := spec_saturation (saturation s) y g2 in
  let b3 := spec_saturation (saturation s) y b2 in
  let r4 := spec_gamma (gamma s) r3 in
  let g4 := spec_gamma (gamma s) g3 in
  let b4 := spec_gamma (gamma s) b3 in
  (spec_clamp r4, spec_clamp g4, spec_clamp b4).

Definition inRange (p : Pixel) : Prop :=
  let '(r, g, b) := p in
  0 <= r <= 255 /\ 0 <= g <= 255 /\ 0 <= b <= 255.

(** [0.2126 * r + 0.7152 * g + 0.0722 * b] *)
Definition luma (p : Pixel) : R :=
  let '(r, g, b) := p in
  2126 / 10000 * r + 7152 / 10000 * g + 722 / 10000 * b.

End Tone.

(* ------------------------------------------------------------------ *)
(** ** The tone transform on doubles *)

(** [preprocessPixel] as the engine computes it: the statements of the
    source in their order, every arithmetic operation rounded to a double.
    The language leaves the precision of [Math.pow] to the engine, so it is
    a parameter here; the tone settings hold doubles. *)
Module ToneDouble.
Import Double.
Local Open Scope Q_scope.

Record Tone := mkTone {
  brightness : Q;
  contrast : Q;
  saturation : Q;
  gamma : Q
}.

(** The tone fields of [DEFAULT_SETTINGS]: [contrast: 1.4], [brightness:
    1.1], [saturation: 1.0], [gamma: 1.0]. *)
Definition DEFAULT_TONE : Tone :=
  {| brightness := literal (11 # 10);
     contrast := literal (14 # 10);
     saturation := 1;
     gamma := 1 |}.

Definition Pixel : Type := Q * Q * Q.

Definition blue (p : Pixel) : Q := snd p.

(** [r *= settings.brightness] *)
Definition stepBrightness (s : Tone) (p : Pixel) : Pixel :=
  let '(r, g, b) := p in
  (mul r (brightness s), mul g (brightness s), mul b (brightness s)).

(** [r = (r - 128) * settings.contrast + 128] *)
Definition stepContrast (s : Tone) (p : Pixel) : Pixel :=
  let '(r, g, b) := p in
  (add (mul (sub r 128) (contrast s)) 128,
   add (mul (sub g 128) (contrast s)) 128,
   add (mul (sub b 128) (contrast s)) 128).

(** [const gray = 0.2126 * r + 0.7152 * g + 0.0722 * b;
     r = gray + (r - gray) * settings.saturation] *)
Definition stepSaturation (s : Tone) (p : Pixel) : Pixel :=
  let '(r, g, b) := p in
  let gray := add (add (mul (literal (2126 # 10000)) r)
                       (mul (literal (7152 # 10000)) g))
                  (mul (literal (722 # 10000)) b) in
  (add gray (mul (sub r gray) (saturation s)),
   add gray (mul (sub g gray) (saturation s)),
   add gray (mul (sub b gray) (saturation s))).

(** [Math.max(0, Math.min(255, c))] *)
Definition clamp255 (c : Q) : Q := Qmax 0 (Qmin 255 c).

Definition finalClamp (p : Pixel) : Pixel :=
  let '(r, g, b) := p in (clamp255 r, clamp255 g, clamp255 b).

(** [if (param !== 1.0) { ... }] *)
Definition unlessNeutral (param : Q) (f : Pixel -> Pixel) (p : Pixel) : Pixel :=
  if Qeq_bool param 1 then p else f p.

Section Engine.
Variable Math_pow : Q -> Q -> Q.

(** [const invGamma = 1 / settings.gamma;
     r = 255 * Math.pow(Math.max(0, r) / 255, invGamma)] *)
Definition stepGamma (s : Tone) (p : Pixel) : Pixel :=
  let '(r, g, b) := p in
  let invGamma := div 1 (gamma s) in
  (mul 255 (Math_pow (div (Qmax 0 r) 255) invGamma),
   mul 255 (Math_pow (div (Qmax 0 g) 255) invGamma),
   mul 255 (Math_pow (div (Qmax 0 b) 255) invGamma)).

Definition preprocessPixel (r g b : Q) (s : Tone) : Pixel :=
  let p := (r, g, b) in
  let p := unlessNeutral (brightness s) (stepBrightness s) p in
  let p := unlessNeutral (contrast s) (stepContrast s) p in
  let p := unlessNeutral (saturation s) (stepSaturation s) p in
  let p := unlessNeutral (gamma s) (stepGamma s) p in
  finalClamp p.

End Engine.

Definition inRange (p : Pixel) : Prop :=
  let '(r, g, b) := p in
  0 <= r <= 255 /\ 0 <= g <= 255 /\ 0 <= b <= 255.

(** An engine for the settings whose gamma is 1.0, where the gamma step is
    skipped and [Math.pow] is never called. *)
Definition unusedPow (x y : Q) : Q := x.

(** The three channels written as reduced fractions. *)
Definition reduced (p : Pixel) : Pixel :=
  let '(r, g, b) := p in (Qred r, Qred g, Qred b).

End ToneDouble.

(* ------------------------------------------------------------------ *)
(** ** Luminance to glyph index *)

Module GlyphMapper.
Import Settings.

(** The three statements of the inner loop of [drawAsciiFrame] and of
    [getAsciiString]:
    [let charIndex = Math.floor((avg / 255) * len);
     if (settings.invert) charIndex = len - 1 - charIndex;
     charIndex = Math.max(0, Math.min(len - 1, charIndex));] *)
Definition charIndex (s : t) (avg : R) : Z :=
  let len := Z.of_nat (List.length (densityOf s)) in
  let c := Zfloor ((avg / 255) * IZR len) in
  let c := if invert s then (len - 1 - c)%Z else c in
  Z.max 0 (Z.min (len - 1) c).

(** The index drawn for a raw pixel: tone transform, luminance, index. *)
Definition glyphIndex (s : t) (r g b : R) : Z :=
  charIndex s (Tone.luma (Tone.preprocessPixel r g b s)).

(** [density[charIndex]] *)
Definition glyphAt (s : t) (i : Z) : option Glyph :=
  if (i <? 0)%Z then None else nth_error (densityOf s) (Z.to_nat i).

End GlyphMapper.

(* ------------------------------------------------------------------ *)
(** ** Grid geometry, the surface renderer and the text composer *)

Module Grid.
Import Settings.
Local Open Scope Z_scope.

(** What [hiddenCtx.drawImage(source, 0, 0, cols, rows)] followed by
    [getImageData] yields: for a target of [cols] by [rows], the byte triple
    at column [x] of row [y].  The resize filter belongs to the browser. *)
Definition Sampler := Z -> Z -> Z -> Z -> Z * Z * Z.

(** The values [ctx.fillStyle] takes. *)
Inductive FillStyle :=
| Css (color : string)
| Rgb (r g b : R)
| Rgba (r g b : Z) (alpha : R).

(** The calls made on the target context, in order. *)
Inductive DrawOp :=
| FillRect (style : FillStyle) (x y w h : Z)
| FillText (char : option Glyph) (style : FillStyle) (x y : Z).

(** [for (let i = 0; i < n; i++)] *)
Definition upto (n : Z) : list Z := map Z.of_nat (seq 0 (Z.to_nat n)).

(** [Math.floor(width / charSize)] for a positive cell size. *)
Definition gridCount (extent charSize : Z) : Z := extent / charSize.

Definition toPixel (p : Z * Z * Z) : Tone.Pixel :=
  let '(r, g, b) := p in (IZR r, IZR g, IZR b).

(** The tone-mapped pixel and its luminance for the cell at ([x], [y]). *)
Definition cellTone (source : Sampler) (cols rows : Z) (s : t) (x y : Z)
  : Tone.Pixel * R :=
  let '(r, g, b) := toPixel (source cols rows x y) in
  let p := Tone.preprocessPixel r g b s in
  (p, Tone.luma p).

(** The style in force when the glyph of a cell is drawn. *)
Definition cellStyle (s : t) (p : Tone.Pixel) (avg : R) : FillStyle :=
  match colorMode s with
  | white => Css "#ffffff"
  | custom => Css (customColor s)
  | original => let '(r, g, b) := p in Rgb r g b
  | matrix => Rgba 0 255 70 (avg / 255)%R
  end.

Definition drawCell (source : Sampler) (cols rows : Z) (s : t) (y x : Z)
  : DrawOp :=
  let '(p, avg) := cellTone source cols rows s x y in
  let charIndex := GlyphMapper.charIndex s avg in
  FillText (GlyphMapper.glyphAt s charIndex) (cellStyle s p avg)
           (x * fontSize s) (y * fontSize s).

Definition drawAsciiFrame (source : Sampler) (width height : Z) (s : t)
  : list DrawOp :=
  let charSize := fontSize s in
  let cols := gridCount width charSize in
  let rows := gridCount height charSize in
  if (cols <=? 0) || (rows <=? 0) then []
  else
    FillRect (Css (backgroundColor s)) 0 0 width height ::
    flat_map (fun y => map (drawCell source cols rows s y) (upto cols))
             (upto rows).

(** [density[charIndex] + density[charIndex]]; outside the density string
    the sum of two [undefined] prints as [NaN]. *)
Definition textCell (source : Sampler) (cols rows : Z) (s : t) (y x : Z)
  : list Glyph :=
  let '(_, avg) := cellTone source cols rows s x y in
  match GlyphMapper.glyphAt s (GlyphMapper.charIndex s avg) with
  | Some c => [c; c]
  | None => codes "NaN"
  end.

(** The returned string, as its code units; a row ends with a line feed. *)
Definition getAsciiString (source : Sampler) (width height : Z) (s : t)
  : list Glyph :=
  let charSize := fontSize s in
  let cols := gridCount width charSize in
  let rows := gridCount height charSize in
  if (cols <=? 0) || (rows <=? 0) then []
  else
    flat_map (fun y => flat_map (textCell source cols rows s y) (upto cols)
                       ++ [10%N])
             (upto rows).

(** *** The call sites *)

(** What one run of [renderFrame] (the recurring preview render) does. *)
Inductive PreviewStep :=
| Reschedule
| GiveUp
| Rendered (renderWidth renderHeight : Z) (ops : list DrawOp).

(** [renderFrame]: [elementsReady] is [mediaElement && canvas &&
    hiddenCanvas], [contextsReady] is [ctx && hiddenCtx]; [width] and
    [height] are the natural dimensions of the source. *)
Definition renderFrame (source : Sampler) (elementsReady contextsReady : bool)
    (width height : Z) (s : t) : PreviewStep :=
  if negb elementsReady || (width =? 0) || (height =? 0) then Reschedule
  else
    let charSize := fontSize s in
    let cols := Z.max 1 (gridCount width charSize) in
    let rows := Z.max 1 (gridCount height charSize) in
    let renderWidth := cols * charSize in
    let renderHeight := rows * charSize in
    if negb contextsReady then GiveUp
    else Rendered renderWidth renderHeight
           (drawAsciiFrame source renderWidth renderHeight s).

(** The text [copyTextToClipboard] writes to the clipboard, once its
    element and context checks have passed. *)
Definition copyText (source : Sampler) (w h : Z) (s : t) : list Glyph :=
  let charSize := fontSize s in
  let cols := Z.max 1 (gridCount w charSize) in
  let rows := Z.max 1 (gridCount h charSize) in
  let snapW := cols * charSize in
  let snapH := rows * charSize in
  getAsciiString source snapW snapH s.

(** The surface size [startGifExport] renders into. *)
Definition gifSurface (videoWidth videoHeight charSize : Z) : Z * Z :=
  let cols := gridCount videoWidth charSize in
  let rows := gridCount videoHeight charSize in
  (cols * charSize, rows * charSize).

(** The surface size [startOfflineRender] renders into; [%] is the
    remainder of JavaScript, which takes the sign of the dividend. *)
Definition hqSurface (videoWidth videoHeight charSize : Z) : Z * Z :=
  let cols := gridCount videoWidth charSize in
  let rows := gridCount videoHeight charSize in
  let baseWidth := cols * charSize in
  let baseHeight := rows * charSize in
  let renderWidth := baseWidth - Z.rem baseWidth 2 in
  let renderHeight := baseHeight - Z.rem baseHeight 2 in
  (renderWidth, renderHeight).



(** A source five pixels wide and high, sampled as black. *)
Definition tinySource : Sampler := fun _ _ _ _ => (0, 0, 0).


End Grid.

(* ------------------------------------------------------------------ *)
(** ** The batch exporters *)

Module Exporter.
Local Open Scope Z_scope.

(** The two jobs are embedded as programs over the state they mutate (the
    video element, the React state, the export canvas), returning a result
    that is either normal or a throw, together with the trace of the calls
    made on the collaborators.  What a collaborator does (when the source
    fires ['seeked'], whether the decoder or an encoder throws) is an input
    of the job, in [Env].  A frame is traced as the call to
    [drawAsciiFrame] with its dimensions; its pixels are those of
    [Grid.drawAsciiFrame]. *)

(** *** The state the jobs read and write *)

Inductive RecordingState :=
| idle | recording | processing_hq | processing_hq_audio | processing_gif.

(** The video element, the React state and the export canvas. *)
Record World := mkWorld {
  currentTime : Q;            (* video.currentTime, seconds *)
  muted : bool;               (* video.muted *)
  paused : bool;              (* video.paused *)
  isPlaying : bool;
  recordingState : RecordingState;
  renderProgress : option Z;  (* null is None *)
  renderStatus : string;
  canvasSize : Z * Z          (* canvas.width, canvas.height *)
}.

Inductive TrackKind := VideoTrack | AudioTrack.

(** [AudioBuffer] as far as the exporter reads it. *)
Record AudioBuffer := mkAudio {
  sampleRate : Z;
  numberOfChannels : Z;
  length : Z
}.

(** The calls a job makes on its collaborators, in the order made. *)
Inductive Event :=
| SetProgress (p : option Z)                 (* setRenderProgress(p) *)
| Seek (time : Q)                            (* video.currentTime = time *)
| Waited (ms : N)                            (* time spent in an await *)
| Draw (width height : Z)                    (* drawAsciiFrame(.., width, height, ..) *)
| WriteFrame (width height : Z) (fallbackPalette : bool) (delay : Z)
| GifDownload
| AddTrack (k : TrackKind)                   (* output.addVideoTrack / addAudioTrack *)
| ConfigureVideo (width height : Z)
| EncodeAudio (numberOfFrames : Z) (timestamp : Q)
| EncodeVideo (timestamp : Q) (keyFrame : bool)
| CloseAudioContext
| Mp4Download (tracks : list TrackKind)
| ConsoleWarn (msg : string)
| ConsoleError
| Alert (msg : string).                      (* the text before the reason *)

(** The one place, if any, at which a collaborator throws during a job. *)
Inductive Fault :=
| NoFault
| AtStart                (* await output.start() *)
| AtConfigure            (* new VideoEncoder / videoEncoder.configure *)
| AtAudioEncode          (* AudioEncoder: configure, encode or flush *)
| AtFrame (i : nat)      (* read-back, quantizer or encoder, in iteration i *)
| AtFlush                (* gif.finish() / await videoEncoder.flush() *)
| AtFinalize.            (* await output.finalize() *)

(** How the audio extraction of [startOfflineRender] ends: a throw before
    the audio context is assigned (the fetch, reading the body, creating the
    context), a throw of [decodeAudioData], or a decoded buffer. *)
Inductive AudioOutcome :=
| FetchFails
| DecodeFails
| Decoded (buffer : AudioBuffer).

(** What a job reads and does not write, and how its collaborators behave
    during the job. *)
Record Env := mkEnv {
  videoWidth : Z;
  videoHeight : Z;
  duration : Q;                    (* video.duration, seconds *)
  isMuted : bool;                  (* the UI flag the handler closed over *)
  charSize : Z;                    (* settings.fontSize *)
  sourceIsVideo : bool;            (* source?.type === 'video' *)
  sourceHasUrl : bool;             (* source.url *)
  refsReady : bool;                (* canvas, video and hidden canvas exist *)
  contextsReady : bool;            (* ctx && hiddenCtx *)
  hasVideoEncoder : bool;
  hasAudioEncoder : bool;
  seekedAfter : nat -> option N;   (* ms until 'seeked' fires in iteration i *)
  paletteEmpty : nat -> bool;      (* quantize yields no palette in iteration i *)
  audioOutcome : AudioOutcome;
  fault : Fault
}.

(** *** State, trace and exceptions *)

Inductive Result (A : Type) :=
| Ok (a : A)
| Throw.
Arguments Ok {A} a.
Arguments Throw {A}.

Definition M (A : Type) : Type := World -> Result A * World * list Event.

Definition ret {A} (a : A) : M A := fun w => (Ok a, w, []).

Definition bind {A B} (m : M A) (k : A -> M B) : M B := fun w =>
  match m w with
  | (Ok a, w1, t1) => let '(r, w2, t2) := k a w1 in (r, w2, t1 ++ t2)
  | (Throw, w1, t1) => (Throw, w1, t1)
  end.

Notation "x <- c1 ;; c2" := (bind c1 (fun x => c2))
  (at level 61, c1 at next level, right associativity).
Notation "c1 ;; c2" := (bind c1 (fun _ => c2))
  (at level 61, right associativity).

Definition throw {A} : M A := fun w => (Throw, w, []).
Definition emit (e : Event) : M unit := fun w => (Ok tt, w, [e]).
Definition modify (f : World -> World) : M unit := fun w => (Ok tt, f w, []).
Definition when (b : bool) (m : M unit) : M unit := if b then m else ret tt.

(** [try { body } catch (e) { handler } finally { fin }] *)
Definition tryCatchFinally (body handler fin : M unit) : M unit := fun w =>
  let '(r1, w1, t1) := body w in
  let '(r2, w2, t2) :=
    match r1 with
    | Ok _ => (Ok tt, w1, [])
    | Throw => handler w1
    end in
  let '(r3, w3, t3) := fin w2 in
  (match r3 with Ok _ => r2 | Throw => Throw end, w3, t1 ++ t2 ++ t3).

(** [for (let i = 0; i < n; i++) { await body(i) }] over the indices. *)
Fixpoint forEach (l : list nat) (body : nat -> M unit) : M unit :=
  match l with
  | [] => ret tt
  | i :: l' => body i ;; forEach l' body
  end.

Definition finalWorld {A} (x : Result A * World * list Event) : World :=
  snd (fst x).
Definition events {A} (x : Result A * World * list Event) : list Event :=
  snd x.
Definition outcome {A} (x : Result A * World * list Event) : Result A :=
  fst (fst x).

(** *** Setters *)

Definition setIsPlaying (b : bool) : M unit := modify (fun w =>
  mkWorld (currentTime w) (muted w) (paused w) b (recordingState w)
          (renderProgress w) (renderStatus w) (canvasSize w)).
Definition pause : M unit := modify (fun w =>
  mkWorld (currentTime w) (muted w) true (isPlaying w) (recordingState w)
          (renderProgress w) (renderStatus w) (canvasSize w)).
Definition setMuted (b : bool) : M unit := modify (fun w =>
  mkWorld (currentTime w) b (paused w) (isPlaying w) (recordingState w)
          (renderProgress w) (renderStatus w) (canvasSize w)).
Definition setRecordingState (s : RecordingState) : M unit := modify (fun w =>
  mkWorld (currentTime w) (muted w) (paused w) (isPlaying w) s
          (renderProgress w) (renderStatus w) (canvasSize w)).
Definition setRenderStatus (s : string) : M unit := modify (fun w =>
  mkWorld (currentTime w) (muted w) (paused w) (isPlaying w) (recordingState w)
          (renderProgress w) s (canvasSize w)).
Definition setCanvasSize (d : Z * Z) : M unit := modify (fun w =>
  mkWorld (currentTime w) (muted w) (paused w) (isPlaying w) (recordingState w)
          (renderProgress w) (renderStatus w) d).
Definition setRenderProgress (p : option Z) : M unit :=
  modify (fun w =>
    mkWorld (currentTime w) (muted w) (paused w) (isPlaying w)
            (recordingState w) p (renderStatus w) (canvasSize w)) ;;
  emit (SetProgress p).
Definition setCurrentTime (t : Q) : M unit :=
  modify (fun w =>
    mkWorld t (muted w) (paused w) (isPlaying w) (recordingState w)
            (renderProgress w) (renderStatus w) (canvasSize w)) ;;
  emit (Seek t).

(** *** Seeking *)

(** The promise that resolves on the ['seeked'] event or on the 500 ms
    timer, whichever comes first: the time it takes. *)
Definition awaitSeeked (after : option N) : N :=
  match after with
  | Some d => if (d <? 500)%N then d else 500%N
  | None => 500%N
  end.

(** [seekTo], the closure of [startGifExport]. *)
Definition seekTo (env : Env) (i : nat) (time : Q) : M unit := fun w =>
  if Qlt_le_dec (Qabs (currentTime w - time)) (1 # 100) then ret tt w
  else (setCurrentTime time ;;
        emit (Waited (awaitSeeked (seekedAfter env i)))) w.

(** The seek written out in the frame loop of [startOfflineRender]. *)
Definition hqSeek (env : Env) (i : nat) (time : Q) : M unit :=
  setCurrentTime time ;;
  emit (Waited (awaitSeeked (seekedAfter env i))).

(** *** Shared pieces *)

(** [Math.round(x)] *)
Definition Math_round (x : Q) : Z := Qfloor (x + (1 # 2)).

(** [Math.round((i / totalFrames) * 100)]: the quotient and the product are
    each rounded to a double, [Math.round] is exact on the double it is
    given. *)
Definition progressAt (totalFrames : Z) (i : nat) : Z :=
  Math_round
    (Double.mul (Double.div (inject_Z (Z.of_nat i)) (inject_Z totalFrames)) 100).

Definition throwsAtFrame (env : Env) (i : nat) : bool :=
  match fault env with
  | AtFrame j => Nat.eqb i j
  | _ => false
  end.

Definition faultIs (env : Env) (f : Fault) : bool :=
  match fault env, f with
  | AtStart, AtStart | AtConfigure, AtConfigure
  | AtAudioEncode, AtAudioEncode | AtFlush, AtFlush
  | AtFinalize, AtFinalize => true
  | _, _ => false
  end.

Definition mayThrow (b : bool) : M unit := if b then throw else ret tt.

(** The [finally] block both jobs end with. *)
Definition cleanup (env : Env) : M unit :=
  setRenderProgress None ;;
  setRenderStatus "" ;;
  setRecordingState idle ;;
  setCurrentTime 0 ;;
  setMuted (isMuted env).

(** *** [startGifExport] *)

Definition gifFps : Z := 10.

(** [const duration = Math.min(video.duration, 15);
     const totalFrames = Math.floor(duration * fps)]: the product is a
    double. *)
Definition gifTotalFrames (env : Env) : Z :=
  Qfloor (Double.mul (Qmin (duration env) 15) (inject_Z gifFps)).

Definition gifFrame (env : Env) (width height totalFrames : Z) (i : nat)
  : M unit :=
  let time := (inject_Z (Z.of_nat i) / inject_Z gifFps)%Q in
  seekTo env i time ;;
  emit (Waited 50) ;;
  emit (Draw width height) ;;
  mayThrow (throwsAtFrame env i) ;;
  emit (WriteFrame width height (paletteEmpty env i)
                   (Math_round (1000 / inject_Z gifFps)%Q)) ;;
  setRenderProgress (Some (progressAt totalFrames i)) ;;
  emit (Waited 0).

Definition startGifExport (env : Env) : M unit :=
  if negb (refsReady env) then ret tt
  else if negb (contextsReady env) then ret tt
  else
    setIsPlaying false ;;
    pause ;;
    setMuted true ;;
    setRecordingState processing_gif ;;
    setRenderProgress (Some 0) ;;
    setRenderStatus "RECORDING GIF..." ;;
    let '(width, height) :=
      Grid.gifSurface (videoWidth env) (videoHeight env) (charSize env) in
    let totalFrames := gifTotalFrames env in
    setCanvasSize (width, height) ;;
    tryCatchFinally
      (forEach (seq 0 (Z.to_nat totalFrames))
               (gifFrame env width height totalFrames) ;;
       mayThrow (faultIs env AtFlush) ;;
       emit GifDownload)
      (emit ConsoleError ;; emit (Alert "GIF Export failed: "))
      (cleanup env).

(** *** [startOfflineRender] *)

Definition hqFps : Z := 30.

(** [Math.floor(duration * fps)], the product a double. *)
Definition hqTotalFrames (env : Env) : Z :=
  Qfloor (Double.mul (duration env) (inject_Z hqFps)).

(** The [try]/[catch] around the audio extraction: the decoded buffer, if
    any, and whether an audio context was created. *)
Definition extractAudio (env : Env) (withAudio : bool)
  : M (option AudioBuffer * bool) :=
  if withAudio && sourceHasUrl env then
    setRenderStatus "EXTRACTING AUDIO..." ;;
    match audioOutcome env with
    | FetchFails => emit (ConsoleWarn "Audio extraction failed") ;; ret (None, false)
    | DecodeFails => emit (ConsoleWarn "Audio extraction failed") ;; ret (None, true)
    | Decoded buffer => ret (Some buffer, true)
    end
  else ret (None, false).

(** [for (let i = 0; i < length; i += chunkSize)], the start of each chunk. *)
Fixpoint chunkStarts (fuel : nat) (i length chunkSize : Z) : list Z :=
  match fuel with
  | O => []
  | S fuel' =>
      if i <? length then i :: chunkStarts fuel' (i + chunkSize) length chunkSize
      else []
  end.

Definition encodeAudioChunk (b : AudioBuffer) (i : Z) : M unit :=
  let finish := Z.min (i + sampleRate b) (length b) in
  emit (EncodeAudio (finish - i)
          (inject_Z (i * 1000000) / inject_Z (sampleRate b))%Q).

Fixpoint forEachZ (l : list Z) (body : Z -> M unit) : M unit :=
  match l with
  | [] => ret tt
  | i :: l' => body i ;; forEachZ l' body
  end.

Definition encodeAudio (env : Env) (b : AudioBuffer) : M unit :=
  setRenderStatus "ENCODING AUDIO..." ;;
  mayThrow (faultIs env AtAudioEncode) ;;
  forEachZ (chunkStarts (Z.to_nat (length b)) 0 (length b) (sampleRate b))
           (encodeAudioChunk b).

Definition hqFrame (env : Env) (renderWidth renderHeight totalFrames : Z)
    (i : nat) : M unit :=
  let time := (inject_Z (Z.of_nat i) / inject_Z hqFps)%Q in
  hqSeek env i time ;;
  emit (Draw renderWidth renderHeight) ;;
  mayThrow (throwsAtFrame env i) ;;
  emit (EncodeVideo (inject_Z (Z.of_nat i) * (1000000 / inject_Z hqFps))%Q
                    (Nat.eqb (Nat.modulo i 30) 0)) ;;
  setRenderProgress (Some (progressAt totalFrames i)) ;;
  emit (Waited 0).

Definition tracksOf (audioBuffer : option AudioBuffer) : list TrackKind :=
  VideoTrack :: match audioBuffer with Some _ => [AudioTrack] | None => [] end.

Definition startOfflineRender (env : Env) (withAudio : bool) : M unit :=
  if negb (sourceIsVideo env && refsReady env) then ret tt
  else if negb (hasVideoEncoder env) || (withAudio && negb (hasAudioEncoder env))
  then emit (Alert "HQ render requires WebCodecs support (VideoEncoder/AudioEncoder) in this browser.")
  else if negb (contextsReady env) then ret tt
  else
    setIsPlaying false ;;
    pause ;;
    setMuted true ;;
    setRecordingState (if withAudio then processing_hq_audio else processing_hq) ;;
    setRenderProgress (Some 0) ;;
    setRenderStatus "INITIALIZING..." ;;
    audio <- extractAudio env withAudio ;;
    let '(audioBuffer, audioCtx) := audio in
    setRenderStatus "PREPARING ENCODER..." ;;
    let '(renderWidth, renderHeight) :=
      Grid.hqSurface (videoWidth env) (videoHeight env) (charSize env) in
    let totalFrames := hqTotalFrames env in
    setCanvasSize (renderWidth, renderHeight) ;;
    emit (AddTrack VideoTrack) ;;
    when (match audioBuffer with Some _ => true | None => false end)
         (emit (AddTrack AudioTrack)) ;;
    mayThrow (faultIs env AtStart) ;;
    mayThrow (faultIs env AtConfigure) ;;
    emit (ConfigureVideo renderWidth renderHeight) ;;
    tryCatchFinally
      (match audioBuffer with
       | Some b => encodeAudio env b
       | None => ret tt
       end ;;
       setRenderStatus "RENDERING VIDEO..." ;;
       forEach (seq 0 (Z.to_nat totalFrames))
               (hqFrame env renderWidth renderHeight totalFrames) ;;
       setRenderStatus "FINALIZING..." ;;
       mayThrow (faultIs env AtFlush) ;;
       when audioCtx (emit CloseAudioContext) ;;
       mayThrow (faultIs env AtFinalize) ;;
       emit (Mp4Download (tracksOf audioBuffer)))
      (emit ConsoleError ;; emit (Alert "Render failed."))
      (cleanup env).

(** *** Reading a trace *)

(** The percentages shown, oldest first. *)
Fixpoint progressValues (t : list Event) : list Z :=
  match t with
  | [] => []
  | SetProgress (Some p) :: t' => p :: progressValues t'
  | _ :: t' => progressValues t'
  end.

(** The frames handed to the animated-image encoder. *)
Fixpoint framesWritten (t : list Event) : nat :=
  match t with
  | [] => O
  | WriteFrame _ _ _ _ :: t' => S (framesWritten t')
  | _ :: t' => framesWritten t'
  end.

(** The frames handed to the video encoder. *)
Fixpoint framesEncoded (t : list Event) : nat :=
  match t with
  | [] => O
  | EncodeVideo _ _ :: t' => S (framesEncoded t')
  | _ :: t' => framesEncoded t'
  end.

(** The timestamps, in microseconds, of the frames submitted with a
    keyframe request. *)
Fixpoint keyFrames (t : list Event) : list Q :=
  match t with
  | [] => []
  | EncodeVideo ts true :: t' => Qred ts :: keyFrames t'
  | _ :: t' => keyFrames t'
  end.

Fixpoint nondecreasing (l : list Z) : Prop :=
  match l with
  | [] => True
  | x :: l' => match l' with [] => True | y :: _ => x <= y end /\ nondecreasing l'
  end.

(** *** Vocabulary of the properties *)

(** A statement that cannot throw. *)
Definition neverThrows {A} (m : M A) : Prop :=
  forall w, exists a w' t, m w = (Ok a, w', t).

(** A statement after which the source is rewound and carries the mute
    flag of the UI, and the progress overlay is cleared. *)
Definition endsClean (env : Env) (m : M unit) : Prop :=
  forall w,
    let w' := finalWorld (m w) in
    currentTime w' = 0%Q /\ muted w' = isMuted env /\
    renderProgress w' = None /\ renderStatus w' = ""%string /\
    recordingState w' = idle.

(** The job reaches its [try] block: the guards pass and neither
    [output.start()] nor the encoder configuration throws. *)
Definition hqReachesTry (env : Env) (withAudio : bool) : Prop :=
  sourceIsVideo env = true /\ refsReady env = true /\
  contextsReady env = true /\ hasVideoEncoder env = true /\
  (withAudio = true -> hasAudioEncoder env = true) /\
  fault env <> AtStart /\ fault env <> AtConfigure.

(** The events a frame of the HQ loop can leave. *)
Definition isFrameEvent (e : Event) : bool :=
  match e with
  | Seek _ | Waited _ | Draw _ _ | EncodeVideo _ _ | SetProgress _ => true
  | _ => false
  end.

(** The world after [video.currentTime = t]. *)
Definition withCurrentTime (t : Q) (w : World) : World :=
  mkWorld t (muted w) (paused w) (isPlaying w) (recordingState w)
          (renderProgress w) (renderStatus w) (canvasSize w).

(** The audio extraction throws, in the fetch or in the decoder. *)
Definition audioFails (env : Env) : Prop :=
  audioOutcome env = FetchFails \/ audioOutcome env = DecodeFails.

(** *** Sample runs *)

(** A playing, unmuted video, five seconds in, and one at its start. *)
Definition playingAt5 : World :=
  mkWorld 5 false false true idle None "" (0, 0).
Definition atStart : World :=
  mkWorld 0 false false true idle None "" (0, 0).

(** A 320 by 180 clip of [d] seconds, cell size 16, whose seeks complete
    after 20 ms. *)
Definition clip (d : Q) (f : Fault) (a : AudioOutcome) : Env :=
  mkEnv 320 180 d false 16 true true true true true true
        (fun _ => Some 20%N) (fun _ => false) a f.

End Exporter.

(* ------------------------------------------------------------------ *)
(** ** The live recorder *)

Module Live.

Inductive TrackKind := video | audio.

Record Track := mkTrack {
  kind : TrackKind;
  id : nat;
  isClone : bool
}.

Definition MediaStream := list Track.

(** [type: 'video' | 'image' | 'webcam'] *)
Inductive SourceType := file_video | still_image | webcam.

Record MediaSource := mkSource {
  type : SourceType;
  url : option string;
  stream : option MediaStream
}.

Definition isKind (k : TrackKind) (t : Track) : bool :=
  match kind t, k with
  | video, video | audio, audio => true
  | _, _ => false
  end.

Definition getVideoTracks (s : MediaStream) : list Track := filter (isKind video) s.
Definition getAudioTracks (s : MediaStream) : list Track := filter (isKind audio) s.

(** [track.clone()] *)
Definition clone (t : Track) : Track := mkTrack (kind t) (id t) true.

(** [stream?.getAudioTracks().forEach(track => mixedStream.addTrack(track.clone()))] *)
Definition addAudioTracks (mixedStream : MediaStream) (stream : option MediaStream)
  : MediaStream :=
  match stream with
  | Some st => mixedStream ++ map clone (getAudioTracks st)
  | None => mixedStream
  end.

Definition isSome {A} (o : option A) : bool :=
  match o with Some _ => true | None => false end.

(** [source?.type === ty] *)
Definition sourceTypeIs (source : option MediaSource) (ty : SourceType) : bool :=
  match source with
  | Some src =>
      match type src, ty with
      | file_video, file_video | still_image, still_image
      | webcam, webcam => true
      | _, _ => false
      end
  | None => false
  end.

(** [source.stream] *)
Definition sourceStream (source : option MediaSource) : option MediaStream :=
  match source with
  | Some src => stream src
  | None => None
  end.

(** The stream [startLiveRecording] hands to the recorder.  [canvasStream]
    is [canvasRef.current.captureStream(30)]; [videoCapture] is
    [videoRef.current.captureStream()], [None] where the element or the
    method is missing. *)
Definition mixedStreamOf (source : option MediaSource)
    (canvasStream : MediaStream) (videoCapture : option MediaStream)
    (isMuted : bool) : MediaStream :=
  let mixedStream := getVideoTracks canvasStream in
  if sourceTypeIs source file_video && isSome videoCapture && negb isMuted
  then addAudioTracks mixedStream videoCapture
  else if sourceTypeIs source webcam && isSome (sourceStream source)
          && negb isMuted
  then addAudioTracks mixedStream (sourceStream source)
  else mixedStream.

(** The container type asked of the recorder. *)
Definition mimeTypeOf (isTypeSupported : string -> bool) : string :=
  let preferredMime := "video/webm;codecs=vp9,opus"%string in
  let fallbackMime := "video/webm;codecs=vp8,opus"%string in
  if isTypeSupported preferredMime then preferredMime
  else if isTypeSupported fallbackMime then fallbackMime
  else "video/webm"%string.

End Live.

(* ------------------------------------------------------------------ *)
(** ** Reading the calls of the renderer *)

Module Canvas.
Import Grid.


(** The fill style is a colour the canvas accepts: a CSS string, or
    channels within 0 .. 255, or an opacity within 0 .. 1. *)
Definition validStyle (st : FillStyle) : Prop :=
  match st with
  | Css _ => True
  | Rgb r g b => Tone.inRange (r, g, b)
  | Rgba r g b alpha =>
      (0 <= r <= 255 /\ 0 <= g <= 255 /\ 0 <= b <= 255)%Z /\
      (0 <= alpha <= 1)%R
  end.

Definition styleOf (op : DrawOp) : FillStyle :=
  match op with
  | FillRect st _ _ _ _ => st
  | FillText _ st _ _ => st
  end.

End Canvas.

(* ------------------------------------------------------------------ *)
(** ** Reading the traces of the exporters *)

Module Traces.
Import Exporter.
Local Open Scope Z_scope.

(** The milliseconds a job spends waiting on the source and on timers. *)
Fixpoint totalWait (t : list Event) : N :=
  match t with
  | [] => 0%N
  | Waited ms :: t' => (ms + totalWait t')%N
  | _ :: t' => totalWait t'
  end.

(** The frames handed to [gif.writeFrame]: width, height, whether the
    one-entry black palette stands in, and the delay. *)
Fixpoint gifFramesOf (t : list Event) : list (Z * Z * bool * Z) :=
  match t with
  | [] => []
  | WriteFrame w h f d :: t' => (w, h, f, d) :: gifFramesOf t'
  | _ :: t' => gifFramesOf t'
  end.

(** The frames handed to [videoEncoder.encode]: timestamp and keyframe
    request. *)
Fixpoint videoFramesOf (t : list Event) : list (Q * bool) :=
  match t with
  | [] => []
  | EncodeVideo ts k :: t' => (ts, k) :: videoFramesOf t'
  | _ :: t' => videoFramesOf t'
  end.

(** The track of each unit handed to an encoder, in the order handed. *)
Fixpoint encodeOrder (t : list Event) : list TrackKind :=
  match t with
  | [] => []
  | EncodeAudio _ _ :: t' => AudioTrack :: encodeOrder t'
  | EncodeVideo _ _ :: t' => VideoTrack :: encodeOrder t'
  | _ :: t' => encodeOrder t'
  end.

(** The frame counts and the timestamps of the chunks handed to the audio
    encoder. *)
Fixpoint audioFramesOf (t : list Event) : list Z :=
  match t with
  | [] => []
  | EncodeAudio n _ :: t' => n :: audioFramesOf t'
  | _ :: t' => audioFramesOf t'
  end.

Fixpoint audioStampsOf (t : list Event) : list Q :=
  match t with
  | [] => []
  | EncodeAudio _ ts :: t' => ts :: audioStampsOf t'
  | _ :: t' => audioStampsOf t'
  end.

Definition sumZ (l : list Z) : Z := fold_right Z.add 0 l.

(** The events a frame of the GIF loop can leave. *)
Definition isGifFrameEvent (e : Event) : bool :=
  match e with
  | Seek _ | Waited _ | Draw _ _ | WriteFrame _ _ _ _ | SetProgress _ => true
  | _ => false
  end.

(** The frame [startGifExport] writes in iteration [i]. *)
Definition gifFrameAt (env : Env) (i : nat) : Z * Z * bool * Z :=
  let d := Grid.gifSurface (videoWidth env) (videoHeight env) (charSize env) in
  (fst d, snd d, paletteEmpty env i, 100).

(** The frame [startOfflineRender] submits in iteration [i]. *)
Definition videoFrameAt (i : nat) : Q * bool :=
  ((inject_Z (Z.of_nat i) * (1000000 / inject_Z hqFps))%Q,
   Nat.eqb (Nat.modulo i 30) 0).

(** An event that is neither a percentage, nor a wait, nor a frame. *)
Definition isQuiet (e : Event) : bool :=
  match e with
  | SetProgress (Some _) | Waited _ | EncodeVideo _ _ | WriteFrame _ _ _ _ => false
  | _ => true
  end.

(** What [extractAudio] returns: the buffer and whether a context exists. *)
Definition audioResult (env : Env) (withAudio : bool)
  : option AudioBuffer * bool :=
  if withAudio && sourceHasUrl env then
    match audioOutcome env with
    | FetchFails => (None, false)
    | DecodeFails => (None, true)
    | Decoded buffer => (Some buffer, true)
    end
  else (None, false).

(** The chunks [encodeAudio] hands to the audio encoder. *)
Definition audioChunkEvents (b : AudioBuffer) : list Event :=
  map (fun i =>
         EncodeAudio (Z.min (i + sampleRate b) (length b) - i)
                     (inject_Z (i * 1000000) / inject_Z (sampleRate b))%Q)
      (chunkStarts (Z.to_nat (length b)) 0 (length b) (sampleRate b)).

(** [Math.ceil(length / chunkSize)] for a positive chunk size. *)
Definition chunkCount (length chunkSize : Z) : Z :=
  (length + chunkSize - 1) / chunkSize.

(** The warning the audio extraction leaves, if it fails. *)
Definition audioWarnings (env : Env) (withAudio : bool) : list Event :=
  if withAudio && sourceHasUrl env then
    match audioOutcome env with
    | Decoded _ => []
    | _ => [ConsoleWarn "Audio extraction failed"]
    end
  else [].

(** A statement all of whose events are quiet. *)
Definition quietM {A} (m : M A) : Prop :=
  forall w, Forall (fun e => isQuiet e = true) (events (m w)).

(** A statement whose trace is quiet but for at most one run of the frame
    loop [L], started in some world. *)
Definition oneLoop {A} (L : World -> list Event) (m : M A) : Prop :=
  forall w, exists pre post,
    Forall (fun e => isQuiet e = true) pre /\
    Forall (fun e => isQuiet e = true) post /\
    (events (m w) = pre ++ post \/
     exists w1, events (m w) = pre ++ L w1 ++ post).

(** The frame loops of the two jobs, as traces. *)
Definition gifLoop (env : Env) (w1 : World) : list Event :=
  let d := Grid.gifSurface (videoWidth env) (videoHeight env) (charSize env) in
  events (forEach (seq 0 (Z.to_nat (gifTotalFrames env)))
            (gifFrame env (fst d) (snd d) (gifTotalFrames env)) w1).

Definition hqLoop (env : Env) (w1 : World) : list Event :=
  let d := Grid.hqSurface (videoWidth env) (videoHeight env) (charSize env) in
  events (forEach (seq 0 (Z.to_nat (hqTotalFrames env)))
            (hqFrame env (fst d) (snd d) (hqTotalFrames env)) w1).

(** A statement that only writes the state. *)
Definition silent (m : M unit) : Prop :=
  forall w, exists w', m w = (Ok tt, w', []).

(** The trace of a job that started: the zero, then quiet events around at
    most one run of the frame loop. *)
Definition started (L : World -> list Event) (t : list Event) : Prop :=
  exists pre post,
    Forall (fun e => isQuiet e = true) pre /\
    Forall (fun e => isQuiet e = true) post /\
    (t = SetProgress (Some 0) :: pre ++ post \/
     exists w1, t = SetProgress (Some 0) :: pre ++ L w1 ++ post).

(** The job passes the guards of [startGifExport]. *)
Definition gifStarts (env : Env) : Prop :=
  refsReady env = true /\ contextsReady env = true.

End Traces.

(* ------------------------------------------------------------------ *)
(** ** The interleaved audio samples of the HQ render *)

Module Audio.

Section Interleave.

(** A sample of a [Float32Array], and what a fresh array holds. *)
Variable sample : Type.
Variable zero : sample.

(** [audioBuffer.getChannelData(ch)[i]] *)
Variable getChannelData : nat -> nat -> sample.

(** [a[k] = v] on a typed array; a write past the end is ignored. *)
Definition store (a : list sample) (k : nat) (v : sample) : list sample :=
  if (k <? List.length a)%nat then firstn k a ++ v :: skipn (S k) a else a.

(** [for (let ch = 0; ch < numberOfChannels; ch++)
       interleaved[i * numberOfChannels + ch] = audioBuffer.getChannelData(ch)[i]] *)
Definition storeFrame (numberOfChannels i : nat) (a : list sample)
  : list sample :=
  fold_left
    (fun a ch => store a (i * numberOfChannels + ch) (getChannelData ch i))
    (seq 0 numberOfChannels) a.

(** [const interleaved = new Float32Array(length * numberOfChannels)]
    filled by the loop over [i]. *)
Definition interleaved (numberOfChannels length : nat) : list sample :=
  fold_left (fun a i => storeFrame numberOfChannels i a) (seq 0 length)
            (repeat zero (length * numberOfChannels)).

(** [a.subarray(from, to)] for [from <= to] within the array. *)
Definition subarray (a : list sample) (from to : nat) : list sample :=
  firstn (to - from) (skipn from a).

(** The samples of the chunk that starts at frame [i]:
    [interleaved.subarray(i * numberOfChannels, end * numberOfChannels)]
    with [end = Math.min(i + chunkSize, length)]. *)
Definition chunkData (numberOfChannels length chunkSize i : nat)
  : list sample :=
  let finish := Nat.min (i + chunkSize) length in
  subarray (interleaved numberOfChannels length)
           (i * numberOfChannels) (finish * numberOfChannels).

End Interleave.

End Audio.

(* ------------------------------------------------------------------ *)
(** ** The chunks of the live recorder and the preview size *)

Module Recorder.

(** A [Blob], as its bytes. *)
Definition Blob := list N.

(** [mediaRecorder.ondataavailable]:
    [if (e.data.size > 0) chunksRef.current.push(e.data)] *)
Definition ondataavailable (chunks : list Blob) (data : Blob) : list Blob :=
  if (0 <? List.length data)%nat then chunks ++ [data] else chunks.

(** [chunksRef.current] after the recorder delivered [deliveries], having
    been emptied when the recording started. *)
Definition chunksAfter (deliveries : list Blob) : list Blob :=
  fold_left ondataavailable deliveries [].

(** [new Blob(chunksRef.current, ...)] in [onstop]. *)
Definition blobOf (chunks : list Blob) : Blob := List.concat chunks.

End Recorder.

Module Preview.

(** The size [renderFrame] gives the preview canvas: the rendered surface
    fitted into the container ([rect.width * dpr] by [rect.height * dpr])
    at its own aspect ratio. *)
Definition displaySize (renderWidth renderHeight : Z)
    (containerWidth containerHeight : Q) : Z * Z :=
  let sourceAspect := (inject_Z renderWidth / inject_Z renderHeight)%Q in
  let containerAspect := (containerWidth / containerHeight)%Q in
  if Qlt_le_dec containerAspect sourceAspect
  then (Qfloor containerWidth, Qfloor (containerWidth / sourceAspect)%Q)
  else (Qfloor (containerHeight * sourceAspect)%Q, Qfloor containerHeight).

(** [displayWidth > 0 && displayHeight > 0], the test before the copy. *)
Definition copied (d : Z * Z) : bool := ((0 <? fst d) && (0 <? snd d))%Z.

End Preview.

(* ------------------------------------------------------------------ *)
(** ** Facts about rounding to a double *)

Module DoubleFacts.
Import Double.
Local Open Scope Q_scope.

Lemma two_pos (e : Z) : 0 < 2 ^ e.
Proof. apply Qpower_0_lt. reflexivity. Qed.

Lemma two_add (n m : Z) : 2 ^ (n + m) == 2 ^ n * 2 ^ m.
Proof. apply Qpower_plus. discriminate. Qed.

Lemma two_le (n m : Z) : (n <= m)%Z -> 2 ^ n <= 2 ^ m.
Proof. intros H. apply Qpower_le_compat_l; [exact H | discriminate]. Qed.

Lemma two_inject (n : Z) : (0 <= n)%Z -> inject_Z (2 ^ n) == 2 ^ n.
Proof. intros H. apply (Zpower_Qpower 2 n H). Qed.

(** *** Rounding to the nearest integer *)

Lemma round_cases (z : Q) :
  roundTiesToEven z = Qfloor z /\ z - inject_Z (Qfloor z) <= 1 # 2 \/
  roundTiesToEven z = (Qfloor z + 1)%Z /\ 1 # 2 <= z - inject_Z (Qfloor z).
Proof.
  unfold roundTiesToEven. cbv zeta.
  destruct (Qcompare_spec (z - inject_Z (Qfloor z)) (1 # 2)) as [E | E | E].
  - destruct (Z.even (Qfloor z)); [left | right]; split; try reflexivity;
      rewrite E; apply Qle_refl.
  - left. split; [reflexivity | apply Qlt_le_weak, E].
  - right. split; [reflexivity | apply Qlt_le_weak, E].
Qed.

Lemma round_lower (z : Q) : (Qfloor z <= roundTiesToEven z)%Z.
Proof. destruct (round_cases z) as [[-> _] | [-> _]]; lia. Qed.

Lemma round_upper (z : Q) : (roundTiesToEven z <= Qfloor z + 1)%Z.
Proof. destruct (round_cases z) as [[-> _] | [-> _]]; lia. Qed.

(** The nearest integer is at most one half away. *)
Lemma round_error (z : Q) : Qabs (inject_Z (roundTiesToEven z) - z) <= 1 # 2.
Proof.
  pose proof (Qfloor_le z) as Hlo. pose proof (Qlt_floor z) as Hhi.
  rewrite inject_Z_plus in Hhi. change (inject_Z 1) with 1 in Hhi.
  apply Qabs_Qle_condition.
  destruct (round_cases z) as [[-> H] | [-> H]].
  - split; Lqa.lra.
  - rewrite inject_Z_plus. change (inject_Z 1) with 1. split; Lqa.lra.
Qed.

Lemma round_same_floor (z1 z2 : Q) :
  z1 <= z2 -> Qfloor z1 = Qfloor z2 ->
  (roundTiesToEven z1 <= roundTiesToEven z2)%Z.
Proof.
  intros Hle Hf. unfold roundTiesToEven. cbv zeta. rewrite <- Hf.
  set (f := Qfloor z1).
  destruct (Qcompare_spec (z1 - inject_Z f) (1 # 2)) as [E1 | E1 | E1];
    destruct (Qcompare_spec (z2 - inject_Z f) (1 # 2)) as [E2 | E2 | E2];
    try (destruct (Z.even f)); try lia; exfalso; Lqa.lra.
Qed.

Lemma round_mono (z1 z2 : Q) :
  z1 <= z2 -> (roundTiesToEven z1 <= roundTiesToEven z2)%Z.
Proof.
  intros Hle. pose proof (Qfloor_resp_le _ _ Hle) as Hf.
  destruct (Z.eq_dec (Qfloor z1) (Qfloor z2)) as [E | N].
  - apply round_same_floor; assumption.
  - pose proof (round_upper z1). pose proof (round_lower z2). lia.
Qed.

Lemma round_at_least (z : Q) (n : Z) :
  inject_Z n <= z -> (n <= roundTiesToEven z)%Z.
Proof.
  intros H. pose proof (Qfloor_resp_le _ _ H) as Hf. rewrite Qfloor_Z in Hf.
  pose proof (round_lower z). lia.
Qed.

Lemma round_at_most (z : Q) (n : Z) :
  z <= inject_Z n -> (roundTiesToEven z <= n)%Z.
Proof.
  intros H.
  destruct (round_cases z) as [[-> _] | [-> Hhalf]].
  - pose proof (Qfloor_resp_le _ _ H) as Hf. rewrite Qfloor_Z in Hf. exact Hf.
  - pose proof (Qfloor_le z) as Hlo.
    assert (Hlt : inject_Z (Qfloor z) < inject_Z n) by Lqa.lra.
    rewrite <- Zlt_Qlt in Hlt. lia.
Qed.

(** *** The binary exponent *)

(** [exponent] is the floor of the binary logarithm. *)
Lemma exponent_spec (x : Q) :
  0 < x -> 2 ^ exponent x <= x /\ x < 2 ^ (exponent x + 1).
Proof.
  intros Hx. destruct x as [p q]. unfold exponent. cbn [Qnum Qden].
  assert (Hp : (0 < p)%Z).
  { unfold Qlt in Hx. cbn in Hx. lia. }
  set (a := Z.log2 p). set (b := Z.log2 (Zpos q)).
  destruct (Z.log2_spec p Hp) as [Hpa Hpb]. fold a in Hpa, Hpb.
  destruct (Z.log2_spec (Zpos q) (Pos2Z.is_pos q)) as [Hqa Hqb].
  fold b in Hqa, Hqb.
  assert (Ha : (0 <= a)%Z) by apply Z.log2_nonneg.
  assert (Hb : (0 <= b)%Z) by apply Z.log2_nonneg.
  assert (Hx_eq : (p # q) * inject_Z (Zpos q) == inject_Z p).
  { unfold Qeq, Qmult, inject_Z. cbn. lia. }
  assert (Hq_pos : 0 < inject_Z (Zpos q)).
  { unfold Qlt, inject_Z. cbn. lia. }
  (* the bounds on p and q in Q *)
  assert (HpaQ : 2 ^ a <= inject_Z p).
  { rewrite <- two_inject by exact Ha. rewrite <- Zle_Qle. exact Hpa. }
  assert (HpbQ : inject_Z p < 2 ^ (a + 1)).
  { rewrite <- two_inject by lia. rewrite <- Zlt_Qlt.
    replace (a + 1)%Z with (Z.succ a) by lia. exact Hpb. }
  assert (HqaQ : 2 ^ b <= inject_Z (Zpos q)).
  { rewrite <- two_inject by exact Hb. rewrite <- Zle_Qle. exact Hqa. }
  assert (HqbQ : inject_Z (Zpos q) < 2 ^ (b + 1)).
  { rewrite <- two_inject by lia. rewrite <- Zlt_Qlt.
    replace (b + 1)%Z with (Z.succ b) by lia. exact Hqb. }
  assert (Hupper : (p # q) < 2 ^ (a - b + 1)).
  { apply (Qmult_lt_r _ _ (2 ^ b)); [apply two_pos |].
    rewrite <- two_add. replace (a - b + 1 + b)%Z with (a + 1)%Z by lia.
    apply Qle_lt_trans with (inject_Z p); [| exact HpbQ].
    rewrite <- Hx_eq. apply Qmult_le_l; [exact Hx | exact HqaQ]. }
  assert (Hlower : 2 ^ (a - b - 1) < (p # q)).
  { apply (Qmult_lt_r _ _ (2 ^ (b + 1))); [apply two_pos |].
    rewrite <- two_add. replace (a - b - 1 + (b + 1))%Z with a by lia.
    apply Qle_lt_trans with (inject_Z p); [exact HpaQ |].
    rewrite <- Hx_eq. apply Qmult_lt_l; [exact Hx | exact HqbQ]. }
  destruct (Qle_bool (2 ^ (a - b)) (p # q)) eqn:E.
  - apply Qle_bool_iff in E. split; assumption.
  - split.
    + apply Qlt_le_weak, Hlower.
    + replace (a - b - 1 + 1)%Z with (a - b)%Z by lia.
      apply Qnot_le_lt. intros H. apply Qle_bool_iff in H. congruence.
Qed.

Lemma exponent_below (x : Q) (b : Z) :
  0 < x -> x < 2 ^ (b + 1) -> (exponent x <= b)%Z.
Proof.
  intros Hx Hb. destruct (exponent_spec x Hx) as [Hlo _].
  destruct (Z.le_gt_cases (exponent x) b) as [H | H]; [exact H | exfalso].
  assert (2 ^ (b + 1) <= 2 ^ exponent x) by (apply two_le; lia).
  Lqa.lra.
Qed.

Lemma exponent_mono (x y : Q) :
  0 < x -> x <= y -> (exponent x <= exponent y)%Z.
Proof.
  intros Hx Hxy.
  assert (Hy : 0 < y) by Lqa.lra.
  destruct (exponent_spec y Hy) as [_ Hhi].
  apply exponent_below; [exact Hx | Lqa.lra].
Qed.

(** *** Rounding a magnitude *)

Lemma scaled (x : Q) (u : Z) : x / 2 ^ u * 2 ^ u == x.
Proof.
  unfold Qdiv. rewrite <- Qmult_assoc, (Qmult_comm (/ _)), Qmult_inv_r.
  - apply Qmult_1_r.
  - pose proof (two_pos u). intros E. rewrite E in H. discriminate.
Qed.

Lemma scaled_le (x : Q) (u n : Z) : x <= 2 ^ (u + n) -> x / 2 ^ u <= 2 ^ n.
Proof.
  intros H. apply (Qmult_le_r _ _ (2 ^ u)); [apply two_pos |].
  rewrite scaled, <- two_add, Z.add_comm. exact H.
Qed.

Lemma scaled_ge (x : Q) (u n : Z) : 2 ^ (u + n) <= x -> 2 ^ n <= x / 2 ^ u.
Proof.
  intros H. apply (Qmult_le_r _ _ (2 ^ u)); [apply two_pos |].
  rewrite scaled, <- two_add, Z.add_comm. exact H.
Qed.

Lemma roundMagnitude_nonneg (x : Q) : 0 <= x -> 0 <= roundMagnitude x.
Proof.
  intros Hx. unfold roundMagnitude. cbv zeta.
  apply Qmult_le_0_compat; [| apply Qlt_le_weak, two_pos].
  change 0 with (inject_Z 0). rewrite <- Zle_Qle.
  apply round_at_least. change (inject_Z 0) with 0.
  apply Qle_shift_div_l; [apply two_pos | Lqa.lra].
Qed.

Lemma roundMagnitude_upper (x : Q) :
  0 < x -> roundMagnitude x <= 2 ^ (ulpExponent x + 53).
Proof.
  intros Hx. unfold roundMagnitude. cbv zeta.
  destruct (exponent_spec x Hx) as [_ Hhi].
  rewrite (Z.add_comm _ 53), two_add.
  apply Qmult_le_compat_r; [| apply Qlt_le_weak, two_pos].
  apply Qle_trans with (inject_Z (2 ^ 53)); [| rewrite two_inject by lia; apply Qle_refl].
  rewrite <- Zle_Qle.
  apply round_at_most. rewrite two_inject by lia.
  apply scaled_le.
  apply Qle_trans with (2 ^ (exponent x + 1)); [apply Qlt_le_weak, Hhi |].
  apply two_le. unfold ulpExponent. lia.
Qed.

Lemma roundMagnitude_lower (x : Q) :
  0 < x -> (-1074 < ulpExponent x)%Z ->
  2 ^ (ulpExponent x + 52) <= roundMagnitude x.
Proof.
  intros Hx Hu. unfold roundMagnitude. cbv zeta.
  destruct (exponent_spec x Hx) as [Hlo _].
  rewrite (Z.add_comm _ 52), two_add.
  apply Qmult_le_compat_r; [| apply Qlt_le_weak, two_pos].
  apply Qle_trans with (inject_Z (2 ^ 52)); [rewrite two_inject by lia; apply Qle_refl |].
  rewrite <- Zle_Qle.
  apply round_at_least. rewrite two_inject by lia.
  apply scaled_ge.
  replace (ulpExponent x + 52)%Z with (exponent x); [exact Hlo |].
  unfold ulpExponent in *. lia.
Qed.

Lemma roundMagnitude_mono (x y : Q) :
  0 < x -> x <= y -> roundMagnitude x <= roundMagnitude y.
Proof.
  intros Hx Hxy.
  assert (Hy : 0 < y) by Lqa.lra.
  pose proof (exponent_mono x y Hx Hxy) as He.
  assert (Hu : (ulpExponent x <= ulpExponent y)%Z)
    by (unfold ulpExponent; lia).
  destruct (Z.eq_dec (ulpExponent x) (ulpExponent y)) as [E | N].
  - unfold roundMagnitude. cbv zeta. rewrite E.
    apply Qmult_le_compat_r; [| apply Qlt_le_weak, two_pos].
    rewrite <- Zle_Qle. apply round_mono.
    apply Qmult_le_compat_r; [exact Hxy |].
    apply Qlt_le_weak, Qinv_lt_0_compat, two_pos.
  - apply Qle_trans with (2 ^ (ulpExponent x + 53)).
    + apply roundMagnitude_upper, Hx.
    + apply Qle_trans with (2 ^ (ulpExponent y + 52)).
      * apply two_le. lia.
      * apply roundMagnitude_lower; [exact Hy |].
        unfold ulpExponent in *. lia.
Qed.

Lemma roundMagnitude_error (x : Q) :
  Qabs (roundMagnitude x - x) <= (1 # 2) * 2 ^ ulpExponent x.
Proof.
  unfold roundMagnitude. cbv zeta.
  set (u := ulpExponent x).
  pose proof (round_error (x / 2 ^ u)) as H.
  assert (E : inject_Z (roundTiesToEven (x / 2 ^ u)) * 2 ^ u - x ==
              (inject_Z (roundTiesToEven (x / 2 ^ u)) - x / 2 ^ u) * 2 ^ u).
  { rewrite <- (scaled x u) at 2. ring. }
  rewrite E, Qabs_Qmult, (Qabs_pos (2 ^ u)) by apply Qlt_le_weak, two_pos.
  apply Qmult_le_compat_r; [exact H | apply Qlt_le_weak, two_pos].
Qed.

(** *** [fl] on numbers that are not negative *)

Lemma fl_pos (x : Q) : 0 < x -> fl x = roundMagnitude x.
Proof.
  intros Hx. unfold fl. apply Qgt_alt in Hx. rewrite Hx. reflexivity.
Qed.

Lemma fl_nonneg (x : Q) : 0 <= x -> 0 <= fl x.
Proof.
  intros Hx. unfold fl.
  destruct (Qcompare x 0) eqn:E.
  - apply Qle_refl.
  - apply Qlt_alt in E. exfalso. Lqa.lra.
  - apply roundMagnitude_nonneg, Hx.
Qed.

Lemma fl_neg (x : Q) : x < 0 -> fl x = - roundMagnitude (- x).
Proof.
  intros Hx. unfold fl.
  destruct (Qcompare_spec x 0) as [E | E | E];
    [exfalso; Lqa.lra | reflexivity | exfalso; Lqa.lra].
Qed.

Lemma fl_nonpos (x : Q) : x <= 0 -> fl x <= 0.
Proof.
  intros Hx. unfold fl.
  destruct (Qcompare_spec x 0) as [E | E | E].
  - apply Qle_refl.
  - pose proof (roundMagnitude_nonneg (- x)) as H.
    assert (0 <= - x) by Lqa.lra. specialize (H H0). Lqa.lra.
  - exfalso. Lqa.lra.
Qed.

(** Rounding to the nearest double is monotone. *)
Lemma fl_mono (x y : Q) : x <= y -> fl x <= fl y.
Proof.
  intros Hxy.
  destruct (Qlt_le_dec x 0) as [Hx | Hx].
  - destruct (Qlt_le_dec y 0) as [Hy | Hy].
    + rewrite (fl_neg x Hx), (fl_neg y Hy).
      assert (H : roundMagnitude (- y) <= roundMagnitude (- x))
        by (apply roundMagnitude_mono; Lqa.lra).
      Lqa.lra.
    + apply Qle_trans with 0; [apply fl_nonpos; Lqa.lra | apply fl_nonneg, Hy].
  - unfold fl at 1.
    destruct (Qcompare_spec x 0) as [E | E | E].
    + apply fl_nonneg. Lqa.lra.
    + exfalso. Lqa.lra.
    + rewrite fl_pos by Lqa.lra. apply roundMagnitude_mono; assumption.
Qed.

(** Below [2^(b+1)] a double is at most [2^(b-53)] away, half a unit in the
    last place. *)
Lemma fl_error (x : Q) (b : Z) :
  0 <= x -> x < 2 ^ (b + 1) -> (-1074 <= b - 52)%Z ->
  Qabs (fl x - x) <= 2 ^ (b - 53).
Proof.
  intros Hx Hb Hn. unfold fl.
  destruct (Qcompare x 0) eqn:E.
  - apply Qeq_alt in E. rewrite E. apply Qlt_le_weak, two_pos.
  - apply Qlt_alt in E. exfalso. Lqa.lra.
  - apply Qgt_alt in E.
    apply Qle_trans with ((1 # 2) * 2 ^ ulpExponent x);
      [apply roundMagnitude_error |].
    replace (b - 53)%Z with (-1 + (b - 52))%Z by lia.
    rewrite two_add. change (2 ^ (-1)) with (1 # 2).
    apply Qmult_le_l; [reflexivity |].
    apply two_le. pose proof (exponent_below x b E Hb).
    unfold ulpExponent. lia.
Qed.

End DoubleFacts.

(* ------------------------------------------------------------------ *)
(** ** Facts about the tone transform on doubles *)

Module ToneDoubleFacts.
Import ToneDouble.
Local Open Scope Q_scope.

Lemma double_clamp255_range (c : Q) : 0 <= clamp255 c <= 255.
Proof.
  unfold clamp255. split.
  - apply Q.le_max_l.
  - apply Q.max_lub; [discriminate | apply Q.le_min_l].
Qed.

(** The final clamp keeps every channel within 0 .. 255 on doubles too,
    whatever the engine's [Math.pow] returns. *)
Lemma double_preprocessPixel_inRange (pow : Q -> Q -> Q) (r g b : Q) (s : Tone) :
  inRange (preprocessPixel pow r g b s).
Proof.
  unfold preprocessPixel. cbv zeta.
  destruct (unlessNeutral (gamma s) (stepGamma pow s) _) as [[r' g'] b'].
  simpl. repeat split; apply double_clamp255_range.
Qed.

(** A byte is a double, and scaling it by 1.0 returns it: the brightness
    step at 1.0 is the one step whose skipping is exact on doubles. *)
Lemma brightness_neutral_on_bytes :
  forallb (fun n => Qeq_bool (Double.mul (inject_Z (Z.of_nat n)) 1)
                             (inject_Z (Z.of_nat n)))
          (seq 0 256) = true.
Proof. vm_compute. reflexivity. Qed.

End ToneDoubleFacts.

(* ------------------------------------------------------------------ *)
(** ** Facts about the tone transform *)

Module ToneFacts.
Import Settings Tone.
Local Open Scope R_scope.

Lemma clamp255_range (c : R) : 0 <= clamp255 c <= 255.
Proof.
  unfold clamp255, Rmax, Rmin.
  destruct (Rle_dec 255 c); destruct (Rle_dec 0 _); lra.
Qed.

Lemma clamp255_id (c : R) : 0 <= c <= 255 -> clamp255 c = c.
Proof.
  intros H. unfold clamp255, Rmax, Rmin.
  destruct (Rle_dec 255 c); destruct (Rle_dec 0 _); lra.
Qed.

Lemma clamp255_low (c : R) : c <= 0 -> clamp255 c = 0.
Proof.
  intros H. unfold clamp255, Rmax, Rmin.
  destruct (Rle_dec 255 c); destruct (Rle_dec 0 _); lra.
Qed.

Lemma clamp255_high (c : R) : 255 <= c -> clamp255 c = 255.
Proof.
  intros H. unfold clamp255, Rmax, Rmin.
  destruct (Rle_dec 255 c); destruct (Rle_dec 0 _); lra.
Qed.

Lemma Math_pow_zero (y : R) : Math_pow 0 y = 0.
Proof. unfold Math_pow. destruct (Rle_dec 0 0); [reflexivity | lra]. Qed.

Lemma Math_pow_pos (x y : R) : 0 < x -> Math_pow x y = Rpower x y.
Proof. intros H. unfold Math_pow. destruct (Rle_dec x 0); [lra | reflexivity]. Qed.

Lemma Math_pow_one_exp (x : R) : 0 <= x -> Math_pow x 1 = x.
Proof.
  intros [H | <-].
  - rewrite Math_pow_pos by assumption. now apply Rpower_1.
  - apply Math_pow_zero.
Qed.

Lemma Math_pow_ge_1 (x y : R) : 1 <= x -> 0 < y -> 1 <= Math_pow x y.
Proof.
  intros Hx Hy. rewrite Math_pow_pos by lra. unfold Rpower.
  rewrite <- exp_0.
  assert (Hln : 0 <= ln x).
  { rewrite <- ln_1. destruct Hx as [Hx | <-]; [ | lra].
    left. apply ln_increasing; lra. }
  assert (H0 : 0 <= y * ln x) by (apply Rmult_le_pos; lra).
  destruct H0 as [H0 | <-]; [left; now apply exp_increasing | lra].
Qed.

Lemma Math_pow_base_1 (y : R) : Math_pow 1 y = 1.
Proof.
  rewrite Math_pow_pos by lra. unfold Rpower.
  rewrite ln_1, Rmult_0_r. apply exp_0.
Qed.

(** The gamma step of the code and the gamma step of the specification
    agree once the final clamp is applied. *)
Lemma gamma_channel (c y : R) : 0 < y ->
  clamp255 (255 * Math_pow (Rmax 0 c / 255) y) =
  clamp255 (255 * Math_pow (clamp255 c / 255) y).
Proof.
  intros Hy.
  destruct (Rle_dec c 0) as [Hc | Hc].
  - rewrite (clamp255_low c Hc). rewrite Rmax_left by assumption. reflexivity.
  - destruct (Rle_dec c 255) as [Hh | Hh].
    + rewrite (clamp255_id c) by lra. rewrite Rmax_right by lra. reflexivity.
    + rewrite (clamp255_high c) by lra. rewrite Rmax_right by lra.
      replace (255 / 255) with 1 by lra. rewrite Math_pow_base_1.
      rewrite clamp255_high; [ | pose proof (Math_pow_ge_1 (c / 255) y); lra].
      rewrite clamp255_high; lra.
Qed.

(** Skipping the gamma step at gamma = 1 is applying it, after the final
    clamp. *)
Lemma gamma_channel_neutral (c : R) :
  clamp255 c = clamp255 (255 * Math_pow (clamp255 c / 255) (1 / 1)).
Proof.
  replace (1 / 1) with 1 by lra.
  pose proof (clamp255_range c) as H.
  rewrite Math_pow_one_exp by lra.
  replace (255 * (clamp255 c / 255)) with (clamp255 c) by lra.
  symmetry. now apply clamp255_id.
Qed.

Lemma finalClamp_inRange (p : Pixel) : inRange (finalClamp p).
Proof.
  destruct p as [[r g] b]. simpl.
  repeat split; apply clamp255_range.
Qed.

Lemma preprocessPixel_inRange (r g b : R) (s : t) :
  inRange (preprocessPixel r g b s).
Proof. unfold preprocessPixel. apply finalClamp_inRange. Qed.

Lemma luma_range (p : Pixel) : inRange p -> 0 <= luma p <= 255.
Proof. destruct p as [[r g] b]. simpl. lra. Qed.

Lemma stepBrightness_neutral (s : t) (p : Pixel) :
  brightness s = 1 -> stepBrightness s p = p.
Proof.
  intros H. destruct p as [[r g] b]. unfold stepBrightness. rewrite H.
  f_equal; [f_equal | ]; lra.
Qed.

Lemma stepContrast_neutral (s : t) (p : Pixel) :
  contrast s = 1 -> stepContrast s p = p.
Proof.
  intros H. destruct p as [[r g] b]. unfold stepContrast. rewrite H.
  f_equal; [f_equal | ]; lra.
Qed.

Lemma stepSaturation_neutral (s : t) (p : Pixel) :
  saturation s = 1 -> stepSaturation s p = p.
Proof.
  intros H. destruct p as [[r g] b]. unfold stepSaturation. rewrite H.
  f_equal; [f_equal | ]; lra.
Qed.

(** *** The wording of the specification against the code *)

Lemma spec_clamp_is_clamp255 (c : R) : spec_clamp c = clamp255 c.
Proof.
  unfold spec_clamp, clamp255, Rmax, Rmin.
  destruct (Rlt_dec c 0); destruct (Rlt_dec 255 c); destruct (Rle_dec 255 c);
    destruct (Rle_dec 0 _); lra.
Qed.

Lemma spec_power_is_Math_pow (x y : R) : 0 <= x ->
  spec_power x y = Math_pow x y.
Proof.
  intros H. unfold spec_power, Math_pow, Rpower.
  destruct (Req_dec_T x 0); destruct (Rle_dec x 0); try reflexivity; lra.
Qed.

Lemma spec_gamma_is_clamped_gamma (k c : R) :
  spec_gamma k c = 255 * Math_pow (clamp255 c / 255) (1 / k).
Proof.
  unfold spec_gamma. rewrite spec_clamp_is_clamp255.
  rewrite spec_power_is_Math_pow; [reflexivity | ].
  pose proof (clamp255_range c). lra.
Qed.

(** Each conditional step of the code computes the formula of the
    specification, whether it is skipped or applied. *)
Lemma brightness_as_specified (s : t) (r g b : R) :
  unlessNeutral (brightness s) (stepBrightness s) (r, g, b) =
  (spec_brightness (brightness s) r, spec_brightness (brightness s) g,
   spec_brightness (brightness s) b).
Proof.
  unfold unlessNeutral, stepBrightness, spec_brightness.
  destruct (Req_dec_T (brightness s) 1) as [E | E];
    [rewrite E | ]; f_equal; [f_equal | | f_equal | ]; lra.
Qed.

Lemma contrast_as_specified (s : t) (r g b : R) :
  unlessNeutral (contrast s) (stepContrast s) (r, g, b) =
  (spec_contrast (contrast s) r, spec_contrast (contrast s) g,
   spec_contrast (contrast s) b).
Proof.
  unfold unlessNeutral, stepContrast, spec_contrast.
  destruct (Req_dec_T (contrast s) 1) as [E | E];
    [rewrite E | ]; f_equal; [f_equal | | f_equal | ]; lra.
Qed.

Lemma saturation_as_specified (s : t) (r g b : R) :
  unlessNeutral (saturation s) (stepSaturation s) (r, g, b) =
  (spec_saturation (saturation s) (spec_luma r g b) r,
   spec_saturation (saturation s) (spec_luma r g b) g,
   spec_saturation (saturation s) (spec_luma r g b) b).
Proof.
  unfold unlessNeutral, stepSaturation, spec_saturation, spec_luma.
  destruct (Req_dec_T (saturation s) 1) as [E | E];
    [rewrite E | ]; f_equal; [f_equal | | f_equal | ]; lra.
Qed.

Lemma gamma_as_specified (s : t) (r g b : R) : 0 < gamma s ->
  finalClamp (unlessNeutral (gamma s) (stepGamma s) (r, g, b)) =
  (spec_clamp (spec_gamma (gamma s) r), spec_clamp (spec_gamma (gamma s) g),
   spec_clamp (spec_gamma (gamma s) b)).
Proof.
  intros Hg. rewrite !spec_clamp_is_clamp255, !spec_gamma_is_clamped_gamma.
  unfold unlessNeutral.
  destruct (Req_dec_T (gamma s) 1) as [E | E]; unfold stepGamma, finalClamp.
  - rewrite E. rewrite <- !gamma_channel_neutral. reflexivity.
  - assert (Hy : 0 < 1 / gamma s) by (apply Rdiv_lt_0_compat; lra).
    rewrite !(gamma_channel _ _ Hy). reflexivity.
Qed.

End ToneFacts.

(* ------------------------------------------------------------------ *)
(** ** Facts about the glyph index *)

Module GlyphFacts.
Import Settings GlyphMapper.

Lemma densityOf_nonempty (s : t) : 1 <= List.length (densityOf s).
Proof.
  unfold densityOf, DENSITY_SETS.
  repeat match goal with
         | |- context [String.eqb ?a ?b] => destruct (String.eqb a b)
         end; vm_compute; lia.
Qed.

Lemma densityOf_with_invert (i : bool) (s : t) :
  densityOf (with_invert i s) = densityOf s.
Proof. reflexivity. Qed.

Lemma preprocessPixel_with_invert (i : bool) (s : t) (r g b : R) :
  Tone.preprocessPixel r g b (with_invert i s) = Tone.preprocessPixel r g b s.
Proof. reflexivity. Qed.

(** The final clamp commutes with mirroring the index. *)
Lemma clamp_mirror (len c : Z) : (1 <= len)%Z ->
  Z.max 0 (Z.min (len - 1) (len - 1 - c)) =
  (len - 1 - Z.max 0 (Z.min (len - 1) c))%Z.
Proof. lia. Qed.

Lemma charIndex_range (s : t) (avg : R) :
  (0 <= charIndex s avg <= Z.of_nat (List.length (densityOf s)) - 1)%Z.
Proof.
  pose proof (densityOf_nonempty s). unfold charIndex. cbv zeta. lia.
Qed.


End GlyphFacts.

(* ------------------------------------------------------------------ *)
(** ** Properties of the pixel pipeline *)

Module PixelClaims.
Import Settings Tone GlyphMapper ToneFacts GlyphFacts.

(** C4. For every density set (known key or the fallback), every pixel and
    every positive tone setting, the glyph index drawn with [invert] set is
    [densityLen - 1] minus the index drawn with [invert] unset, and both
    indices lie in [0, densityLen - 1]. *)
Theorem invert_mirrors_glyph_index (s : t) (r g b : R) :
  positiveTone s ->
  let len := Z.of_nat (List.length (densityOf s)) in
  glyphIndex (with_invert true s) r g b =
    (len - 1 - glyphIndex (with_invert false s) r g b)%Z /\
  (0 <= glyphIndex (with_invert false s) r g b <= len - 1)%Z /\
  (0 <= glyphIndex (with_invert true s) r g b <= len - 1)%Z.
Proof.
  intros _ len.
  pose proof (densityOf_nonempty s) as Hlen.
  assert (Hf := charIndex_range (with_invert false s)
                  (luma (preprocessPixel r g b s))).
  assert (Ht := charIndex_range (with_invert true s)
                  (luma (preprocessPixel r g b s))).
  rewrite densityOf_with_invert in Hf, Ht.
  unfold glyphIndex. rewrite !preprocessPixel_with_invert.
  split; [ | split; assumption].
  unfold charIndex. rewrite !densityOf_with_invert. simpl invert. cbv zeta.
  apply clamp_mirror. subst len. lia.
Qed.

Lemma invert_mirrors_glyph_index_witness :
  positiveTone DEFAULT_SETTINGS /\
  glyphIndex (with_invert true DEFAULT_SETTINGS) 255 255 255 =
    (Z.of_nat (List.length (densityOf DEFAULT_SETTINGS)) - 1 -
     glyphIndex (with_invert false DEFAULT_SETTINGS) 255 255 255)%Z.
Proof.
  assert (H : positiveTone DEFAULT_SETTINGS).
  { unfold positiveTone, DEFAULT_SETTINGS; simpl. lra. }
  split; [exact H | ].
  exact (proj1 (invert_mirrors_glyph_index DEFAULT_SETTINGS 255 255 255 H)).
Defined.

(** C5, as stated, fails on the doubles of the code.  With the default tone
    (brightness 1.1, contrast 1.4, saturation 1.0, gamma 1.0) and the pixel
    (0, 0, 50), the code skips the saturation step and returns the blue
    channel 25.80000000000001; applying the saturation step at 1.0 to the
    same intermediate pixel gives 25.800000000000004. *)
Lemma skipped_saturation_differs_on_doubles :
  let s := ToneDouble.DEFAULT_TONE in
  let contrasted :=
    ToneDouble.stepContrast s (ToneDouble.stepBrightness s (0, 0, 50)%Q) in
  let skipped := ToneDouble.preprocessPixel ToneDouble.unusedPow 0 0 50 s in
  let applied := ToneDouble.finalClamp (ToneDouble.stepSaturation s contrasted) in
  ToneDouble.saturation s = 1%Q /\ ToneDouble.gamma s = 1%Q /\
  skipped = ToneDouble.finalClamp contrasted /\
  ToneDouble.reduced skipped =
    (0, 0, 453878399945933 # 17592186044416)%Q /\
  ToneDouble.reduced applied =
    (0, 0, 3631027199567463 # 140737488355328)%Q /\
  ~ (ToneDouble.blue skipped == ToneDouble.blue applied)%Q.
Proof.
  cbv zeta. repeat split; try (vm_compute; reflexivity).
  vm_compute. discriminate.
Qed.

(** C5, amended.  For every channel triple in [0,255] and every positive
    tone setting, every output channel of [preprocessPixel] lies in [0,255],
    and over exact real arithmetic [preprocessPixel] (which skips a step
    whose parameter is 1.0) computes what the unconditional pipeline of the
    specification computes: brightness scaling, contrast around 128,
    saturation blend toward the 0.2126/0.7152/0.0722 luma, gamma as
    255 * (clamp(c,0,255)/255)^(1/gamma), final clamp, in this order.  The
    equality is one of exact arithmetic: on doubles a skipped step and an
    applied one can differ in the last bits. *)
Theorem preprocessPixel_is_spec_pipeline (r g b : R) (s : t) :
  inRange (r, g, b) ->
  positiveTone s ->
  preprocessPixel r g b s = spec_adjust r g b s /\
  inRange (preprocessPixel r g b s).
Proof.
  intros _ (_ & _ & _ & Hg).
  split; [ | apply preprocessPixel_inRange].
  unfold preprocessPixel, spec_adjust. cbv zeta.
  rewrite brightness_as_specified, contrast_as_specified,
    saturation_as_specified.
  apply gamma_as_specified, Hg.
Qed.

Lemma preprocessPixel_is_spec_pipeline_witness :
  inRange (200, 10, 255)%R /\ positiveTone DEFAULT_SETTINGS /\
  preprocessPixel 200 10 255 DEFAULT_SETTINGS =
    spec_adjust 200 10 255 DEFAULT_SETTINGS.
Proof.
  assert (Hp : inRange (200, 10, 255)%R) by (simpl; lra).
  assert (Hs : positiveTone DEFAULT_SETTINGS).
  { unfold positiveTone, DEFAULT_SETTINGS; simpl. lra. }
  split; [exact Hp | split; [exact Hs | ]].
  exact (proj1 (preprocessPixel_is_spec_pipeline 200 10 255 DEFAULT_SETTINGS Hp Hs)).
Defined.

(** C6. With brightness, contrast, saturation and gamma all at 1.0,
    [preprocessPixel] returns a channel triple of [0,255] unchanged. *)
Theorem preprocessPixel_neutral_identity (r g b : R) (s : t) :
  inRange (r, g, b) ->
  neutralTone s ->
  preprocessPixel r g b s = (r, g, b).
Proof.
  intros (Hr & Hg & Hb) (Eb & Ec & Es & Eg).
  unfold preprocessPixel, unlessNeutral. cbv zeta.
  rewrite Eb, Ec, Es, Eg.
  destruct (Req_dec_T 1 1) as [_ | N]; [ | now contradiction N].
  unfold finalClamp. rewrite !clamp255_id by assumption. reflexivity.
Qed.

Lemma preprocessPixel_neutral_identity_witness :
  preprocessPixel 12 255 0 neutralSettings = (12, 255, 0)%R.
Proof.
  apply preprocessPixel_neutral_identity.
  - simpl; lra.
  - unfold neutralTone, neutralSettings; simpl; repeat split; reflexivity.
Defined.

End PixelClaims.

(* ------------------------------------------------------------------ *)
(** ** Facts about the grid *)

Module GridFacts.
Import Settings Grid Canvas.
Local Open Scope Z_scope.

Lemma upto_pos (n : Z) : 1 <= n -> exists l, upto n = 0 :: l.
Proof.
  intros H. unfold upto.
  destruct (Z.to_nat n) as [ | k] eqn:E; [lia | ].
  simpl. eauto.
Qed.



Lemma drawAsciiFrame_clears_first (source : Sampler) (width height : Z) (s : t) :
  1 <= gridCount width (fontSize s) -> 1 <= gridCount height (fontSize s) ->
  exists ops,
    drawAsciiFrame source width height s =
    FillRect (Css (backgroundColor s)) 0 0 width height :: ops.
Proof.
  intros Hc Hr. unfold drawAsciiFrame. cbv zeta.
  replace (gridCount width (fontSize s) <=? 0) with false
    by (symmetry; apply Z.leb_gt; lia).
  replace (gridCount height (fontSize s) <=? 0) with false
    by (symmetry; apply Z.leb_gt; lia).
  simpl. eauto.
Qed.

Lemma getAsciiString_nonempty (source : Sampler) (width height : Z) (s : t) :
  1 <= gridCount width (fontSize s) -> 1 <= gridCount height (fontSize s) ->
  getAsciiString source width height s <> [].
Proof.
  intros Hc Hr. unfold getAsciiString. cbv zeta.
  replace (gridCount width (fontSize s) <=? 0) with false
    by (symmetry; apply Z.leb_gt; lia).
  replace (gridCount height (fontSize s) <=? 0) with false
    by (symmetry; apply Z.leb_gt; lia).
  simpl. destruct (upto_pos _ Hr) as [l ->]. simpl.
  intros E. apply app_eq_nil in E. destruct E as [E _].
  apply app_eq_nil in E. destruct E as [_ E]. discriminate E.
Qed.

(** A count clamped to at least one, times the cell, holds that many
    cells. *)
Lemma gridCount_clamped (extent charSize : Z) : 0 < charSize ->
  gridCount (Z.max 1 (gridCount extent charSize) * charSize) charSize =
  Z.max 1 (gridCount extent charSize).
Proof. intros H. unfold gridCount. apply Z.div_mul. lia. Qed.

Lemma gridCount_snapped (extent charSize : Z) : 0 < charSize ->
  gridCount (gridCount extent charSize * charSize) charSize =
  gridCount extent charSize.
Proof. intros H. unfold gridCount. apply Z.div_mul. lia. Qed.

Lemma renderFrame_draws (source : Sampler) (width height : Z) (s : t) :
  0 < fontSize s -> width <> 0 -> height <> 0 ->
  exists renderWidth renderHeight ops,
    renderFrame source true true width height s =
      Rendered renderWidth renderHeight ops /\ ops <> [].
Proof.
  intros Hs Hw Hh. unfold renderFrame.
  apply Z.eqb_neq in Hw, Hh. rewrite Hw, Hh. simpl. cbv zeta.
  destruct (drawAsciiFrame_clears_first source
              (Z.max 1 (gridCount width (fontSize s)) * fontSize s)
              (Z.max 1 (gridCount height (fontSize s)) * fontSize s) s)
    as [ops E].
  - rewrite gridCount_clamped by assumption. lia.
  - rewrite gridCount_clamped by assumption. lia.
  - do 3 eexists. split; [reflexivity | ]. rewrite E. discriminate.
Qed.

Lemma copyText_nonempty (source : Sampler) (w h : Z) (s : t) :
  0 < fontSize s -> copyText source w h s <> [].
Proof.
  intros Hs. unfold copyText. cbv zeta.
  apply getAsciiString_nonempty; rewrite gridCount_clamped by assumption; lia.
Qed.



Lemma in_upto (n x : Z) : In x (upto n) <-> 0 <= x < n.
Proof.
  unfold upto. rewrite in_map_iff. split.
  - intros (k & <- & Hk). apply in_seq in Hk. lia.
  - intros H. exists (Z.to_nat x). split; [lia | ]. apply in_seq. lia.
Qed.




Lemma drawCell_is_text source cols rows s y x :
  exists c st, drawCell source cols rows s y x =
               FillText c st (x * fontSize s) (y * fontSize s).
Proof.
  unfold drawCell. destruct (cellTone source cols rows s x y) as [p avg].
  eauto.
Qed.








(** Taking off the remainder by two leaves an even number. *)
Lemma minus_rem2_even (x : Z) : Z.even (x - Z.rem x 2) = true.
Proof.
  assert (H : exists q, x - Z.rem x 2 = 2 * q).
  { exists (Z.quot x 2). pose proof (Z.quot_rem' x 2). lia. }
  destruct H as [q ->]. apply Z.even_mul; simpl; auto.
Qed.

Lemma rem2_nonneg (x : Z) : 0 <= x ->
  Z.rem x 2 = if Z.odd x then 1 else 0.
Proof.
  intros H. rewrite Z.rem_mod_nonneg by lia.
  rewrite Zmod_odd. reflexivity.
Qed.

End GridFacts.

(* ------------------------------------------------------------------ *)
(** ** Properties of the grid and of the output geometry *)

Module GridClaims.
Import Settings Grid GridFacts Canvas.
Local Open Scope Z_scope.




(** C8. For every source size and positive cell size, the surface of the HQ
    export is the grid-snapped size with one taken off each odd extent, so
    its width and height are even; in particular when the snapped extent is
    an odd multiple of the cell size. *)
Theorem hqSurface_even (videoWidth videoHeight charSize : Z) :
  0 < charSize -> 0 <= videoWidth -> 0 <= videoHeight ->
  let snapW := gridCount videoWidth charSize * charSize in
  let snapH := gridCount videoHeight charSize * charSize in
  hqSurface videoWidth videoHeight charSize =
    (snapW - (if Z.odd snapW then 1 else 0),
     snapH - (if Z.odd snapH then 1 else 0)) /\
  Z.even (fst (hqSurface videoWidth videoHeight charSize)) = true /\
  Z.even (snd (hqSurface videoWidth videoHeight charSize)) = true.
Proof.
  intros Hc Hw Hh snapW snapH.
  assert (HW : 0 <= snapW).
  { subst snapW. unfold gridCount. apply Z.mul_nonneg_nonneg; [ | lia].
    apply Z.div_pos; lia. }
  assert (HH : 0 <= snapH).
  { subst snapH. unfold gridCount. apply Z.mul_nonneg_nonneg; [ | lia].
    apply Z.div_pos; lia. }
  unfold hqSurface. cbv zeta. fold snapW snapH.
  repeat split.
  - rewrite !rem2_nonneg by assumption. reflexivity.
  - apply minus_rem2_even.
  - apply minus_rem2_even.
Qed.

Lemma hqSurface_even_witness :
  hqSurface 27 45 9 = (26, 44).
Proof.
  exact (proj1 (hqSurface_even 27 45 9 ltac:(lia) ltac:(lia) ltac:(lia))).
Defined.

End GridClaims.

(* ------------------------------------------------------------------ *)
(** ** Facts about the progress percentage *)

Module ProgressFacts.
Import Double DoubleFacts Exporter.
Local Open Scope Z_scope.

Lemma fraction_range (total : Z) (i : nat) : Z.of_nat i < total ->
  (0 <= inject_Z (Z.of_nat i) / inject_Z total /\
   inject_Z (Z.of_nat i) / inject_Z total < 1)%Q.
Proof.
  intros H.
  assert (Ht : (0 < inject_Z total)%Q).
  { change 0%Q with (inject_Z 0). rewrite <- Zlt_Qlt. lia. }
  split.
  - apply Qle_shift_div_l; [exact Ht |]. rewrite Qmult_0_l.
    change 0%Q with (inject_Z 0). rewrite <- Zle_Qle. lia.
  - apply Qlt_shift_div_r; [exact Ht |]. rewrite Qmult_1_l.
    rewrite <- Zlt_Qlt. exact H.
Qed.

Lemma fraction_mono (total : Z) (i j : nat) : 0 < total -> (i <= j)%nat ->
  (inject_Z (Z.of_nat i) / inject_Z total <=
   inject_Z (Z.of_nat j) / inject_Z total)%Q.
Proof.
  intros Ht Hij.
  apply Qmult_le_compat_r.
  - rewrite <- Zle_Qle. lia.
  - apply Qlt_le_weak, Qinv_lt_0_compat.
    change 0%Q with (inject_Z 0). rewrite <- Zlt_Qlt. exact Ht.
Qed.

Lemma fraction_nonneg (total : Z) (i : nat) : 0 < total ->
  (0 <= inject_Z (Z.of_nat i) / inject_Z total)%Q.
Proof.
  intros Ht. apply Qle_shift_div_l.
  - change 0%Q with (inject_Z 0). rewrite <- Zlt_Qlt. exact Ht.
  - rewrite Qmult_0_l. change 0%Q with (inject_Z 0). rewrite <- Zle_Qle. lia.
Qed.

Lemma Math_round_mono (x y : Q) : (x <= y)%Q -> Math_round x <= Math_round y.
Proof.
  intros H. unfold Math_round. apply Qfloor_resp_le.
  apply Qplus_le_compat; [exact H | apply Qle_refl].
Qed.

Lemma progressAt_mono (total : Z) (i j : nat) : 0 < total -> (i <= j)%nat ->
  progressAt total i <= progressAt total j.
Proof.
  intros Ht Hij. unfold progressAt, mul, div.
  apply Math_round_mono.
  pose proof (fraction_nonneg total i Ht) as H0.
  pose proof (fraction_mono total i j Ht Hij) as Hm.
  pose proof (fl_nonneg _ H0) as Hf0.
  pose proof (fl_mono _ _ Hm) as Hfm.
  apply fl_mono.
  apply Qmult_le_compat_r; [exact Hfm | discriminate].
Qed.

(** The double the loop rounds: within a thousandth of [100 * i / total]. *)
Lemma scaled_fraction_close (x : Q) : (0 <= x)%Q -> (x < 1)%Q ->
  (0 <= mul (fl x) 100 <= 100 /\
   Qabs (mul (fl x) 100 - 100 * x) <= 1 # 1000)%Q.
Proof.
  intros H0 H1. unfold mul.
  pose proof (fl_nonneg x H0) as Hf0.
  assert (Hf1 : (fl x <= 1)%Q).
  { apply Qle_trans with (fl 1); [apply fl_mono; Lqa.lra |].
    vm_compute. discriminate. }
  assert (He1 : (Qabs (fl x - x) <= 2 ^ (0 - 53))%Q).
  { apply fl_error; [exact H0 | | lia].
    apply Qlt_trans with 1%Q; [exact H1 | reflexivity]. }
  assert (Hy0 : (0 <= fl x * 100)%Q) by Lqa.lra.
  assert (Hy1 : (fl x * 100 <= 100)%Q) by Lqa.lra.
  assert (He2 : (Qabs (fl (fl x * 100) - fl x * 100) <= 2 ^ (6 - 53))%Q).
  { apply fl_error; [exact Hy0 | | lia].
    apply Qle_lt_trans with 100%Q; [exact Hy1 | reflexivity]. }
  assert (Hp1 : (2 ^ (0 - 53) <= 1 # 1000000)%Q) by (vm_compute; discriminate).
  assert (Hp2 : (2 ^ (6 - 53) <= 1 # 1000000)%Q) by (vm_compute; discriminate).
  apply Qabs_Qle_condition in He1. apply Qabs_Qle_condition in He2.
  split; [split |].
  - apply fl_nonneg, Hy0.
  - apply Qle_trans with (fl 100); [apply fl_mono; assumption |].
    vm_compute. discriminate.
  - apply Qabs_Qle_condition. split; Lqa.lra.
Qed.

Lemma progressAt_bounds (total : Z) (i : nat) : Z.of_nat i < total ->
  let x := (inject_Z (Z.of_nat i) / inject_Z total)%Q in
  (100 * x - (501 # 1000) < inject_Z (progressAt total i) /\
   inject_Z (progressAt total i) <= 100 * x + (501 # 1000))%Q /\
  0 <= progressAt total i <= 100.
Proof.
  intros H x.
  destruct (fraction_range total i H) as [H0 H1]. fold x in H0, H1.
  destruct (scaled_fraction_close x H0 H1) as [[Hv0 Hv1] Hc].
  unfold progressAt, Math_round, div. fold x.
  set (v := mul (fl x) 100) in *.
  pose proof (Qfloor_le (v + (1 # 2))) as Hlo.
  pose proof (Qlt_floor (v + (1 # 2))) as Hhi.
  rewrite inject_Z_plus in Hhi. change (inject_Z 1) with 1%Q in Hhi.
  apply Qabs_Qle_condition in Hc.
  split; [split; Lqa.lra |].
  split.
  - assert (Hz : (inject_Z 0 <= v + (1 # 2))%Q)
      by (change (inject_Z 0) with 0%Q; Lqa.lra).
    apply Qfloor_resp_le in Hz. rewrite Qfloor_Z in Hz. exact Hz.
  - assert (Hz : (v + (1 # 2) <= (201 # 2))%Q) by Lqa.lra.
    apply Qfloor_resp_le in Hz. exact Hz.
Qed.

Lemma progressAt_range (total : Z) (i : nat) : Z.of_nat i < total ->
  0 <= progressAt total i <= 100.
Proof. intros H. apply (progressAt_bounds total i H). Qed.




End ProgressFacts.

(* ------------------------------------------------------------------ *)
(** ** Facts about the exporters *)

Module ExporterFacts.
Import Exporter ProgressFacts.
Local Open Scope Z_scope.

Create HintDb jobs.

Lemma neverThrows_ret {A} (a : A) : neverThrows (ret a).
Proof. intros w. do 3 eexists. reflexivity. Qed.

Lemma neverThrows_emit (e : Event) : neverThrows (emit e).
Proof. intros w. do 3 eexists. reflexivity. Qed.

Lemma neverThrows_modify (f : World -> World) : neverThrows (modify f).
Proof. intros w. do 3 eexists. reflexivity. Qed.

Lemma neverThrows_bind {A B} (m : M A) (k : A -> M B) :
  neverThrows m -> (forall a, neverThrows (k a)) -> neverThrows (bind m k).
Proof.
  intros Hm Hk w. unfold bind.
  destruct (Hm w) as (a & w1 & t1 & ->).
  destruct (Hk a w1) as (b & w2 & t2 & ->).
  do 3 eexists. reflexivity.
Qed.

Lemma neverThrows_when (b : bool) (m : M unit) :
  neverThrows m -> neverThrows (when b m).
Proof. intros H. destruct b; [exact H | apply neverThrows_ret]. Qed.

Lemma neverThrows_mayThrow_false : neverThrows (mayThrow false).
Proof. apply neverThrows_ret. Qed.

#[export] Hint Resolve neverThrows_ret neverThrows_emit neverThrows_modify
  neverThrows_when neverThrows_mayThrow_false : jobs.

Ltac no_throw :=
  repeat first
    [ apply neverThrows_bind; [ | intros ? ]
    | solve [ auto with jobs ] ].

Lemma neverThrows_setIsPlaying b : neverThrows (setIsPlaying b).
Proof. apply neverThrows_modify. Qed.
Lemma neverThrows_pause : neverThrows pause.
Proof. apply neverThrows_modify. Qed.
Lemma neverThrows_setMuted b : neverThrows (setMuted b).
Proof. apply neverThrows_modify. Qed.
Lemma neverThrows_setRecordingState s : neverThrows (setRecordingState s).
Proof. apply neverThrows_modify. Qed.
Lemma neverThrows_setRenderStatus s : neverThrows (setRenderStatus s).
Proof. apply neverThrows_modify. Qed.
Lemma neverThrows_setCanvasSize d : neverThrows (setCanvasSize d).
Proof. apply neverThrows_modify. Qed.
Lemma neverThrows_setRenderProgress p : neverThrows (setRenderProgress p).
Proof. unfold setRenderProgress. no_throw. Qed.
Lemma neverThrows_setCurrentTime t : neverThrows (setCurrentTime t).
Proof. unfold setCurrentTime. no_throw. Qed.

#[export] Hint Resolve neverThrows_setIsPlaying neverThrows_pause
  neverThrows_setMuted neverThrows_setRecordingState
  neverThrows_setRenderStatus neverThrows_setCanvasSize
  neverThrows_setRenderProgress neverThrows_setCurrentTime : jobs.

Lemma neverThrows_extractAudio env withAudio :
  neverThrows (extractAudio env withAudio).
Proof.
  unfold extractAudio.
  destruct (withAudio && sourceHasUrl env)%bool; [ | auto with jobs].
  destruct (audioOutcome env); no_throw.
Qed.

#[export] Hint Resolve neverThrows_extractAudio : jobs.

Lemma endsClean_bind {A} env (m : M A) (k : A -> M unit) :
  neverThrows m -> (forall a, endsClean env (k a)) -> endsClean env (bind m k).
Proof.
  intros Hm Hk w. unfold bind.
  destruct (Hm w) as (a & w1 & t1 & ->).
  specialize (Hk a w1). destruct (k a w1) as [[r w2] t2]. exact Hk.
Qed.

Lemma cleanup_run env w :
  cleanup env w =
  (Ok tt,
   mkWorld 0 (isMuted env) (paused w) (isPlaying w) idle None "" (canvasSize w),
   [SetProgress None; Seek 0]).
Proof. reflexivity. Qed.

(** Whatever the body and the handler do, the [finally] block has the last
    word. *)
Lemma endsClean_tryCatchFinally env (body handler : M unit) :
  endsClean env (tryCatchFinally body handler (cleanup env)).
Proof.
  intros w. unfold tryCatchFinally.
  destruct (body w) as [[r1 w1] t1].
  destruct r1 as [u | ].
  - rewrite cleanup_run. cbn. auto.
  - destruct (handler w1) as [[r2 w2] t2].
    rewrite cleanup_run. cbn. auto.
Qed.

Ltac ends_clean :=
  repeat (apply endsClean_bind; [ solve [ auto with jobs ] | intros ? ]).

Lemma startGifExport_endsClean env :
  refsReady env = true -> contextsReady env = true ->
  endsClean env (startGifExport env).
Proof.
  intros Hr Hc. unfold startGifExport. rewrite Hr, Hc. simpl negb. cbv iota.
  ends_clean.
  destruct (Grid.gifSurface (videoWidth env) (videoHeight env) (charSize env))
    as [width height].
  ends_clean. apply endsClean_tryCatchFinally.
Qed.

Lemma hqGuards env withAudio : hqReachesTry env withAudio ->
  negb (sourceIsVideo env && refsReady env) = false /\
  (negb (hasVideoEncoder env) || (withAudio && negb (hasAudioEncoder env)))%bool
    = false /\
  negb (contextsReady env) = false /\
  faultIs env AtStart = false /\ faultIs env AtConfigure = false.
Proof.
  intros (H1 & H2 & H3 & H4 & H5 & H6 & H7).
  rewrite H1, H2, H3, H4. simpl.
  repeat split.
  - destruct withAudio; [rewrite H5 by reflexivity | ]; reflexivity.
  - unfold faultIs. destruct (fault env); congruence.
  - unfold faultIs. destruct (fault env); congruence.
Qed.

Lemma startOfflineRender_endsClean env withAudio :
  hqReachesTry env withAudio ->
  endsClean env (startOfflineRender env withAudio).
Proof.
  intros H. destruct (hqGuards env withAudio H) as (G1 & G2 & G3 & G4 & G5).
  unfold startOfflineRender. rewrite G1, G2, G3, G4, G5.
  ends_clean.
  match goal with
  | a : (option AudioBuffer * bool)%type |- _ =>
      destruct a as [audioBuffer audioCtx]
  end.
  ends_clean.
  destruct (Grid.hqSurface (videoWidth env) (videoHeight env) (charSize env))
    as [renderWidth renderHeight].
  ends_clean. apply endsClean_tryCatchFinally.
Qed.

Lemma events_bind {A B} (m : M A) (k : A -> M B) w :
  events (bind m k w) =
  events (m w) ++
  match outcome (m w) with
  | Ok a => events (k a (finalWorld (m w)))
  | Throw => []
  end.
Proof.
  unfold bind, events, outcome, finalWorld.
  destruct (m w) as [[r w1] t1]. destruct r as [a | ]; cbn.
  - destruct (k a w1) as [[r2 w2] t2]. reflexivity.
  - now rewrite app_nil_r.
Qed.

Lemma outcome_bind {A B} (m : M A) (k : A -> M B) w :
  outcome (bind m k w) =
  match outcome (m w) with
  | Ok a => outcome (k a (finalWorld (m w)))
  | Throw => Throw
  end.
Proof.
  unfold bind, events, outcome, finalWorld.
  destruct (m w) as [[r w1] t1]. destruct r as [a | ]; cbn.
  - destruct (k a w1) as [[r2 w2] t2]. reflexivity.
  - reflexivity.
Qed.


Lemma progressValues_app t1 t2 :
  progressValues (t1 ++ t2) = progressValues t1 ++ progressValues t2.
Proof.
  induction t1 as [ | e t1 IH]; [reflexivity | ].
  destruct e as [ [p | ] | | | | | | | | | | | | | | ]; simpl; now rewrite ?IH.
Qed.


Lemma framesEncoded_app t1 t2 :
  framesEncoded (t1 ++ t2) = (framesEncoded t1 + framesEncoded t2)%nat.
Proof.
  induction t1 as [ | e t1 IH]; [reflexivity | ].
  destruct e; simpl; now rewrite ?IH.
Qed.


Lemma nondecreasing_progress (total : Z) : 0 < total -> forall k start,
  nondecreasing (map (progressAt total) (seq start k)).
Proof.
  intros H. induction k as [ | k IH]; intros start; [exact I | ].
  cbn [seq map nondecreasing]. split; [ | apply IH].
  destruct k; [exact I | ]. cbn [seq map]. apply progressAt_mono; lia.
Qed.

Lemma frameEvents_exclude (t : list Event) (e : Event) :
  Forall (fun e' => isFrameEvent e' = true) t -> isFrameEvent e = false ->
  ~ In e t.
Proof.
  intros Ht He Hin. rewrite Forall_forall in Ht.
  specialize (Ht e Hin). congruence.
Qed.

Lemma hqFrame_run env W H total i w :
  throwsAtFrame env i = false ->
  let x := hqFrame env W H total i w in
  outcome x = Ok tt /\ framesEncoded (events x) = 1%nat /\
  Forall (fun e => isFrameEvent e = true) (events x).
Proof.
  intros Hf. unfold hqFrame, hqSeek, bind. rewrite Hf. cbn.
  repeat split. repeat constructor.
Qed.

Lemma hq_loop env W H total :
  (forall i, throwsAtFrame env i = false) ->
  forall n start w,
    let x := forEach (seq start n) (hqFrame env W H total) w in
    outcome x = Ok tt /\ framesEncoded (events x) = n /\
    Forall (fun e => isFrameEvent e = true) (events x).
Proof.
  intros Hf. induction n as [ | n IH]; intros start w.
  - repeat split. constructor.
  - cbn [seq forEach]. cbv zeta.
    destruct (hqFrame_run env W H total start w (Hf start)) as (Ho & He & Ha).
    destruct (IH (S start) (finalWorld (hqFrame env W H total start w)))
      as (Ho' & He' & Ha').
    rewrite events_bind, outcome_bind, Ho, framesEncoded_app, He, He'.
    repeat split; [exact Ho' | ].
    apply Forall_app. split; assumption.
Qed.

Lemma noFault_frames env : fault env = NoFault ->
  forall i, throwsAtFrame env i = false.
Proof. intros H i. unfold throwsAtFrame. now rewrite H. Qed.

Lemma noFault_faultIs env f : fault env = NoFault -> faultIs env f = false.
Proof. intros H. unfold faultIs. now rewrite H. Qed.

(** *** Seeking *)

Lemma awaitSeeked_bound (after : option N) : (awaitSeeked after <= 500)%N.
Proof.
  unfold awaitSeeked. destruct after as [d | ]; [ | lia].
  destruct (d <? 500)%N eqn:E; [apply N.ltb_lt in E | ]; lia.
Qed.

Lemma awaitSeeked_event (d : N) : (d < 500)%N -> awaitSeeked (Some d) = d.
Proof. intros H. unfold awaitSeeked. apply N.ltb_lt in H. now rewrite H. Qed.

Lemma awaitSeeked_stalled : awaitSeeked None = 500%N.
Proof. reflexivity. Qed.

Lemma seekTo_near env i time w :
  (Qabs (currentTime w - time) < 1 # 100)%Q ->
  seekTo env i time w = (Ok tt, w, []).
Proof.
  intros H. unfold seekTo.
  destruct (Qlt_le_dec _ _) as [_ | Hle]; [reflexivity | ].
  exfalso. exact (Qlt_not_le _ _ H Hle).
Qed.

Lemma seekTo_far env i time w :
  (1 # 100 <= Qabs (currentTime w - time))%Q ->
  seekTo env i time w =
  (Ok tt, withCurrentTime time w,
   [Seek time; Waited (awaitSeeked (seekedAfter env i))]).
Proof.
  intros H. unfold seekTo.
  destruct (Qlt_le_dec _ _) as [Hlt | _]; [ | reflexivity].
  exfalso. exact (Qlt_not_le _ _ Hlt H).
Qed.

Lemma hqSeek_run env i time w :
  hqSeek env i time w =
  (Ok tt, withCurrentTime time w,
   [Seek time; Waited (awaitSeeked (seekedAfter env i))]).
Proof. reflexivity. Qed.

Lemma hq_audio_failure_run env w :
  hqReachesTry env true -> sourceHasUrl env = true -> audioFails env ->
  fault env = NoFault ->
  let total := hqTotalFrames env in
  let d := Grid.hqSurface (videoWidth env) (videoHeight env) (charSize env) in
  exists w1 mid,
    outcome (startOfflineRender env true w) = Ok tt /\
    events (startOfflineRender env true w) =
      [SetProgress (Some 0); ConsoleWarn "Audio extraction failed";
       AddTrack VideoTrack; ConfigureVideo (fst d) (snd d)] ++
      events (forEach (seq 0 (Z.to_nat total))
                (hqFrame env (fst d) (snd d) total) w1) ++
      mid ++ [Mp4Download [VideoTrack]; SetProgress None; Seek 0] /\
    (mid = [] \/ mid = [CloseAudioContext]).
Proof.
  intros Hg Hu Ha Hf total d.
  destruct (hqGuards env true Hg) as (G1 & G2 & G3 & G4 & G5).
  unfold startOfflineRender, extractAudio.
  rewrite G1, G2, G3, G4, G5, Hu, !(noFault_faultIs env _ Hf).
  fold total. fold d. destruct d as [W H].
  destruct Ha as [Ha | Ha]; rewrite Ha;
    unfold tryCatchFinally, bind;
    cbn -[forEach hqFrame cleanup hqTotalFrames];
    match goal with
    | |- context [forEach ?l ?b ?w1] =>
        exists w1;
        destruct (hq_loop env W H total (noFault_frames env Hf)
                    (Z.to_nat total) 0%nat w1) as (Ho & _ & _);
        destruct (forEach l b w1) as [[r w2] t1]
    end;
    cbn in Ho; subst r; cbn; rewrite <- ?app_assoc; cbn.
  - exists []. repeat split. now left.
  - exists [CloseAudioContext]. repeat split. now right.
Qed.




Lemma gifTotalFrames_capped env : gifTotalFrames env <= 150.
Proof.
  unfold gifTotalFrames, Double.mul.
  change 150 with (Qfloor (Double.fl (15 * inject_Z gifFps)%Q)).
  apply Qfloor_resp_le, DoubleFacts.fl_mono.
  apply Qmult_le_compat_r; [ | discriminate].
  apply Q.le_min_r.
Qed.

Lemma progress_list_ok (total : Z) (k : nat) : (k <= Z.to_nat total)%nat ->
  nondecreasing (0 :: map (progressAt total) (seq 0 k)) /\
  Forall (fun p => 0 <= p <= 100) (0 :: map (progressAt total) (seq 0 k)).
Proof.
  intros Hk. split.
  - destruct k as [ | k]; [simpl; auto | ].
    assert (Ht : 0 < total) by lia.
    split; [ | now apply nondecreasing_progress].
    cbn [seq map]. apply progressAt_range. lia.
  - constructor; [lia | ].
    apply Forall_forall. intros p Hin.
    apply in_map_iff in Hin. destruct Hin as (i & <- & Hi).
    apply in_seq in Hi. apply progressAt_range. lia.
Qed.

(** *** The mixed stream of the live recorder *)

Lemma audio_of_video_tracks (s : Live.MediaStream) :
  Live.getAudioTracks (Live.getVideoTracks s) = [].
Proof.
  unfold Live.getAudioTracks, Live.getVideoTracks.
  induction s as [ | t s IH]; [reflexivity | ].
  simpl. destruct t as [[ | ] n c]; simpl; exact IH.
Qed.

Lemma mixedStreamOf_muted source canvasStream videoCapture :
  Live.mixedStreamOf source canvasStream videoCapture true =
  Live.getVideoTracks canvasStream.
Proof.
  unfold Live.mixedStreamOf. cbv zeta. simpl negb.
  rewrite !andb_false_r. reflexivity.
Qed.

End ExporterFacts.

(* ------------------------------------------------------------------ *)
(** ** Properties of the exporters and of the live recorder *)

Module ExportClaims.
Import Exporter ProgressFacts ExporterFacts.
Local Open Scope Z_scope.

(** C1, as stated, fails on the playback position: a GIF export and an HQ
    render that both succeed, started five seconds into a clip of ten
    seconds, leave the source at position 0, not at 5. *)
Lemma export_rewinds_instead_of_restoring :
  let gif := startGifExport (clip 10 NoFault DecodeFails) playingAt5 in
  let hq := startOfflineRender (clip 10 NoFault DecodeFails) false playingAt5 in
  currentTime playingAt5 = 5%Q /\
  outcome gif = Ok tt /\ currentTime (finalWorld gif) = 0%Q /\
  outcome hq = Ok tt /\ currentTime (finalWorld hq) = 0%Q /\
  ~ (currentTime (finalWorld gif) == currentTime playingAt5)%Q /\
  ~ (currentTime (finalWorld hq) == currentTime playingAt5)%Q.
Proof.
  cbv zeta. vm_compute. repeat split; intros H; discriminate H.
Qed.

(** C1, amended.  For every GIF export that passes its guards, and every HQ
    render that reaches its [try] block, whether the body completes or
    throws, the [finally] block leaves the playback position at 0, leaves
    the mute state of the source equal to the mute flag of the UI that the
    job began with (the earlier mute state of the source whenever the two
    agreed), and clears the progress indicator. *)
Theorem export_cleanup_runs (env : Env) (withAudio : bool) (w : World) :
  refsReady env = true -> contextsReady env = true ->
  let gif := finalWorld (startGifExport env w) in
  let hq := finalWorld (startOfflineRender env withAudio w) in
  (currentTime gif = 0%Q /\ muted gif = isMuted env /\
   renderProgress gif = None /\
   (muted w = isMuted env -> muted gif = muted w)) /\
  (hqReachesTry env withAudio ->
   currentTime hq = 0%Q /\ muted hq = isMuted env /\
   renderProgress hq = None /\
   (muted w = isMuted env -> muted hq = muted w)).
Proof.
  intros Hr Hc gif hq. split.
  - destruct (startGifExport_endsClean env Hr Hc w) as (H1 & H2 & H3 & _).
    repeat split; try assumption. intros E. subst gif. congruence.
  - intros Hq.
    destruct (startOfflineRender_endsClean env withAudio Hq w)
      as (H1 & H2 & H3 & _).
    repeat split; try assumption. intros E. subst hq. congruence.
Qed.

Lemma export_cleanup_runs_witness :
  let env := clip 10 (AtFrame 7) DecodeFails in
  let gif := finalWorld (startGifExport env playingAt5) in
  let hq := finalWorld (startOfflineRender env true playingAt5) in
  (currentTime gif = 0%Q /\ muted gif = false /\ renderProgress gif = None) /\
  (currentTime hq = 0%Q /\ muted hq = false /\ renderProgress hq = None).
Proof.
  intros env gif hq.
  assert (Hq : hqReachesTry env true).
  { unfold hqReachesTry. repeat split; try reflexivity; discriminate. }
  destruct (export_cleanup_runs env true playingAt5 eq_refl eq_refl)
    as ((G1 & G2 & G3 & _) & H).
  destruct (H Hq) as (H1 & H2 & H3 & _).
  repeat split; assumption.
Defined.




(** An event that no frame leaves sits before the loop, between the loop
    and the download, or after: look at each place. *)
Ltac locate_event Hex Hmid Hin :=
  match type of Hin with
  | In ?e _ =>
      let H := fresh "H" in
      destruct (Hex e eq_refl Hin) as [H | [H | H]];
      [ simpl in H; intuition (discriminate || congruence)
      | apply Hmid in H; discriminate
      | simpl in H; intuition (discriminate || congruence) ]
  end.

(** C7. When an HQ render asked for with audio cannot extract the audio
    (the fetch or the decoder throws) and nothing else fails, the failure
    is logged as a warning, no audio track is added and no audio is
    encoded, the video loop encodes every frame, and the job completes by
    delivering a container with the video track alone; no failure is
    reported. *)
Theorem audio_failure_gives_video_only (env : Env) (w : World) :
  hqReachesTry env true -> sourceHasUrl env = true -> audioFails env ->
  fault env = NoFault ->
  let x := startOfflineRender env true w in
  outcome x = Ok tt /\
  In (ConsoleWarn "Audio extraction failed") (events x) /\
  ~ In (AddTrack AudioTrack) (events x) /\
  (forall n ts, ~ In (EncodeAudio n ts) (events x)) /\
  framesEncoded (events x) = Z.to_nat (hqTotalFrames env) /\
  In (Mp4Download [VideoTrack]) (events x) /\
  (forall tracks, In (Mp4Download tracks) (events x) -> tracks = [VideoTrack]) /\
  ~ In (Alert "Render failed.") (events x).
Proof.
  intros Hg Hu Ha Hf x.
  destruct (hq_audio_failure_run env w Hg Hu Ha Hf) as (w1 & mid & Ho & E & Hm).
  cbv zeta in E.
  set (d := Grid.hqSurface (videoWidth env) (videoHeight env) (charSize env)) in *.
  destruct (hq_loop env (fst d) (snd d) (hqTotalFrames env)
              (noFault_frames env Hf) (Z.to_nat (hqTotalFrames env)) 0%nat w1)
    as (_ & Hn & Hall).
  cbv zeta in Hn, Hall.
  set (loop := events (forEach (seq 0 (Z.to_nat (hqTotalFrames env)))
                         (hqFrame env (fst d) (snd d) (hqTotalFrames env)) w1)) in *.
  assert (Hex : forall e, isFrameEvent e = false -> In e (events x) ->
            In e [SetProgress (Some 0); ConsoleWarn "Audio extraction failed";
                  AddTrack VideoTrack; ConfigureVideo (fst d) (snd d)] \/
            In e mid \/
            In e [Mp4Download [VideoTrack]; SetProgress None; Seek 0]).
  { intros e He Hin. subst x. rewrite E in Hin.
    rewrite !in_app_iff in Hin.
    destruct Hin as [Hin | [Hin | [Hin | Hin]]]; auto.
    exfalso. exact (frameEvents_exclude loop e Hall He Hin). }
  assert (Hmid : forall e, In e mid -> e = CloseAudioContext).
  { intros e Hin. destruct Hm as [-> | ->]; simpl in Hin; intuition congruence. }
  split; [exact Ho | ].
  split; [subst x; rewrite E; simpl; auto | ].
  split; [intros Hin; locate_event Hex Hmid Hin | ].
  split; [intros n ts Hin; locate_event Hex Hmid Hin | ].
  split.
  { subst x. rewrite E. cbn [app framesEncoded].
    rewrite !framesEncoded_app. fold loop. rewrite Hn.
    destruct Hm as [-> | ->]; simpl; lia. }
  split.
  { subst x. rewrite E. rewrite !in_app_iff. right. right. right.
    simpl. auto. }
  split; [intros tracks Hin; locate_event Hex Hmid Hin | ].
  intros Hin; locate_event Hex Hmid Hin.
Qed.

Lemma audio_failure_gives_video_only_witness :
  let x := startOfflineRender (clip 10 NoFault DecodeFails) true atStart in
  outcome x = Ok tt /\ framesEncoded (events x) = 300%nat /\
  In (Mp4Download [VideoTrack]) (events x).
Proof.
  intros x.
  assert (Hq : hqReachesTry (clip 10 NoFault DecodeFails) true).
  { unfold hqReachesTry. repeat split; try reflexivity; discriminate. }
  destruct (audio_failure_gives_video_only (clip 10 NoFault DecodeFails) atStart
              Hq eq_refl (or_intror eq_refl) eq_refl)
    as (H1 & _ & _ & _ & H5 & H6 & _).
  repeat split; assumption.
Defined.

(** C9, as stated, fails on the HQ render: with the source already at the
    target of its first frame, the GIF export samples without seeking,
    while the HQ render assigns the position again and waits for the
    event; its loop does not go through [seekTo]. *)
Lemma hq_render_seeks_when_already_there :
  (Qabs (currentTime atStart - 0 / 30) < 1 # 100)%Q /\
  firstn 3 (events (startGifExport (clip 1 NoFault DecodeFails) atStart)) =
    [SetProgress (Some 0); Waited 50; Draw 320 176] /\
  firstn 5 (events (startOfflineRender (clip 1 NoFault DecodeFails) false atStart)) =
    [SetProgress (Some 0); AddTrack VideoTrack; ConfigureVideo 320 176;
     Seek (0 / 30); Waited 20].
Proof.
  split; [reflexivity | ]. split; vm_compute; reflexivity.
Qed.

(** C9, amended.  [seekTo], the seek of the GIF export, resolves at once,
    without touching the source, when the position is within 10 ms of the
    target; otherwise it assigns the position and waits for the seeked
    event or for 500 ms, whichever comes first, and proceeds.  The HQ
    render does not call [seekTo]: its frame loop has its own seek, which
    assigns the position and waits in the same bounded way.  Neither
    throws. *)
Theorem seek_waits_are_bounded (env : Env) (i : nat) (time : Q) (w : World) :
  let wait := awaitSeeked (seekedAfter env i) in
  ((Qabs (currentTime w - time) < 1 # 100)%Q ->
   seekTo env i time w = (Ok tt, w, [])) /\
  ((1 # 100 <= Qabs (currentTime w - time))%Q ->
   seekTo env i time w =
     (Ok tt, withCurrentTime time w, [Seek time; Waited wait])) /\
  hqSeek env i time w =
    (Ok tt, withCurrentTime time w, [Seek time; Waited wait]) /\
  (wait <= 500)%N /\
  (forall d, seekedAfter env i = Some d -> (d < 500)%N -> wait = d) /\
  (seekedAfter env i = None -> wait = 500%N).
Proof.
  intros wait. repeat split.
  - apply seekTo_near.
  - apply seekTo_far.
  - apply awaitSeeked_bound.
  - intros d E H. subst wait. rewrite E. now apply awaitSeeked_event.
  - intros E. subst wait. now rewrite E.
Qed.

(** C10. A live recording started while the mute flag of the UI is set
    records the video tracks of the canvas and nothing else, whatever audio
    the video file or the webcam stream carries; an audio track in the
    recording means the recorder started unmuted, and then the audio
    tracks are clones of those of the source. *)
Theorem muted_live_recording_is_video_only
    (source : option Live.MediaSource)
    (canvasStream : Live.MediaStream)
    (videoCapture : option Live.MediaStream) :
  Live.mixedStreamOf source canvasStream videoCapture true =
    Live.getVideoTracks canvasStream /\
  Live.getAudioTracks
    (Live.mixedStreamOf source canvasStream videoCapture true) = [] /\
  (forall isMuted,
     Live.getAudioTracks
       (Live.mixedStreamOf source canvasStream videoCapture isMuted) <> [] ->
     isMuted = false) /\
  (forall vc, Live.sourceTypeIs source Live.file_video = true ->
     Live.mixedStreamOf source canvasStream (Some vc) false =
     Live.getVideoTracks canvasStream ++
     map Live.clone (Live.getAudioTracks vc)) /\
  (forall st, Live.sourceTypeIs source Live.webcam = true ->
     Live.sourceStream source = Some st ->
     Live.mixedStreamOf source canvasStream videoCapture false =
     Live.getVideoTracks canvasStream ++
     map Live.clone (Live.getAudioTracks st)).
Proof.
  repeat split.
  - apply mixedStreamOf_muted.
  - rewrite mixedStreamOf_muted. apply audio_of_video_tracks.
  - intros [ | ] H; [ | reflexivity].
    rewrite mixedStreamOf_muted, audio_of_video_tracks in H. now contradiction H.
  - intros vc H. unfold Live.mixedStreamOf. cbv zeta. rewrite H. reflexivity.
  - intros st H E. unfold Live.mixedStreamOf. cbv zeta. rewrite H, E.
    destruct source as [[[ | | ] u s0] | ]; try discriminate H.
    reflexivity.
Qed.

(** A webcam stream with a microphone track, recorded while muted and
    while unmuted. *)
Example muted_webcam_recording :
  let cam := [Live.mkTrack Live.video 1 false; Live.mkTrack Live.audio 2 false] in
  let canvas := [Live.mkTrack Live.video 0 false] in
  let src := Some (Live.mkSource Live.webcam None (Some cam)) in
  Live.mixedStreamOf src canvas (Some cam) true =
    [Live.mkTrack Live.video 0 false] /\
  Live.mixedStreamOf src canvas (Some cam) false =
    [Live.mkTrack Live.video 0 false; Live.mkTrack Live.audio 2 true].
Proof. split; reflexivity. Qed.

End ExportClaims.

(* ------------------------------------------------------------------ *)
(** ** Scenarios of the specification, run on the model *)

Module Scenarios.
Import Settings Exporter.
Local Open Scope Z_scope.

(** A 320 by 180 source at cell size 16: a 20 by 11 grid on a 320 by 176
    surface. *)
Example grid_320x180 :
  Grid.gridCount 320 16 = 20 /\ Grid.gridCount 180 16 = 11 /\
  Grid.gifSurface 320 180 16 = (320, 176) /\
  Grid.hqSurface 320 180 16 = (320, 176).
Proof. repeat split. Qed.

(** The standard density set has ten glyphs; luminance 0 maps to index 0,
    luminance 255 to index 9, or to 0 under invert. *)
Example standard_set_ends :
  densityOf DEFAULT_SETTINGS = codes " .:-=+*#%@" /\
  GlyphMapper.charIndex DEFAULT_SETTINGS 0 = 0 /\
  GlyphMapper.charIndex DEFAULT_SETTINGS 255 = 9 /\
  GlyphMapper.charIndex (with_invert true DEFAULT_SETTINGS) 255 = 0 /\
  GlyphMapper.glyphAt DEFAULT_SETTINGS 9 = Some 64%N.
Proof.
  assert (H0 : Zfloor (0 / 255 * IZR 10) = 0).
  { apply Zfloor_eq. lra. }
  assert (H1 : Zfloor (255 / 255 * IZR 10) = 10).
  { apply Zfloor_eq. lra. }
  unfold GlyphMapper.charIndex.
  change (Z.of_nat (List.length (densityOf DEFAULT_SETTINGS))) with 10.
  change (Z.of_nat (List.length (densityOf (with_invert true DEFAULT_SETTINGS))))
    with 10.
  cbv zeta. simpl invert. cbv iota. rewrite H0, H1.
  repeat split.
Qed.

(** An HQ render of a ten-second clip encodes 300 frames. *)
Example hq_ten_seconds :
  hqTotalFrames (clip 10 NoFault DecodeFails) = 300 /\
  framesEncoded
    (events (startOfflineRender (clip 10 NoFault DecodeFails) false atStart))
  = 300%nat.
Proof. split; vm_compute; reflexivity. Qed.

(** Keyframes are requested at frames 0, 30 and 60, one per second. *)
Example hq_keyframes :
  keyFrames
    (events (startOfflineRender (clip (61 # 30) NoFault DecodeFails) false atStart))
  = [0%Q; 1000000%Q; 2000000%Q].
Proof. vm_compute. reflexivity. Qed.

(** A GIF export of a minute-long clip stops at 150 frames, and the last
    percentage it reports is 99. *)
Example gif_capped_at_15_seconds :
  let t := events (startGifExport (clip 60 NoFault DecodeFails) atStart) in
  framesWritten t = 150%nat /\ last (progressValues t) 0 = 99.
Proof. split; vm_compute; reflexivity. Qed.

(** A throw of the encoder configuration is outside the [try] of
    [startOfflineRender]: the job ends there, and the source stays muted
    and the progress overlay stays up. *)
Example hq_configure_throw_skips_finally :
  let x := startOfflineRender (clip 1 AtConfigure DecodeFails) false atStart in
  outcome x = Throw /\ muted (finalWorld x) = true /\
  renderProgress (finalWorld x) = Some 0 /\
  recordingState (finalWorld x) = processing_hq.
Proof. repeat split. Qed.

(** A throw in the frame loop is caught, reported, and followed by the
    [finally] block. *)
Example gif_frame_throw_is_reported :
  let x := startGifExport (clip 2 (AtFrame 7) DecodeFails) atStart in
  outcome x = Ok tt /\ framesWritten (events x) = 7%nat /\
  In (Alert "GIF Export failed: ") (events x) /\
  renderProgress (finalWorld x) = None.
Proof.
  vm_compute. repeat split. repeat ((left; reflexivity) || right).
Qed.

End Scenarios.

(* ------------------------------------------------------------------ *)
(** ** Further properties of the pixel pipeline *)

Module PixelProperties.
Import Settings Tone GlyphMapper ToneFacts GlyphFacts.
Local Open Scope R_scope.

Lemma unlessNeutral_gray (param : R) (f : Pixel -> Pixel) :
  (forall c, exists c', f (c, c, c) = (c', c', c')) ->
  forall c, exists c', unlessNeutral param f (c, c, c) = (c', c', c').
Proof.
  intros Hf c. unfold unlessNeutral.
  destruct (Req_dec_T param 1); [exists c; reflexivity | apply Hf].
Qed.

(** X1. A gray pixel stays gray: for every positive tone setting,
    [preprocessPixel] maps three equal channels to three equal channels,
    each within 0 .. 255. *)
Theorem preprocessPixel_keeps_gray (c : R) (s : t) :
  positiveTone s ->
  exists c', preprocessPixel c c c s = (c', c', c') /\ 0 <= c' <= 255.
Proof.
  intros _. unfold preprocessPixel. cbv zeta.
  destruct (unlessNeutral_gray (brightness s) (stepBrightness s)
              ltac:(intros x; eexists; reflexivity) c) as [c1 ->].
  destruct (unlessNeutral_gray (contrast s) (stepContrast s)
              ltac:(intros x; eexists; reflexivity) c1) as [c2 ->].
  destruct (unlessNeutral_gray (saturation s) (stepSaturation s)
              ltac:(intros x; eexists; unfold stepSaturation; reflexivity) c2)
    as [c3 ->].
  destruct (unlessNeutral_gray (gamma s) (stepGamma s)
              ltac:(intros x; eexists; reflexivity) c3) as [c4 ->].
  exists (clamp255 c4). split; [reflexivity | apply clamp255_range].
Qed.

Lemma preprocessPixel_keeps_gray_witness :
  positiveTone DEFAULT_SETTINGS /\
  exists c', preprocessPixel 128 128 128 DEFAULT_SETTINGS = (c', c', c') /\
             0 <= c' <= 255.
Proof.
  assert (Hs : positiveTone DEFAULT_SETTINGS).
  { unfold positiveTone, DEFAULT_SETTINGS; simpl. lra. }
  split; [exact Hs | ].
  exact (preprocessPixel_keeps_gray 128 DEFAULT_SETTINGS Hs).
Defined.

(** Over exact real arithmetic the saturation step moves the channels along
    a line of constant luminance: the 0.2126/0.7152/0.0722 luma of its
    result is the luma of its argument.  On doubles the two agree up to
    rounding only. *)
Lemma stepSaturation_preserves_luma (s : t) (p : Pixel) :
  luma (stepSaturation s p) = luma p.
Proof.
  destruct p as [[r g] b]. unfold stepSaturation, luma. lra.
Qed.

(** X3. The glyph index always names a glyph: for each of the density
    keys of [DENSITY_SETS], inverted or not, and for every luminance, the
    index computed by the inner loop selects a code unit of that density
    string, never [undefined]. *)
Theorem charIndex_selects_a_glyph (s : t) (avg : R) (chars : list Glyph) :
  DENSITY_SETS (density s) = Some chars ->
  exists g, glyphAt s (charIndex s avg) = Some g /\ In g chars.
Proof.
  intros Hkey.
  assert (Hd : densityOf s = chars) by (unfold densityOf; now rewrite Hkey).
  pose proof (charIndex_range s avg) as H.
  pose proof (densityOf_nonempty s) as Hn.
  unfold glyphAt.
  replace (charIndex s avg <? 0)%Z with false by (symmetry; apply Z.ltb_ge; lia).
  destruct (nth_error (densityOf s) (Z.to_nat (charIndex s avg))) as [g | ] eqn:E.
  - exists g. split; [reflexivity | ]. rewrite <- Hd.
    apply nth_error_In with (1 := E).
  - exfalso. apply nth_error_None in E. lia.
Qed.

Lemma charIndex_selects_a_glyph_witness :
  exists g, glyphAt DEFAULT_SETTINGS (charIndex DEFAULT_SETTINGS 255) = Some g /\
            In g (codes " .:-=+*#%@").
Proof.
  exact (charIndex_selects_a_glyph DEFAULT_SETTINGS 255 (codes " .:-=+*#%@")
           eq_refl).
Defined.

Lemma clampZ_mono (len a b : Z) : (a <= b)%Z ->
  (Z.max 0 (Z.min (len - 1) a) <= Z.max 0 (Z.min (len - 1) b))%Z.
Proof. lia. Qed.

Lemma rawIndex_mono (len : Z) (a b : R) : (0 <= len)%Z -> a <= b ->
  (Zfloor (a / 255 * IZR len) <= Zfloor (b / 255 * IZR len))%Z.
Proof.
  intros Hl Hab. apply Zfloor_le.
  apply Rmult_le_compat_r; [apply IZR_le; exact Hl | lra].
Qed.

(** X4. A brighter cell never gets a sparser glyph: without invert the
    glyph index does not decrease when the luminance grows, and with
    invert it does not increase. *)
Theorem charIndex_monotone (s : t) (a b : R) :
  a <= b ->
  (charIndex (with_invert false s) a <= charIndex (with_invert false s) b)%Z /\
  (charIndex (with_invert true s) b <= charIndex (with_invert true s) a)%Z.
Proof.
  intros Hab. unfold charIndex. rewrite !densityOf_with_invert.
  simpl invert. cbv zeta.
  pose proof (rawIndex_mono (Z.of_nat (List.length (densityOf s))) a b
                ltac:(lia) Hab) as H.
  split; apply clampZ_mono; lia.
Qed.

Lemma charIndex_monotone_witness :
  (charIndex (with_invert false DEFAULT_SETTINGS) 10 <=
   charIndex (with_invert false DEFAULT_SETTINGS) 200)%Z.
Proof.
  exact (proj1 (charIndex_monotone DEFAULT_SETTINGS 10 200 ltac:(lra))).
Defined.

(** X5. The clamp of the glyph index only ever acts on full luminance: for
    a luminance in [0,255) the floor is already a valid index, and at 255
    the floor is the length of the density string, one past the end, which
    the clamp brings back to the last glyph. *)
Theorem charIndex_clamp_only_at_white (s : t) (avg : R) :
  invert s = false -> 0 <= avg <= 255 ->
  let len := Z.of_nat (List.length (densityOf s)) in
  (avg < 255 -> charIndex s avg = Zfloor (avg / 255 * IZR len)) /\
  (avg = 255 -> Zfloor (avg / 255 * IZR len) = len /\
                charIndex s avg = (len - 1)%Z).
Proof.
  intros Hi Ha len.
  pose proof (densityOf_nonempty s) as Hn.
  assert (Hlen : 1 <= IZR len) by (apply IZR_le; subst len; lia).
  unfold charIndex. fold len. rewrite Hi. cbv zeta.
  split.
  - intros Hlt.
    pose proof (Zfloor_bound (avg / 255 * IZR len)) as [Hlo Hhi].
    assert (H0 : (0 <= Zfloor (avg / 255 * IZR len))%Z).
    { apply Zfloor_lub. simpl. apply Rmult_le_pos; lra. }
    assert (H1 : (Zfloor (avg / 255 * IZR len) < len)%Z).
    { apply lt_IZR. apply Rle_lt_trans with (avg / 255 * IZR len);
        [exact Hlo | ].
      rewrite <- (Rmult_1_l (IZR len)) at 2.
      apply Rmult_lt_compat_r; lra. }
    lia.
  - intros ->. replace (255 / 255 * IZR len) with (IZR len) by lra.
    rewrite ZfloorZ. split; [reflexivity | lia].
Qed.

Lemma charIndex_clamp_only_at_white_witness :
  charIndex DEFAULT_SETTINGS 255 =
  (Z.of_nat (List.length (densityOf DEFAULT_SETTINGS)) - 1)%Z.
Proof.
  exact (proj2 (proj2 (charIndex_clamp_only_at_white DEFAULT_SETTINGS 255
                         eq_refl ltac:(lra)) eq_refl)).
Defined.

End PixelProperties.

(* ------------------------------------------------------------------ *)
(** ** Further properties of the renderer, the composer and the surfaces *)

Module GridProperties.
Import Settings Grid GridFacts Canvas.
Local Open Scope Z_scope.



(** X7. Every glyph is drawn on the cell lattice and wholly inside the
    surface handed to [drawAsciiFrame]: each [fillText] is at
    ([x * cell], [y * cell]) for a column [x] and a row [y] of the grid,
    and the cell that starts there ends within [width] and [height]. *)
Theorem drawAsciiFrame_glyphs_inside_surface
    (source : Sampler) (width height : Z) (s : t) :
  0 < fontSize s ->
  forall c st px py,
    In (FillText c st px py) (drawAsciiFrame source width height s) ->
    exists x y,
      0 <= x < gridCount width (fontSize s) /\
      0 <= y < gridCount height (fontSize s) /\
      px = x * fontSize s /\ py = y * fontSize s /\
      0 <= px /\ px + fontSize s <= width /\
      0 <= py /\ py + fontSize s <= height.
Proof.
  intros Hs c st px py Hin. unfold drawAsciiFrame in Hin. cbv zeta in Hin.
  destruct ((gridCount width (fontSize s) <=? 0) ||
            (gridCount height (fontSize s) <=? 0))%bool; [contradiction Hin | ].
  destruct Hin as [Hin | Hin]; [discriminate Hin | ].
  apply in_flat_map in Hin. destruct Hin as (y & Hy & Hin).
  apply in_map_iff in Hin. destruct Hin as (x & E & Hx).
  destruct (drawCell_is_text source (gridCount width (fontSize s))
              (gridCount height (fontSize s)) s y x) as (c' & st' & E').
  rewrite E' in E. injection E as _ _ <- <-.
  apply in_upto in Hx, Hy. exists x, y.
  pose proof (Z.mul_div_le width (fontSize s) Hs) as Hw.
  pose proof (Z.mul_div_le height (fontSize s) Hs) as Hh.
  unfold gridCount in *. repeat split; try lia; nia.
Qed.

Lemma drawAsciiFrame_glyphs_inside_surface_witness :
  exists c st,
    In (FillText c st 0 0) (drawAsciiFrame tinySource 16 16 DEFAULT_SETTINGS) /\
    exists x y, 0 = x * 16 /\ 0 = y * 16 /\ 0 + 16 <= 16.
Proof.
  destruct (drawCell_is_text tinySource 1 1 DEFAULT_SETTINGS 0 0)
    as (c & st & E).
  exists c, st.
  assert (Hin : In (FillText c st 0 0)
                   (drawAsciiFrame tinySource 16 16 DEFAULT_SETTINGS)).
  { right. left. exact E. }
  split; [exact Hin | ].
  destruct (drawAsciiFrame_glyphs_inside_surface tinySource 16 16
              DEFAULT_SETTINGS eq_refl c st 0 0 Hin)
    as (x & y & _ & _ & Hx & Hy & _ & H1 & _).
  exists x, y. split; [exact Hx | split; [exact Hy | exact H1]].
Defined.



Lemma cellStyle_valid (s : t) (p : Tone.Pixel) (avg : R) :
  Tone.inRange p -> (0 <= avg <= 255)%R -> validStyle (cellStyle s p avg).
Proof.
  intros Hp Ha. unfold cellStyle.
  destruct (colorMode s); simpl; auto.
  - destruct p as [[r g] b]. exact Hp.
  - split; [lia | lra].
Qed.

Lemma drawCell_style_valid source cols rows s y x :
  validStyle (styleOf (drawCell source cols rows s y x)).
Proof.
  unfold drawCell, cellTone.
  destruct (toPixel (source cols rows x y)) as [[r g] b].
  simpl. apply cellStyle_valid.
  - apply ToneFacts.preprocessPixel_inRange.
  - apply ToneFacts.luma_range, ToneFacts.preprocessPixel_inRange.
Qed.

(** X9. Every colour [drawAsciiFrame] sets is one the canvas accepts,
    whatever the sampled bytes and the positive tone settings: in
    source-colour mode the three channels lie in 0 .. 255, in matrix mode
    the opacity [avg / 255] lies in 0 .. 1, and the other modes use the
    configured CSS strings. *)
Theorem drawAsciiFrame_styles_valid
    (source : Sampler) (width height : Z) (s : t) :
  positiveTone s ->
  Forall (fun op => validStyle (styleOf op))
         (drawAsciiFrame source width height s).
Proof.
  intros _. unfold drawAsciiFrame. cbv zeta.
  destruct ((gridCount width (fontSize s) <=? 0) ||
            (gridCount height (fontSize s) <=? 0))%bool; [constructor | ].
  constructor; [exact I | ].
  apply Forall_forall. intros op Hin.
  apply in_flat_map in Hin. destruct Hin as (y & _ & Hin).
  apply in_map_iff in Hin. destruct Hin as (x & <- & _).
  apply drawCell_style_valid.
Qed.

Lemma drawAsciiFrame_styles_valid_witness :
  positiveTone DEFAULT_SETTINGS /\
  Forall (fun op => validStyle (styleOf op))
         (drawAsciiFrame tinySource 320 176 DEFAULT_SETTINGS).
Proof.
  assert (Hs : positiveTone DEFAULT_SETTINGS).
  { unfold positiveTone, DEFAULT_SETTINGS; simpl. lra. }
  split; [exact Hs | ].
  exact (drawAsciiFrame_styles_valid tinySource 320 176 DEFAULT_SETTINGS Hs).
Defined.

(** X10. The snapped surface of the GIF export never exceeds the video and
    loses less than one cell on each side: its width is the largest
    multiple of the cell size that is at most the video width, and
    likewise its height. *)
Theorem gifSurface_snaps_down (videoWidth videoHeight charSize : Z) :
  0 < charSize -> 0 <= videoWidth -> 0 <= videoHeight ->
  let '(width, height) := gifSurface videoWidth videoHeight charSize in
  (videoWidth - charSize < width <= videoWidth /\ width mod charSize = 0) /\
  (videoHeight - charSize < height <= videoHeight /\ height mod charSize = 0) /\
  0 <= width /\ 0 <= height.
Proof.
  intros Hc Hw Hh. unfold gifSurface, gridCount. cbv zeta.
  pose proof (Z.mul_div_le videoWidth charSize Hc).
  pose proof (Z.mul_div_le videoHeight charSize Hc).
  pose proof (Z.mul_succ_div_gt videoWidth charSize Hc).
  pose proof (Z.mul_succ_div_gt videoHeight charSize Hc).
  pose proof (Z.div_pos videoWidth charSize Hw Hc).
  pose proof (Z.div_pos videoHeight charSize Hh Hc).
  rewrite !Z.mod_mul by lia.
  repeat split; nia.
Qed.

Lemma gifSurface_snaps_down_witness :
  gifSurface 330 180 16 = (320, 176) /\ 330 - 16 < 320 <= 330.
Proof.
  pose proof (gifSurface_snaps_down 330 180 16 ltac:(lia) ltac:(lia) ltac:(lia))
    as H.
  split; [reflexivity | exact (proj1 (proj1 H))].
Defined.

Lemma snapped_minus_one (cols charSize : Z) : 0 < charSize ->
  (cols * charSize - 1) / charSize = cols - 1.
Proof.
  intros Hc. symmetry.
  apply (Z.div_unique_pos _ _ _ (charSize - 1)); lia.
Qed.

(** X11. Forcing the HQ surface even can cost a column: when the snapped
    width [cols * cell] is odd (an odd cell size and an odd number of
    columns), the HQ surface is one pixel narrower and [drawAsciiFrame]
    fits only [cols - 1] columns on it; when it is even all [cols] columns
    are drawn.  The same holds for the rows. *)
Theorem hqSurface_columns (videoWidth videoHeight charSize : Z) :
  0 < charSize -> 0 <= videoWidth -> 0 <= videoHeight ->
  let cols := gridCount videoWidth charSize in
  let rows := gridCount videoHeight charSize in
  let '(renderWidth, renderHeight) :=
    hqSurface videoWidth videoHeight charSize in
  gridCount renderWidth charSize =
    (if Z.odd (cols * charSize) then cols - 1 else cols) /\
  gridCount renderHeight charSize =
    (if Z.odd (rows * charSize) then rows - 1 else rows).
Proof.
  intros Hc Hw Hh. unfold hqSurface. cbv zeta.
  assert (H : forall extent, 0 <= extent ->
            gridCount (gridCount extent charSize * charSize -
                       Z.rem (gridCount extent charSize * charSize) 2) charSize =
            if Z.odd (gridCount extent charSize * charSize)
            then gridCount extent charSize - 1
            else gridCount extent charSize).
  { intros extent He.
    assert (0 <= gridCount extent charSize * charSize).
    { unfold gridCount. apply Z.mul_nonneg_nonneg; [apply Z.div_pos | ]; lia. }
    rewrite rem2_nonneg by assumption.
    destruct (Z.odd (gridCount extent charSize * charSize)).
    - unfold gridCount at 1. now apply snapped_minus_one.
    - rewrite Z.sub_0_r. now apply gridCount_snapped. }
  split; apply H; assumption.
Qed.

Lemma hqSurface_columns_witness :
  gridCount (fst (hqSurface 27 45 9)) 9 = 2 /\ gridCount 27 9 = 3.
Proof.
  pose proof (hqSurface_columns 27 45 9 ltac:(lia) ltac:(lia) ltac:(lia)) as H.
  split; [exact (proj1 H) | reflexivity].
Defined.

End GridProperties.

(* ------------------------------------------------------------------ *)
(** ** Facts about the traces of the exporters *)

Module TraceFacts.
Import Exporter ExporterFacts Traces.
Local Open Scope Z_scope.

Lemma totalWait_app t1 t2 :
  totalWait (t1 ++ t2) = (totalWait t1 + totalWait t2)%N.
Proof.
  induction t1 as [ | e t1 IH]; [reflexivity | ].
  destruct e; simpl; rewrite ?IH; lia.
Qed.

Lemma gifFramesOf_app t1 t2 :
  gifFramesOf (t1 ++ t2) = gifFramesOf t1 ++ gifFramesOf t2.
Proof.
  induction t1 as [ | e t1 IH]; [reflexivity | ].
  destruct e; simpl; now rewrite ?IH.
Qed.

Lemma videoFramesOf_app t1 t2 :
  videoFramesOf (t1 ++ t2) = videoFramesOf t1 ++ videoFramesOf t2.
Proof.
  induction t1 as [ | e t1 IH]; [reflexivity | ].
  destruct e; simpl; now rewrite ?IH.
Qed.

Lemma encodeOrder_app t1 t2 :
  encodeOrder (t1 ++ t2) = encodeOrder t1 ++ encodeOrder t2.
Proof.
  induction t1 as [ | e t1 IH]; [reflexivity | ].
  destruct e; simpl; now rewrite ?IH.
Qed.

(** Quiet events count for nothing in the measures of a job. *)
Lemma quiet_measures (t : list Event) :
  Forall (fun e => isQuiet e = true) t ->
  progressValues t = [] /\ framesEncoded t = 0%nat /\
  framesWritten t = 0%nat /\ totalWait t = 0%N /\
  gifFramesOf t = [] /\ videoFramesOf t = [].
Proof.
  induction 1 as [ | e t He _ IH]; [now repeat split | ].
  destruct IH as (I1 & I2 & I3 & I4 & I5 & I6).
  destruct e as [ [p | ] | | | | | | | | | | | | | | ];
    try discriminate He; simpl; now repeat split.
Qed.

(** *** Composing statements *)

Lemma quietM_ret {A} (a : A) : quietM (ret a).
Proof. intros w. constructor. Qed.

Lemma quietM_throw {A} : quietM (@throw A).
Proof. intros w. constructor. Qed.

Lemma quietM_modify f : quietM (modify f).
Proof. intros w. constructor. Qed.

Lemma quietM_emit e : isQuiet e = true -> quietM (emit e).
Proof. intros H w. repeat constructor. exact H. Qed.

Lemma quietM_bind {A B} (m : M A) (k : A -> M B) :
  quietM m -> (forall a, quietM (k a)) -> quietM (bind m k).
Proof.
  intros Hm Hk w. rewrite events_bind. apply Forall_app. split; [apply Hm | ].
  destruct (outcome (m w)); [apply Hk | constructor].
Qed.

Lemma quietM_when b m : quietM m -> quietM (when b m).
Proof. intros H. destruct b; [exact H | apply quietM_ret]. Qed.

Lemma quietM_mayThrow b : quietM (mayThrow b).
Proof. destruct b; [apply quietM_throw | apply quietM_ret]. Qed.

Create HintDb quiet.
#[export] Hint Resolve quietM_ret quietM_throw quietM_modify quietM_when
  quietM_mayThrow : quiet.
#[export] Hint Extern 1 (quietM (emit _)) =>
  apply quietM_emit; reflexivity : quiet.

Ltac be_quiet :=
  repeat first
    [ apply quietM_bind; [ | intros ? ]
    | solve [ auto with quiet ] ].

Lemma quietM_setters :
  (forall b, quietM (setIsPlaying b)) /\ quietM pause /\
  (forall b, quietM (setMuted b)) /\
  (forall s, quietM (setRecordingState s)) /\
  (forall s, quietM (setRenderStatus s)) /\
  (forall d, quietM (setCanvasSize d)) /\
  quietM (setRenderProgress None) /\
  (forall t, quietM (setCurrentTime t)).
Proof.
  repeat split; intros;
    unfold setIsPlaying, pause, setMuted, setRecordingState, setRenderStatus,
      setCanvasSize, setRenderProgress, setCurrentTime; be_quiet.
Qed.

Lemma quietM_setIsPlaying b : quietM (setIsPlaying b).
Proof. apply quietM_setters. Qed.
Lemma quietM_pause : quietM pause.
Proof. apply quietM_setters. Qed.
Lemma quietM_setMuted b : quietM (setMuted b).
Proof. apply quietM_setters. Qed.
Lemma quietM_setRecordingState s : quietM (setRecordingState s).
Proof. apply quietM_setters. Qed.
Lemma quietM_setRenderStatus s : quietM (setRenderStatus s).
Proof. apply quietM_setters. Qed.
Lemma quietM_setCanvasSize d : quietM (setCanvasSize d).
Proof. apply quietM_setters. Qed.
Lemma quietM_clearProgress : quietM (setRenderProgress None).
Proof. apply quietM_setters. Qed.
Lemma quietM_setCurrentTime t : quietM (setCurrentTime t).
Proof. apply quietM_setters. Qed.

#[export] Hint Resolve quietM_setIsPlaying quietM_pause quietM_setMuted
  quietM_setRecordingState quietM_setRenderStatus quietM_setCanvasSize
  quietM_clearProgress quietM_setCurrentTime : quiet.

Lemma quietM_cleanup env : quietM (cleanup env).
Proof. unfold cleanup. be_quiet. Qed.

Lemma quietM_extractAudio env withAudio : quietM (extractAudio env withAudio).
Proof.
  unfold extractAudio.
  destruct (withAudio && sourceHasUrl env)%bool; [ | auto with quiet].
  destruct (audioOutcome env); be_quiet.
Qed.

Lemma quietM_forEachZ (l : list Z) (body : Z -> M unit) :
  (forall i, quietM (body i)) -> quietM (forEachZ l body).
Proof.
  intros H. induction l as [ | i l IH]; simpl; [apply quietM_ret | ].
  apply quietM_bind; [apply H | intros _; exact IH].
Qed.

Lemma quietM_encodeAudio env b : quietM (encodeAudio env b).
Proof.
  unfold encodeAudio. be_quiet.
  apply quietM_forEachZ. intros i. unfold encodeAudioChunk. be_quiet.
Qed.

#[export] Hint Resolve quietM_cleanup quietM_extractAudio
  quietM_encodeAudio : quiet.

Lemma oneLoop_quiet {A} L (m : M A) : quietM m -> oneLoop L m.
Proof.
  intros H w. exists (events (m w)), []. rewrite app_nil_r.
  repeat split; [apply H | constructor | now left].
Qed.

Lemma oneLoop_bind_quiet {A B} L (m : M A) (k : A -> M B) :
  quietM m -> (forall a, oneLoop L (k a)) -> oneLoop L (bind m k).
Proof.
  intros Hm Hk w. rewrite events_bind.
  destruct (outcome (m w)) as [a | ].
  - destruct (Hk a (finalWorld (m w))) as (pre & post & Hp & Hq & E).
    exists (events (m w) ++ pre), post.
    repeat split; [apply Forall_app; split; [apply Hm | exact Hp] | exact Hq | ].
    destruct E as [-> | (w1 & ->)]; [left | right; exists w1];
      now rewrite <- app_assoc.
  - exists (events (m w)), []. rewrite !app_nil_r.
    repeat split; [apply Hm | constructor | now left].
Qed.

Lemma oneLoop_then_quiet {A B} L (m : M A) (k : A -> M B) :
  oneLoop L m -> (forall a, quietM (k a)) -> oneLoop L (bind m k).
Proof.
  intros Hm Hk w. rewrite events_bind.
  destruct (Hm w) as (pre & post & Hp & Hq & E).
  set (rest := match outcome (m w) with
               | Ok a => events (k a (finalWorld (m w)))
               | Throw => []
               end).
  assert (Hr : Forall (fun e => isQuiet e = true) rest).
  { subst rest. destruct (outcome (m w)); [apply Hk | constructor]. }
  exists pre, (post ++ rest).
  repeat split; [exact Hp | apply Forall_app; split; assumption | ].
  destruct E as [-> | (w1 & ->)]; [left | right; exists w1];
    now rewrite <- ?app_assoc.
Qed.

Lemma events_tryCatchFinally body handler fin w :
  exists t2 w2,
    events (tryCatchFinally body handler fin w) =
      events (body w) ++ t2 ++ events (fin w2) /\
    (t2 = [] \/ exists w1, t2 = events (handler w1)).
Proof.
  unfold tryCatchFinally, events.
  destruct (body w) as [[r1 w1] t1]. destruct r1 as [u | ].
  - exists [], w1. destruct (fin w1) as [[r3 w3] t3]. simpl. auto.
  - destruct (handler w1) as [[r2 w2] t2] eqn:E. exists t2, w2.
    destruct (fin w2) as [[r3 w3] t3]. simpl. split; [reflexivity | ].
    right. exists w1. now rewrite E.
Qed.

Lemma oneLoop_tryCatchFinally L (body handler fin : M unit) :
  oneLoop L body -> quietM handler -> quietM fin ->
  oneLoop L (tryCatchFinally body handler fin).
Proof.
  intros Hb Hh Hf w.
  destruct (events_tryCatchFinally body handler fin w) as (t2 & w2 & E & Ht).
  destruct (Hb w) as (pre & post & Hp & Hq & Eb).
  assert (H2 : Forall (fun e => isQuiet e = true) t2).
  { destruct Ht as [-> | (w1 & ->)]; [constructor | apply Hh]. }
  exists pre, (post ++ t2 ++ events (fin w2)).
  repeat split; [exact Hp | | ].
  - apply Forall_app; split; [exact Hq | ].
    apply Forall_app; split; [exact H2 | apply Hf].
  - rewrite E. destruct Eb as [-> | (w1 & ->)]; [left | right; exists w1];
      now rewrite <- ?app_assoc.
Qed.

Lemma oneLoop_self {A} (m : M A) : oneLoop (fun w1 => events (m w1)) m.
Proof.
  intros w. exists [], [].
  split; [constructor | split; [constructor | ]].
  right. exists w. now rewrite app_nil_r.
Qed.

(** *** The shape of the two jobs *)

Lemma events_after_silent {B} (m : M unit) (k : unit -> M B) w :
  silent m -> exists w', events (bind m k w) = events (k tt w').
Proof.
  intros H. destruct (H w) as (w' & E). exists w'.
  unfold bind. rewrite E. destruct (k tt w') as [[r w2] t2]. reflexivity.
Qed.

Lemma events_after_progress {B} p (k : unit -> M B) w :
  exists w', events (bind (setRenderProgress p) k w) =
             SetProgress p :: events (k tt w').
Proof.
  exists (mkWorld (currentTime w) (muted w) (paused w) (isPlaying w)
            (recordingState w) p (renderStatus w) (canvasSize w)).
  unfold bind, setRenderProgress, modify, emit, bind. cbn.
  match goal with |- context [k tt ?w'] => destruct (k tt w') as [[r w2] t2] end.
  reflexivity.
Qed.

Lemma silent_modify f : silent (modify f).
Proof. intros w. eexists. reflexivity. Qed.

Lemma started_of_oneLoop {A} L (m : M A) w :
  oneLoop L m -> started L (SetProgress (Some 0) :: events (m w)).
Proof.
  intros H. destruct (H w) as (pre & post & Hp & Hq & E).
  exists pre, post. repeat split; [exact Hp | exact Hq | ].
  destruct E as [-> | (w1 & ->)]; [now left | right; now exists w1].
Qed.

Lemma startGifExport_shape env w :
  events (startGifExport env w) = [] \/
  started (gifLoop env) (events (startGifExport env w)).
Proof.
  unfold startGifExport.
  destruct (refsReady env); [ | now left].
  destruct (contextsReady env); [ | now left].
  right. cbn [negb].
  match goal with
  | |- context [bind (setIsPlaying false) ?k] =>
      destruct (events_after_silent (setIsPlaying false) k w (silent_modify _))
        as (w1 & ->)
  end.
  match goal with
  | |- context [bind pause ?k] =>
      destruct (events_after_silent pause k w1 (silent_modify _)) as (w2 & ->)
  end.
  match goal with
  | |- context [bind (setMuted true) ?k] =>
      destruct (events_after_silent (setMuted true) k w2 (silent_modify _))
        as (w3 & ->)
  end.
  match goal with
  | |- context [bind (setRecordingState ?s) ?k] =>
      destruct (events_after_silent (setRecordingState s) k w3 (silent_modify _))
        as (w4 & ->)
  end.
  match goal with
  | |- context [bind (setRenderProgress ?p) ?k] =>
      destruct (events_after_progress p k w4) as (w5 & ->)
  end.
  apply started_of_oneLoop.
  apply oneLoop_bind_quiet; [auto with quiet | intros _].
  unfold gifLoop.
  destruct (Grid.gifSurface (videoWidth env) (videoHeight env) (charSize env))
    as [width height].
  cbv zeta. cbn [fst snd].
  apply oneLoop_bind_quiet; [auto with quiet | intros _].
  apply oneLoop_tryCatchFinally; [ | be_quiet | auto with quiet].
  apply oneLoop_then_quiet; [ | intros _; be_quiet].
  apply (oneLoop_self
           (forEach (seq 0 (Z.to_nat (gifTotalFrames env)))
              (gifFrame env width height (gifTotalFrames env)))).
Qed.

Lemma startOfflineRender_shape env withAudio w :
  events (startOfflineRender env withAudio w) = [] \/
  (exists msg, events (startOfflineRender env withAudio w) = [Alert msg]) \/
  started (hqLoop env) (events (startOfflineRender env withAudio w)).
Proof.
  unfold startOfflineRender.
  destruct (negb (sourceIsVideo env && refsReady env)); [now left | ].
  destruct (negb (hasVideoEncoder env) ||
            withAudio && negb (hasAudioEncoder env))%bool;
    [right; left; eexists; reflexivity | ].
  destruct (negb (contextsReady env)); [now left | ].
  right. right.
  match goal with
  | |- context [bind (setIsPlaying false) ?k] =>
      destruct (events_after_silent (setIsPlaying false) k w (silent_modify _))
        as (w1 & ->)
  end.
  match goal with
  | |- context [bind pause ?k] =>
      destruct (events_after_silent pause k w1 (silent_modify _)) as (w2 & ->)
  end.
  match goal with
  | |- context [bind (setMuted true) ?k] =>
      destruct (events_after_silent (setMuted true) k w2 (silent_modify _))
        as (w3 & ->)
  end.
  match goal with
  | |- context [bind (setRecordingState ?s) ?k] =>
      destruct (events_after_silent (setRecordingState s) k w3 (silent_modify _))
        as (w4 & ->)
  end.
  match goal with
  | |- context [bind (setRenderProgress ?p) ?k] =>
      destruct (events_after_progress p k w4) as (w5 & ->)
  end.
  apply started_of_oneLoop.
  apply oneLoop_bind_quiet; [auto with quiet | intros _].
  apply oneLoop_bind_quiet; [auto with quiet | intros [audioBuffer audioCtx]].
  apply oneLoop_bind_quiet; [auto with quiet | intros _].
  unfold hqLoop.
  destruct (Grid.hqSurface (videoWidth env) (videoHeight env) (charSize env))
    as [renderWidth renderHeight].
  cbv zeta. cbn [fst snd].
  do 6 (apply oneLoop_bind_quiet; [auto with quiet | intros _]).
  apply oneLoop_tryCatchFinally; [ | be_quiet | auto with quiet].
  apply oneLoop_bind_quiet;
    [destruct audioBuffer; auto with quiet | intros _].
  apply oneLoop_bind_quiet; [auto with quiet | intros _].
  apply oneLoop_then_quiet; [ | intros _; be_quiet].
  apply (oneLoop_self
           (forEach (seq 0 (Z.to_nat (hqTotalFrames env)))
              (hqFrame env renderWidth renderHeight (hqTotalFrames env)))).
Qed.

End TraceFacts.

(* ------------------------------------------------------------------ *)
(** ** Further properties of the exporters *)

Module ExportProperties.
Import Exporter ExporterFacts Traces TraceFacts.
Local Open Scope Z_scope.

(** *** The frame loops under any behaviour of the collaborators *)

Lemma hqFrame_any env W H total i w :
  let x := hqFrame env W H total i w in
  (totalWait (events x) <= 500)%N /\
  if throwsAtFrame env i
  then outcome x = Throw /\ progressValues (events x) = [] /\
       framesEncoded (events x) = 0%nat
  else outcome x = Ok tt /\
       progressValues (events x) = [progressAt total i] /\
       framesEncoded (events x) = 1%nat.
Proof.
  pose proof (awaitSeeked_bound (seekedAfter env i)) as Hb.
  unfold hqFrame, hqSeek, bind.
  destruct (throwsAtFrame env i); cbn; (split; [lia | auto]).
Qed.

Lemma hq_loop_any env W H total : forall n start w,
  let x := forEach (seq start n) (hqFrame env W H total) w in
  (totalWait (events x) <= 500 * N.of_nat n)%N /\
  exists k, (k <= n)%nat /\
    progressValues (events x) = map (progressAt total) (seq start k) /\
    framesEncoded (events x) = k.
Proof.
  induction n as [ | n IH]; intros start w.
  - split; [cbn; lia | ]. exists 0%nat. now repeat split.
  - cbn [seq forEach]. cbv zeta. rewrite events_bind.
    destruct (hqFrame_any env W H total start w) as (Hw & Hf).
    destruct (throwsAtFrame env start).
    + destruct Hf as (Ho & Hp & He). rewrite Ho, app_nil_r.
      split; [lia | ]. exists 0%nat. repeat split; [lia | exact Hp | exact He].
    + destruct Hf as (Ho & Hp & He). rewrite Ho.
      destruct (IH (S start) (finalWorld (hqFrame env W H total start w)))
        as (Hw' & k & Hk & Hpk & Hek).
      rewrite totalWait_app. split; [lia | ].
      exists (S k).
      rewrite progressValues_app, framesEncoded_app, Hp, He, Hpk, Hek.
      repeat split; lia.
Qed.

Lemma gifFrame_wait env W H total i w :
  (totalWait (events (gifFrame env W H total i w)) <= 550)%N.
Proof.
  pose proof (awaitSeeked_bound (seekedAfter env i)) as Hb.
  unfold gifFrame, bind, seekTo.
  destruct (Qlt_le_dec _ _); destruct (throwsAtFrame env i); cbn; lia.
Qed.

Lemma gif_loop_wait env W H total : forall n start w,
  (totalWait (events (forEach (seq start n) (gifFrame env W H total) w))
   <= 550 * N.of_nat n)%N.
Proof.
  induction n as [ | n IH]; intros start w; [cbn; lia | ].
  cbn [seq forEach]. rewrite events_bind, totalWait_app.
  pose proof (gifFrame_wait env W H total start w) as Hw.
  destruct (outcome (gifFrame env W H total start w)).
  - specialize (IH (S start) (finalWorld (gifFrame env W H total start w))).
    lia.
  - cbn. lia.
Qed.

(** The measures of a started job are those of its frame loop. *)
Lemma started_measures L t : started L t ->
  exists loop, (loop = [] \/ exists w1, loop = L w1) /\
    progressValues t = 0 :: progressValues loop /\
    framesEncoded t = framesEncoded loop /\
    totalWait t = totalWait loop.
Proof.
  intros (pre & post & Hp & Hq & E).
  destruct (quiet_measures pre Hp) as (P1 & P2 & _ & P4 & _).
  destruct (quiet_measures post Hq) as (Q1 & Q2 & _ & Q4 & _).
  destruct E as [-> | (w1 & ->)].
  - exists []. split; [now left | ].
    cbn [progressValues framesEncoded totalWait].
    rewrite progressValues_app, framesEncoded_app, totalWait_app.
    rewrite P1, P2, P4, Q1, Q2, Q4. now repeat split.
  - exists (L w1). split; [right; now exists w1 | ].
    cbn [progressValues framesEncoded totalWait].
    rewrite !progressValues_app, !framesEncoded_app, !totalWait_app.
    rewrite P1, P2, P4, Q1, Q2, Q4, app_nil_r.
    repeat split; lia.
Qed.

(** X12. The GIF export cannot hang on a source that stalls: whatever the
    source and the encoder do, the time the job spends waiting on seeks
    and timers is at most 550 ms per frame, hence at most 82.5 seconds
    over the at most 150 frames of a job. *)
Theorem gif_export_wait_bounded (env : Env) (w : World) :
  let t := events (startGifExport env w) in
  (totalWait t <= 550 * N.of_nat (Z.to_nat (gifTotalFrames env)))%N /\
  (totalWait t <= 82500)%N.
Proof.
  intros t.
  assert (H : (totalWait t <= 550 * N.of_nat (Z.to_nat (gifTotalFrames env)))%N).
  { subst t. destruct (startGifExport_shape env w) as [-> | Hs]; [cbn; lia | ].
    destruct (started_measures _ _ Hs) as (loop & Hl & _ & _ & ->).
    destruct Hl as [-> | (w1 & ->)]; [cbn; lia | ].
    apply gif_loop_wait. }
  split; [exact H | ].
  pose proof (gifTotalFrames_capped env). lia.
Qed.

(** X13. The frame loop of the HQ render cannot hang on a stalled source
    either: whatever the source does, the time the job spends waiting for
    seeks and timers is at most 500 ms per frame. *)
Theorem hq_render_wait_bounded (env : Env) (withAudio : bool) (w : World) :
  (totalWait (events (startOfflineRender env withAudio w))
   <= 500 * N.of_nat (Z.to_nat (hqTotalFrames env)))%N.
Proof.
  destruct (startOfflineRender_shape env withAudio w)
    as [-> | [(msg & ->) | Hs]]; [cbn; lia | cbn; lia | ].
  destruct (started_measures _ _ Hs) as (loop & Hl & _ & _ & ->).
  destruct Hl as [-> | (w1 & ->)]; [cbn; lia | ].
  apply hq_loop_any.
Qed.

(** X14. The HQ render, like the GIF export, never encodes more than
    [floor(duration * 30)] frames, and the percentages it reports never
    decrease and stay within 0 .. 100, wherever the job fails and whether
    or not audio is asked for. *)
Theorem hq_frames_bounded_progress_monotone
    (env : Env) (withAudio : bool) (w : World) :
  let t := events (startOfflineRender env withAudio w) in
  (framesEncoded t <= Z.to_nat (hqTotalFrames env))%nat /\
  nondecreasing (progressValues t) /\
  Forall (fun p => 0 <= p <= 100) (progressValues t).
Proof.
  intros t. subst t.
  destruct (startOfflineRender_shape env withAudio w)
    as [-> | [(msg & ->) | Hs]];
    [cbn; repeat split; (lia || constructor) ..| ].
  destruct (started_measures _ _ Hs) as (loop & Hl & -> & -> & _).
  destruct Hl as [-> | (w1 & ->)].
  - cbn. repeat split; [lia | repeat constructor; lia].
  - unfold hqLoop.
    destruct (hq_loop_any env
                (fst (Grid.hqSurface (videoWidth env) (videoHeight env) (charSize env)))
                (snd (Grid.hqSurface (videoWidth env) (videoHeight env) (charSize env)))
                (hqTotalFrames env) (Z.to_nat (hqTotalFrames env)) 0%nat w1)
      as (_ & k & Hk & Hp & He).
    cbv zeta in Hp, He. cbv zeta. rewrite Hp, He.
    destruct (progress_list_ok (hqTotalFrames env) k Hk) as (Hn & Hf).
    split; [exact Hk | split; [exact Hn | exact Hf]].
Qed.

(** *** Runs without a fault, and runs that fail in a frame *)

Lemma gifFrame_frames env W H total i w :
  let x := gifFrame env W H total i w in
  Forall (fun e => isGifFrameEvent e = true) (events x) /\
  if throwsAtFrame env i
  then outcome x = Throw /\ gifFramesOf (events x) = []
  else outcome x = Ok tt /\
       gifFramesOf (events x) = [(W, H, paletteEmpty env i, 100)].
Proof.
  unfold gifFrame, bind, seekTo.
  destruct (Qlt_le_dec _ _); destruct (throwsAtFrame env i); cbn;
    (split; [repeat constructor | split; reflexivity]).
Qed.

Lemma gif_loop_clean env W H total :
  (forall i, throwsAtFrame env i = false) ->
  forall n start w,
    let x := forEach (seq start n) (gifFrame env W H total) w in
    outcome x = Ok tt /\
    gifFramesOf (events x) =
      map (fun i => (W, H, paletteEmpty env i, 100)) (seq start n) /\
    Forall (fun e => isGifFrameEvent e = true) (events x).
Proof.
  intros Hf. induction n as [ | n IH]; intros start w.
  - repeat split. constructor.
  - cbn [seq forEach map]. cbv zeta.
    destruct (gifFrame_frames env W H total start w) as (Ha & Hr).
    rewrite (Hf start) in Hr. destruct Hr as (Ho & Hg).
    destruct (IH (S start) (finalWorld (gifFrame env W H total start w)))
      as (Ho' & Hg' & Ha').
    rewrite events_bind, outcome_bind, Ho, gifFramesOf_app, Hg, Hg'.
    repeat split; [exact Ho' | ].
    apply Forall_app. split; assumption.
Qed.

Lemma gif_loop_throw env W H total (j : nat) :
  fault env = AtFrame j ->
  forall n start w, (start <= j < start + n)%nat ->
    let x := forEach (seq start n) (gifFrame env W H total) w in
    outcome x = Throw /\
    gifFramesOf (events x) =
      map (fun i => (W, H, paletteEmpty env i, 100)) (seq start (j - start)) /\
    Forall (fun e => isGifFrameEvent e = true) (events x).
Proof.
  intros Hf. induction n as [ | n IH]; intros start w Hj; [lia | ].
  cbn [seq forEach]. cbv zeta.
  destruct (gifFrame_frames env W H total start w) as (Ha & Hr).
  unfold throwsAtFrame in Hr. rewrite Hf in Hr.
  rewrite events_bind, outcome_bind.
  destruct (Nat.eqb start j) eqn:E.
  - apply Nat.eqb_eq in E. subst j. destruct Hr as (Ho & Hg).
    rewrite Ho, app_nil_r, Hg, Nat.sub_diag.
    repeat split. exact Ha.
  - apply Nat.eqb_neq in E. destruct Hr as (Ho & Hg).
    destruct (IH (S start) (finalWorld (gifFrame env W H total start w))
                ltac:(lia)) as (Ho' & Hg' & Ha').
    rewrite Ho, gifFramesOf_app, Hg, Hg'.
    replace (j - start)%nat with (S (j - S start)) by lia.
    repeat split; [exact Ho' | ].
    apply Forall_app. split; assumption.
Qed.

(** The job, once started, around its frame loop. *)
Lemma startGifExport_run env w :
  gifStarts env ->
  exists w1,
    let d := Grid.gifSurface (videoWidth env) (videoHeight env) (charSize env) in
    let r := forEach (seq 0 (Z.to_nat (gifTotalFrames env)))
               (gifFrame env (fst d) (snd d) (gifTotalFrames env)) w1 in
    outcome (startGifExport env w) = Ok tt /\
    events (startGifExport env w) =
      SetProgress (Some 0) :: events r ++
      match outcome r with
      | Ok _ => if faultIs env AtFlush
                then [ConsoleError; Alert "GIF Export failed: "]
                else [GifDownload]
      | Throw => [ConsoleError; Alert "GIF Export failed: "]
      end ++ [SetProgress None; Seek 0].
Proof.
  intros (Hr & Hc). unfold startGifExport. rewrite Hr, Hc. cbn [negb].
  destruct (Grid.gifSurface (videoWidth env) (videoHeight env) (charSize env))
    as [W H].
  unfold tryCatchFinally, bind.
  cbn -[forEach gifFrame cleanup gifTotalFrames].
  match goal with
  | |- context [forEach ?l ?b ?w1] =>
      exists w1; destruct (forEach l b w1) as [[r w2] t1]
  end.
  destruct r; [destruct (faultIs env AtFlush) | ]; cbn;
    rewrite <- ?app_assoc; split; reflexivity.
Qed.

Lemma no_frame_event_in_gif_loop (t : list Event) (e : Event) :
  Forall (fun e' => isGifFrameEvent e' = true) t -> isGifFrameEvent e = false ->
  ~ In e t.
Proof.
  intros Ht He Hin. rewrite Forall_forall in Ht.
  specialize (Ht e Hin). congruence.
Qed.

(** X15. A GIF export in which nothing throws writes one frame for every
    index below [floor(min(duration, 15) * 10)], in order, each of the
    snapped size and with a delay of 100 ms, and delivers the file; a
    frame whose quantization yields no palette is written with the
    one-entry black palette instead of failing the job. *)
Theorem gif_export_completes (env : Env) (w : World) :
  gifStarts env -> fault env = NoFault ->
  let x := startGifExport env w in
  outcome x = Ok tt /\
  gifFramesOf (events x) =
    map (gifFrameAt env) (seq 0 (Z.to_nat (gifTotalFrames env))) /\
  In GifDownload (events x) /\
  (forall msg, ~ In (Alert msg) (events x)).
Proof.
  intros Hs Hf x. subst x.
  destruct (startGifExport_run env w Hs) as (w1 & Ho & E). cbv zeta in E.
  set (d := Grid.gifSurface (videoWidth env) (videoHeight env) (charSize env)) in *.
  destruct (gif_loop_clean env (fst d) (snd d) (gifTotalFrames env)
              (noFault_frames env Hf) (Z.to_nat (gifTotalFrames env)) 0%nat w1)
    as (Hl & Hg & Ha).
  cbv zeta in Hl, Hg, Ha.
  rewrite Hl, (noFault_faultIs env AtFlush Hf) in E.
  split; [exact Ho | ]. rewrite E. split; [ | split].
  - cbn [gifFramesOf]. rewrite !gifFramesOf_app, Hg. cbn. now rewrite app_nil_r.
  - right. apply in_or_app. right. left. reflexivity.
  - intros msg [Hin | Hin]; [discriminate Hin | ].
    apply in_app_or in Hin. destruct Hin as [Hin | Hin].
    + exact (no_frame_event_in_gif_loop _ (Alert msg) Ha eq_refl Hin).
    + simpl in Hin. intuition discriminate.
Qed.

Lemma gif_export_completes_witness :
  let x := startGifExport
             (mkEnv 320 180 (1 # 2) false 16 true true true true true true
                    (fun _ => None) (fun i => Nat.eqb i 2) DecodeFails NoFault)
             atStart in
  outcome x = Ok tt /\
  gifFramesOf (events x) =
    [(320, 176, false, 100); (320, 176, false, 100); (320, 176, true, 100);
     (320, 176, false, 100); (320, 176, false, 100)].
Proof.
  intros x.
  destruct (gif_export_completes
              (mkEnv 320 180 (1 # 2) false 16 true true true true true true
                     (fun _ => None) (fun i => Nat.eqb i 2) DecodeFails NoFault)
              atStart (conj eq_refl eq_refl) eq_refl) as (H1 & H2 & _).
  split; [exact H1 | exact H2].
Defined.

(** X16. A throw while frame [j] of a GIF export is read back, quantized
    or written is caught: the job itself does not throw, the frames before
    [j] are all that was written, no file is delivered, the error is
    logged and reported to the user, and the progress overlay is cleared. *)
Theorem gif_export_failure_is_contained (env : Env) (w : World) (j : nat) :
  gifStarts env -> fault env = AtFrame j ->
  (j < Z.to_nat (gifTotalFrames env))%nat ->
  let x := startGifExport env w in
  outcome x = Ok tt /\
  gifFramesOf (events x) = map (gifFrameAt env) (seq 0 j) /\
  ~ In GifDownload (events x) /\
  In ConsoleError (events x) /\
  In (Alert "GIF Export failed: ") (events x) /\
  renderProgress (finalWorld x) = None.
Proof.
  intros Hs Hf Hj x. subst x.
  destruct (startGifExport_run env w Hs) as (w1 & Ho & E). cbv zeta in E.
  set (d := Grid.gifSurface (videoWidth env) (videoHeight env) (charSize env)) in *.
  destruct (gif_loop_throw env (fst d) (snd d) (gifTotalFrames env) j Hf
              (Z.to_nat (gifTotalFrames env)) 0%nat w1 ltac:(lia))
    as (Hl & Hg & Ha).
  cbv zeta in Hl, Hg, Ha. rewrite Nat.sub_0_r in Hg.
  rewrite Hl in E.
  split; [exact Ho | ]. rewrite E. repeat split.
  - cbn [gifFramesOf]. rewrite !gifFramesOf_app, Hg. cbn. now rewrite app_nil_r.
  - intros [Hin | Hin]; [discriminate Hin | ].
    apply in_app_or in Hin. destruct Hin as [Hin | Hin].
    + exact (no_frame_event_in_gif_loop _ GifDownload Ha eq_refl Hin).
    + simpl in Hin. intuition discriminate.
  - right. apply in_or_app. right. left. reflexivity.
  - right. apply in_or_app. right. right. left. reflexivity.
  - destruct Hs as (Hr & Hc).
    exact (proj1 (proj2 (proj2 (startGifExport_endsClean env Hr Hc w)))).
Qed.

Lemma gif_export_failure_is_contained_witness :
  let x := startGifExport (clip 2 (AtFrame 7) DecodeFails) atStart in
  outcome x = Ok tt /\
  gifFramesOf (events x) =
    map (gifFrameAt (clip 2 (AtFrame 7) DecodeFails)) (seq 0 7) /\
  In (Alert "GIF Export failed: ") (events x).
Proof.
  intros x.
  destruct (gif_export_failure_is_contained (clip 2 (AtFrame 7) DecodeFails)
              atStart 7 (conj eq_refl eq_refl) eq_refl
              ltac:(vm_compute; lia)) as (H1 & H2 & _ & _ & H5 & _).
  split; [exact H1 | split; [exact H2 | exact H5]].
Defined.

Lemma forEachZ_chunks (b : AudioBuffer) (l : list Z) (w : World) :
  forEachZ l (encodeAudioChunk b) w =
  (Ok tt, w,
   map (fun i =>
          EncodeAudio (Z.min (i + sampleRate b) (length b) - i)
                      (inject_Z (i * 1000000) / inject_Z (sampleRate b))%Q) l).
Proof.
  revert w. induction l as [ | i l IH]; intros w; [reflexivity | ].
  cbn [forEachZ map]. unfold bind, encodeAudioChunk, emit.
  rewrite IH. reflexivity.
Qed.

Lemma encodeAudio_run env b w :
  faultIs env AtAudioEncode = false ->
  encodeAudio env b w =
  (Ok tt,
   mkWorld (currentTime w) (muted w) (paused w) (isPlaying w)
           (recordingState w) (renderProgress w) "ENCODING AUDIO..."
           (canvasSize w),
   audioChunkEvents b).
Proof.
  intros Hf. unfold encodeAudio, bind, setRenderStatus, modify. rewrite Hf.
  cbn [mayThrow ret]. rewrite forEachZ_chunks. reflexivity.
Qed.

Lemma audioChunkEvents_measures (b : AudioBuffer) :
  videoFramesOf (audioChunkEvents b) = [] /\
  encodeOrder (audioChunkEvents b) =
    repeat AudioTrack (List.length (audioChunkEvents b)) /\
  Forall (fun e => isFrameEvent e = false) (audioChunkEvents b).
Proof.
  unfold audioChunkEvents.
  induction (chunkStarts (Z.to_nat (length b)) 0 (length b) (sampleRate b))
    as [ | i l (I1 & I2 & I3)]; [repeat split; constructor | ].
  cbn. rewrite I1, I2. repeat split. constructor; [reflexivity | exact I3].
Qed.

Lemma hqFrame_clean env W H total i w :
  throwsAtFrame env i = false ->
  let x := hqFrame env W H total i w in
  videoFramesOf (events x) = [videoFrameAt i] /\
  encodeOrder (events x) = [VideoTrack].
Proof.
  intros Hf. unfold hqFrame, hqSeek, bind. rewrite Hf. cbn. now split.
Qed.

Lemma hq_loop_clean env W H total :
  (forall i, throwsAtFrame env i = false) ->
  forall n start w,
    let x := forEach (seq start n) (hqFrame env W H total) w in
    videoFramesOf (events x) = map videoFrameAt (seq start n) /\
    encodeOrder (events x) = repeat VideoTrack n.
Proof.
  intros Hf. induction n as [ | n IH]; intros start w; [now split | ].
  cbn [seq forEach map repeat]. cbv zeta.
  destruct (hqFrame_run env W H total start w (Hf start)) as (Ho & _ & _).
  destruct (hqFrame_clean env W H total start w (Hf start)) as (Hv & He).
  destruct (IH (S start) (finalWorld (hqFrame env W H total start w)))
    as (Hv' & He').
  rewrite events_bind, Ho, videoFramesOf_app, encodeOrder_app, Hv, He, Hv', He'.
  now split.
Qed.

(** The HQ render in which nothing throws, around its frame loop. *)
Lemma startOfflineRender_run env withAudio w :
  hqReachesTry env withAudio -> fault env = NoFault ->
  exists w1,
    let d := Grid.hqSurface (videoWidth env) (videoHeight env) (charSize env) in
    let audio := audioResult env withAudio in
    outcome (startOfflineRender env withAudio w) = Ok tt /\
    events (startOfflineRender env withAudio w) =
      SetProgress (Some 0) :: audioWarnings env withAudio ++
      [AddTrack VideoTrack] ++
      match fst audio with Some _ => [AddTrack AudioTrack] | None => [] end ++
      [ConfigureVideo (fst d) (snd d)] ++
      match fst audio with Some b => audioChunkEvents b | None => [] end ++
      hqLoop env w1 ++
      (if snd audio then [CloseAudioContext] else []) ++
      [Mp4Download (tracksOf (fst audio)); SetProgress None; Seek 0].
Proof.
  intros Hg Hf.
  destruct (hqGuards env withAudio Hg) as (G1 & G2 & G3 & G4 & G5).
  unfold startOfflineRender, extractAudio, audioWarnings, audioResult, hqLoop.
  rewrite G1, G2, G3, G4, G5, !(noFault_faultIs env _ Hf).
  destruct (Grid.hqSurface (videoWidth env) (videoHeight env) (charSize env))
    as [W H].
  destruct (withAudio && sourceHasUrl env)%bool;
    [destruct (audioOutcome env) as [ | | b] | ];
    unfold tryCatchFinally, bind;
    cbn -[forEach hqFrame cleanup hqTotalFrames encodeAudio];
    rewrite ?encodeAudio_run by (apply noFault_faultIs; exact Hf);
    cbn -[forEach hqFrame cleanup hqTotalFrames audioChunkEvents];
    match goal with
    | |- context [forEach ?l ?b ?w1] =>
        exists w1;
        destruct (hq_loop env W H (hqTotalFrames env) (noFault_frames env Hf)
                    (Z.to_nat (hqTotalFrames env)) 0%nat w1) as (Ho & _ & _);
        destruct (forEach l b w1) as [[r w2] t1]
    end;
    cbn in Ho; subst r; cbn -[audioChunkEvents];
    rewrite <- ?app_assoc; cbn -[audioChunkEvents]; split; reflexivity.
Qed.



Lemma audioFramesOf_app t1 t2 :
  audioFramesOf (t1 ++ t2) = audioFramesOf t1 ++ audioFramesOf t2.
Proof.
  induction t1 as [ | e t1 IH]; [reflexivity | ].
  destruct e; simpl; now rewrite ?IH.
Qed.

Lemma frameEvents_no_audio (t : list Event) :
  Forall (fun e => isFrameEvent e = true) t -> audioFramesOf t = [].
Proof.
  induction 1 as [ | e l He _ IH]; [reflexivity | ].
  destruct e; try discriminate He; exact IH.
Qed.

(** X18. When the audio decodes and nothing throws, the HQ render adds an
    audio track beside the video track, hands every audio chunk to its
    encoder before the first video frame is submitted, and delivers a
    container with both tracks. *)
Theorem hq_render_audio_precedes_video
    (env : Env) (w : World) (b : AudioBuffer) :
  hqReachesTry env true -> sourceHasUrl env = true ->
  audioOutcome env = Decoded b -> fault env = NoFault ->
  let t := events (startOfflineRender env true w) in
  In (AddTrack AudioTrack) t /\
  In (Mp4Download [VideoTrack; AudioTrack]) t /\
  audioFramesOf t = audioFramesOf (audioChunkEvents b) /\
  encodeOrder t =
    repeat AudioTrack (List.length (audioChunkEvents b)) ++
    repeat VideoTrack (Z.to_nat (hqTotalFrames env)).
Proof.
  intros Hg Hu Ha Hf t. subst t.
  destruct (startOfflineRender_run env true w Hg Hf) as (w1 & _ & E).
  cbv zeta in E. unfold audioWarnings, audioResult in E.
  rewrite Hu, Ha in E. cbn [andb fst snd app tracksOf] in E.
  set (d := Grid.hqSurface (videoWidth env) (videoHeight env) (charSize env)) in *.
  destruct (hq_loop env (fst d) (snd d) (hqTotalFrames env)
              (noFault_frames env Hf)
              (Z.to_nat (hqTotalFrames env)) 0%nat w1) as (_ & _ & Hall).
  cbv zeta in Hall.
  change (Forall (fun e => isFrameEvent e = true) (hqLoop env w1)) in Hall.
  rewrite E. split; [ | split; [ | split]].
  - right. right. left. reflexivity.
  - do 4 right. apply in_or_app. right. apply in_or_app. right.
    right. left. reflexivity.
  - cbn [audioFramesOf].
    rewrite !audioFramesOf_app, (frameEvents_no_audio _ Hall).
    cbn. now rewrite app_nil_r.
  - cbn [encodeOrder]. rewrite !encodeOrder_app. unfold hqLoop.
    rewrite (proj2 (hq_loop_clean env _ _ (hqTotalFrames env)
                      (noFault_frames env Hf) _ 0%nat w1)).
    rewrite (proj1 (proj2 (audioChunkEvents_measures b))).
    cbn. now rewrite app_nil_r.
Qed.

Lemma hq_render_audio_precedes_video_witness :
  let b := mkAudio 48000 2 100000 in
  let t := events (startOfflineRender
                     (clip (1 # 10) NoFault (Decoded b)) true atStart) in
  In (Mp4Download [VideoTrack; AudioTrack]) t /\
  encodeOrder t =
    [AudioTrack; AudioTrack; AudioTrack; VideoTrack; VideoTrack; VideoTrack].
Proof.
  intros b t.
  assert (Hq : hqReachesTry (clip (1 # 10) NoFault (Decoded b)) true).
  { unfold hqReachesTry. repeat split; try reflexivity; discriminate. }
  destruct (hq_render_audio_precedes_video
              (clip (1 # 10) NoFault (Decoded b)) atStart b Hq
              eq_refl eq_refl eq_refl) as (_ & H2 & _ & H4).
  split; [exact H2 | exact H4].
Defined.

(** *** The audio chunks *)

Lemma chunkCount_step (x cs : Z) : 0 < cs -> 0 < x ->
  chunkCount x cs = 1 + chunkCount (Z.max 0 (x - cs)) cs.
Proof.
  intros Hc Hx. unfold chunkCount.
  destruct (Z.le_gt_cases x cs) as [H | H].
  - rewrite Z.max_l by lia.
    replace ((0 + cs - 1) / cs) with 0 by (symmetry; apply Z.div_small; lia).
    symmetry. apply (Z.div_unique_pos _ _ _ (x - 1)); lia.
  - rewrite Z.max_r by lia.
    replace (x + cs - 1) with (1 * cs + (x - cs + cs - 1)) by lia.
    rewrite Z.div_add_l by lia. reflexivity.
Qed.

Lemma chunkCount_zero (cs : Z) : 0 < cs -> chunkCount 0 cs = 0.
Proof. intros H. unfold chunkCount. apply Z.div_small. lia. Qed.

(** The loop over the chunks, for enough fuel. *)
Lemma chunkStarts_partition (len cs : Z) : 0 < cs ->
  forall fuel i, len - i <= Z.of_nat fuel ->
    let l := chunkStarts fuel i len cs in
    sumZ (map (fun s => Z.min (s + cs) len - s) l) = Z.max 0 (len - i) /\
    Forall (fun s => 1 <= Z.min (s + cs) len - s <= cs) l /\
    Z.of_nat (List.length l) = chunkCount (Z.max 0 (len - i)) cs /\
    (forall k s, nth_error l k = Some s -> s = i + Z.of_nat k * cs).
Proof.
  intros Hc. induction fuel as [ | fuel IH]; intros i Hi.
  - cbn. rewrite Z.max_l by lia. rewrite chunkCount_zero by assumption.
    split; [reflexivity | split; [constructor | split; [reflexivity | ]]].
    intros [ | k] s E; discriminate E.
  - cbn [chunkStarts]. destruct (i <? len) eqn:E.
    + apply Z.ltb_lt in E.
      destruct (IH (i + cs) ltac:(lia)) as (I1 & I2 & I3 & I4).
      cbv zeta in *. cbn [map sumZ fold_right List.length].
      fold (sumZ (map (fun s => Z.min (s + cs) len - s)
                      (chunkStarts fuel (i + cs) len cs))).
      rewrite I1. split; [ | split; [ | split]].
      * lia.
      * constructor; [lia | exact I2].
      * rewrite Nat2Z.inj_succ, I3.
        rewrite (chunkCount_step (Z.max 0 (len - i)) cs) by lia.
        replace (Z.max 0 (Z.max 0 (len - i) - cs))
          with (Z.max 0 (len - (i + cs))) by lia.
        lia.
      * intros [ | k] s Hk.
        -- injection Hk as <-. lia.
        -- cbn in Hk. apply I4 in Hk. lia.
    + apply Z.ltb_ge in E. cbn. rewrite Z.max_l by lia.
      rewrite chunkCount_zero by assumption.
      split; [reflexivity | split; [constructor | split; [reflexivity | ]]].
      intros [ | k] s Hk; discriminate Hk.
Qed.

Lemma audioFramesOf_chunks (b : AudioBuffer) (l : list Z) :
  audioFramesOf
    (map (fun i =>
            EncodeAudio (Z.min (i + sampleRate b) (length b) - i)
                        (inject_Z (i * 1000000) / inject_Z (sampleRate b))%Q) l)
  = map (fun s => Z.min (s + sampleRate b) (length b) - s) l.
Proof. induction l as [ | i l IH]; [reflexivity | ]. cbn. now rewrite IH. Qed.

Lemma audioStampsOf_chunks (b : AudioBuffer) (l : list Z) :
  audioStampsOf
    (map (fun i =>
            EncodeAudio (Z.min (i + sampleRate b) (length b) - i)
                        (inject_Z (i * 1000000) / inject_Z (sampleRate b))%Q) l)
  = map (fun i => (inject_Z (i * 1000000) / inject_Z (sampleRate b))%Q) l.
Proof. induction l as [ | i l IH]; [reflexivity | ]. cbn. now rewrite IH. Qed.

(** X19. The audio is cut into chunks that cover the decoded buffer
    exactly once: for a positive sample rate the frame counts of the
    chunks handed to the encoder add up to the length of the buffer, every
    chunk holds at least one frame and at most one second of frames, and
    there are [ceil(length / sampleRate)] of them. *)
Theorem audio_chunks_cover_buffer (env : Env) (b : AudioBuffer) (w : World) :
  0 < sampleRate b -> 0 <= length b -> fault env <> AtAudioEncode ->
  let x := encodeAudio env b w in
  outcome x = Ok tt /\
  sumZ (audioFramesOf (events x)) = length b /\
  Forall (fun n => 1 <= n <= sampleRate b) (audioFramesOf (events x)) /\
  Z.of_nat (List.length (audioFramesOf (events x))) =
    chunkCount (length b) (sampleRate b).
Proof.
  intros Hs Hl Hf x. subst x.
  assert (Hf' : faultIs env AtAudioEncode = false).
  { unfold faultIs. destruct (fault env); congruence. }
  rewrite (encodeAudio_run env b w Hf'). cbn [outcome events fst snd].
  unfold audioChunkEvents. rewrite audioFramesOf_chunks.
  destruct (chunkStarts_partition (length b) (sampleRate b) Hs
              (Z.to_nat (length b)) 0 ltac:(lia)) as (H1 & H2 & H3 & _).
  cbv zeta in H1, H2, H3.
  rewrite Z.sub_0_r, Z.max_r in H1, H3 by lia.
  repeat split.
  - exact H1.
  - apply Forall_map. exact H2.
  - rewrite length_map. exact H3.
Qed.

Lemma audio_chunks_cover_buffer_witness :
  let b := mkAudio 48000 2 100000 in
  let x := encodeAudio (clip 1 NoFault (Decoded b)) b atStart in
  audioFramesOf (events x) = [48000; 48000; 4000] /\
  sumZ (audioFramesOf (events x)) = 100000.
Proof.
  intros b x.
  destruct (audio_chunks_cover_buffer (clip 1 NoFault (Decoded b)) b atStart
              ltac:(reflexivity) ltac:(discriminate) ltac:(discriminate))
    as (_ & H2 & _).
  split; [reflexivity | exact H2].
Defined.

(** X20. Chunk [k] of the audio is stamped with second [k]: for a positive
    sample rate the timestamp handed to the encoder with the chunk of index
    [k] equals [k * 1000000] microseconds. *)
Theorem audio_chunk_timestamps (env : Env) (b : AudioBuffer) (w : World) :
  0 < sampleRate b -> fault env <> AtAudioEncode ->
  forall k ts,
    nth_error (audioStampsOf (events (encodeAudio env b w))) k = Some ts ->
    (ts == inject_Z (Z.of_nat k * 1000000))%Q.
Proof.
  intros Hs Hf k ts Hk.
  assert (Hf' : faultIs env AtAudioEncode = false).
  { unfold faultIs. destruct (fault env); congruence. }
  rewrite (encodeAudio_run env b w Hf') in Hk. cbn [events snd] in Hk.
  unfold audioChunkEvents in Hk. rewrite audioStampsOf_chunks in Hk.
  rewrite nth_error_map in Hk.
  destruct (nth_error (chunkStarts (Z.to_nat (length b)) 0 (length b)
                         (sampleRate b)) k) as [s | ] eqn:E;
    [ | discriminate Hk].
  injection Hk as <-.
  destruct (chunkStarts_partition (length b) (sampleRate b) Hs
              (Z.to_nat (length b)) 0 ltac:(lia)) as (_ & _ & _ & H4).
  apply H4 in E. subst s. rewrite Z.add_0_l.
  replace (Z.of_nat k * sampleRate b * 1000000)
    with (Z.of_nat k * 1000000 * sampleRate b) by ring.
  rewrite inject_Z_mult. apply Qdiv_mult_l.
  intros H0. unfold Qeq in H0. simpl in H0. lia.
Qed.

Lemma audio_chunk_timestamps_witness :
  let b := mkAudio 48000 2 100000 in
  exists ts,
    nth_error (audioStampsOf
                 (events (encodeAudio (clip 1 NoFault (Decoded b)) b atStart)))
              2 = Some ts /\
    (ts == 2000000)%Q.
Proof.
  intros b. eexists. split; [reflexivity | ].
  exact (audio_chunk_timestamps (clip 1 NoFault (Decoded b)) b atStart
           ltac:(reflexivity) ltac:(discriminate) 2%nat _ eq_refl).
Defined.

(** *** A throw in a frame of the HQ render *)

Lemma hqFrame_throws env W H total i w :
  throwsAtFrame env i = true ->
  let x := hqFrame env W H total i w in
  outcome x = Throw /\ framesEncoded (events x) = 0%nat /\
  Forall (fun e => isFrameEvent e = true) (events x).
Proof.
  intros Hf. unfold hqFrame, hqSeek, bind. rewrite Hf. cbn.
  repeat split. repeat constructor.
Qed.

Lemma hq_loop_throw env W H total (j : nat) :
  fault env = AtFrame j ->
  forall n start w, (start <= j < start + n)%nat ->
    let x := forEach (seq start n) (hqFrame env W H total) w in
    outcome x = Throw /\
    framesEncoded (events x) = (j - start)%nat /\
    Forall (fun e => isFrameEvent e = true) (events x).
Proof.
  intros Hf. induction n as [ | n IH]; intros start w Hj; [lia | ].
  cbn [seq forEach]. cbv zeta. rewrite events_bind, outcome_bind.
  destruct (Nat.eqb start j) eqn:E.
  - assert (Ht : throwsAtFrame env start = true).
    { unfold throwsAtFrame. now rewrite Hf. }
    apply Nat.eqb_eq in E. subst j.
    destruct (hqFrame_throws env W H total start w Ht) as (Ho & He & Ha).
    rewrite Ho, app_nil_r, He, Nat.sub_diag. repeat split. exact Ha.
  - assert (Ht : throwsAtFrame env start = false).
    { unfold throwsAtFrame. now rewrite Hf. }
    apply Nat.eqb_neq in E.
    destruct (hqFrame_run env W H total start w Ht) as (Ho & He & Ha).
    destruct (IH (S start) (finalWorld (hqFrame env W H total start w))
                ltac:(lia)) as (Ho' & He' & Ha').
    rewrite Ho, framesEncoded_app, He, He'.
    repeat split; [exact Ho' | lia | ].
    apply Forall_app. split; assumption.
Qed.

Lemma frameFault_faultIs env j f : fault env = AtFrame j -> faultIs env f = false.
Proof. intros H. unfold faultIs. now rewrite H. Qed.

(** The HQ render whose only fault is a throw in frame [j]. *)
Lemma startOfflineRender_run_throw env withAudio w j :
  hqReachesTry env withAudio -> fault env = AtFrame j ->
  (j < Z.to_nat (hqTotalFrames env))%nat ->
  exists w1,
    let d := Grid.hqSurface (videoWidth env) (videoHeight env) (charSize env) in
    let audio := audioResult env withAudio in
    outcome (startOfflineRender env withAudio w) = Ok tt /\
    events (startOfflineRender env withAudio w) =
      SetProgress (Some 0) :: audioWarnings env withAudio ++
      [AddTrack VideoTrack] ++
      match fst audio with Some _ => [AddTrack AudioTrack] | None => [] end ++
      [ConfigureVideo (fst d) (snd d)] ++
      match fst audio with Some b => audioChunkEvents b | None => [] end ++
      hqLoop env w1 ++
      [ConsoleError; Alert "Render failed."; SetProgress None; Seek 0].
Proof.
  intros Hg Hf Hj.
  destruct (hqGuards env withAudio Hg) as (G1 & G2 & G3 & G4 & G5).
  unfold startOfflineRender, extractAudio, audioWarnings, audioResult, hqLoop.
  rewrite G1, G2, G3, G4, G5.
  destruct (Grid.hqSurface (videoWidth env) (videoHeight env) (charSize env))
    as [W H].
  destruct (withAudio && sourceHasUrl env)%bool;
    [destruct (audioOutcome env) as [ | | b] | ];
    unfold tryCatchFinally, bind;
    cbn -[forEach hqFrame cleanup hqTotalFrames encodeAudio];
    rewrite ?encodeAudio_run by (eapply frameFault_faultIs; exact Hf);
    cbn -[forEach hqFrame cleanup hqTotalFrames audioChunkEvents];
    match goal with
    | |- context [forEach ?l ?b ?w1] =>
        exists w1;
        destruct (hq_loop_throw env W H (hqTotalFrames env) j Hf
                    (Z.to_nat (hqTotalFrames env)) 0%nat w1 ltac:(lia))
          as (Ho & _ & _);
        destruct (forEach l b w1) as [[r w2] t1]
    end;
    cbn in Ho; subst r; cbn -[audioChunkEvents];
    rewrite <- ?app_assoc; cbn -[audioChunkEvents]; split; reflexivity.
Qed.

Lemma in_audioChunkEvents (b : AudioBuffer) (e : Event) :
  In e (audioChunkEvents b) -> exists n ts, e = EncodeAudio n ts.
Proof.
  unfold audioChunkEvents. intros Hin. apply in_map_iff in Hin.
  destruct Hin as (i & <- & _). eauto.
Qed.

Lemma in_audioWarnings env withAudio (e : Event) :
  In e (audioWarnings env withAudio) ->
  e = ConsoleWarn "Audio extraction failed".
Proof.
  unfold audioWarnings.
  destruct (withAudio && sourceHasUrl env)%bool;
    [destruct (audioOutcome env) | ]; simpl; intuition.
Qed.

(** X27. A throw while frame [j] of an HQ render is drawn or encoded is
    caught: the job itself does not throw, [j] frames were handed to the
    video encoder, no container is delivered, the error is logged and
    reported as "Render failed.", and the progress overlay is cleared. *)
Theorem hq_render_failure_is_contained
    (env : Env) (withAudio : bool) (w : World) (j : nat) :
  hqReachesTry env withAudio -> fault env = AtFrame j ->
  (j < Z.to_nat (hqTotalFrames env))%nat ->
  let x := startOfflineRender env withAudio w in
  outcome x = Ok tt /\
  framesEncoded (events x) = j /\
  (forall tracks, ~ In (Mp4Download tracks) (events x)) /\
  In ConsoleError (events x) /\
  In (Alert "Render failed.") (events x) /\
  renderProgress (finalWorld x) = None.
Proof.
  intros Hg Hf Hj x. subst x.
  destruct (startOfflineRender_run_throw env withAudio w j Hg Hf Hj)
    as (w1 & Ho & E).
  cbv zeta in E.
  set (d := Grid.hqSurface (videoWidth env) (videoHeight env) (charSize env)) in *.
  destruct (hq_loop_throw env (fst d) (snd d) (hqTotalFrames env) j Hf
              (Z.to_nat (hqTotalFrames env)) 0%nat w1 ltac:(lia))
    as (_ & He & Ha).
  cbv zeta in He, Ha.
  change (framesEncoded (hqLoop env w1) = (j - 0)%nat) in He.
  change (Forall (fun e => isFrameEvent e = true) (hqLoop env w1)) in Ha.
  rewrite Nat.sub_0_r in He.
  assert (Hpre : forall t, Forall (fun e => isQuiet e = true) t ->
            framesEncoded t = 0%nat).
  { intros t Ht. apply (quiet_measures t Ht). }
  assert (Hw : Forall (fun e => isQuiet e = true) (audioWarnings env withAudio)).
  { apply Forall_forall. intros e Hin. apply in_audioWarnings in Hin.
    now subst e. }
  assert (Hc : forall b, Forall (fun e => isQuiet e = true) (audioChunkEvents b)).
  { intros b. apply Forall_forall. intros e Hin.
    apply in_audioChunkEvents in Hin. destruct Hin as (n & ts & ->).
    reflexivity. }
  split; [exact Ho | ]. rewrite E. split; [ | split; [ | split; [ | split]]].
  - cbn [framesEncoded]. rewrite !framesEncoded_app, He, (Hpre _ Hw).
    destruct (fst (audioResult env withAudio)) as [b | ];
      rewrite ?(Hpre _ (Hc _)); cbn; lia.
  - intros tracks [Hin | Hin]; [discriminate Hin | ].
    repeat (apply in_app_or in Hin; destruct Hin as [Hin | Hin]).
    + apply in_audioWarnings in Hin. discriminate Hin.
    + simpl in Hin. intuition discriminate.
    + destruct (fst (audioResult env withAudio)); simpl in Hin;
        intuition discriminate.
    + simpl in Hin. intuition discriminate.
    + destruct (fst (audioResult env withAudio)) as [b | ];
        [ | contradiction Hin].
      apply in_audioChunkEvents in Hin. destruct Hin as (n & ts & Hin).
      discriminate Hin.
    + exact (frameEvents_exclude _ (Mp4Download tracks) Ha eq_refl Hin).
    + simpl in Hin. intuition discriminate.
  - right. do 6 (apply in_or_app; right). left. reflexivity.
  - right. do 6 (apply in_or_app; right). right. left. reflexivity.
  - exact (proj1 (proj2 (proj2 (startOfflineRender_endsClean env withAudio Hg w)))).
Qed.

Lemma hq_render_failure_is_contained_witness :
  let x := startOfflineRender (clip 1 (AtFrame 12) DecodeFails) true atStart in
  outcome x = Ok tt /\ framesEncoded (events x) = 12%nat /\
  In (Alert "Render failed.") (events x).
Proof.
  intros x.
  assert (Hq : hqReachesTry (clip 1 (AtFrame 12) DecodeFails) true).
  { unfold hqReachesTry. repeat split; try reflexivity; discriminate. }
  destruct (hq_render_failure_is_contained (clip 1 (AtFrame 12) DecodeFails)
              true atStart 12 Hq eq_refl ltac:(vm_compute; lia))
    as (H1 & H2 & _ & _ & H5 & _).
  split; [exact H1 | split; [exact H2 | exact H5]].
Defined.

End ExportProperties.

(* ------------------------------------------------------------------ *)
(** ** Properties of the interleaved audio *)

Module AudioProperties.
Import Audio.

Section Interleave.

Variable sample : Type.
Variable zero : sample.
Variable getChannelData : nat -> nat -> sample.

Local Abbreviation store := (store sample).
Local Abbreviation storeFrame := (storeFrame sample getChannelData).
Local Abbreviation interleaved := (interleaved sample zero getChannelData).
Local Abbreviation chunkData := (chunkData sample zero getChannelData).

Lemma store_length a k v : List.length (store a k v) = List.length a.
Proof.
  unfold Audio.store. destruct (k <? List.length a)%nat eqn:E; [ | reflexivity].
  apply Nat.ltb_lt in E.
  rewrite length_app, length_firstn. cbn [List.length].
  rewrite length_skipn. lia.
Qed.

Lemma nth_store_same a k v d :
  (k < List.length a)%nat -> nth k (store a k v) d = v.
Proof.
  intros H. unfold Audio.store. apply Nat.ltb_lt in H as H'. rewrite H'.
  rewrite app_nth2; rewrite length_firstn; [ | lia].
  replace (k - Nat.min k (List.length a))%nat with 0%nat by lia. reflexivity.
Qed.

Lemma nth_store_other a k k' v d :
  k <> k' -> nth k' (store a k v) d = nth k' a d.
Proof.
  intros H. unfold Audio.store.
  destruct (k <? List.length a)%nat eqn:E; [ | reflexivity].
  apply Nat.ltb_lt in E.
  destruct (Nat.lt_ge_cases k' k) as [Hlt | Hge].
  - rewrite app_nth1 by (rewrite length_firstn; lia).
    rewrite nth_firstn. apply Nat.ltb_lt in Hlt. now rewrite Hlt.
  - rewrite app_nth2 by (rewrite length_firstn; lia).
    rewrite length_firstn.
    replace (k' - Nat.min k (List.length a))%nat with (S (k' - S k)) by lia.
    cbn [nth]. rewrite nth_skipn. f_equal. lia.
Qed.

(** The loop over the channels of frame [i], from channel [c] on. *)
Lemma channels_loop (n i : nat) : forall m c a,
  (c + m <= n)%nat -> ((i + 1) * n <= List.length a)%nat ->
  let a' := fold_left
              (fun a ch => store a (i * n + ch) (getChannelData ch i))
              (seq c m) a in
  List.length a' = List.length a /\
  (forall ch, (c <= ch < c + m)%nat ->
     nth (i * n + ch) a' zero = getChannelData ch i) /\
  (forall k, (k < i * n + c \/ i * n + c + m <= k)%nat ->
     nth k a' zero = nth k a zero).
Proof.
  induction m as [ | m IH]; intros c a Hc Ha.
  - cbn. split; [reflexivity | split; [intros ch H; lia | reflexivity]].
  - cbn [seq fold_left].
    destruct (IH (S c) (store a (i * n + c) (getChannelData c i))
                ltac:(lia) ltac:(rewrite store_length; lia))
      as (I1 & I2 & I3).
    cbv zeta in *. rewrite store_length in I1.
    split; [exact I1 | split].
    + intros ch Hch. destruct (Nat.eq_dec ch c) as [-> | Hne].
      * rewrite I3 by lia. apply nth_store_same. nia.
      * apply I2. lia.
    + intros k Hk. rewrite I3 by lia. apply nth_store_other. lia.
Qed.

Lemma storeFrame_spec (n i : nat) (a : list sample) :
  ((i + 1) * n <= List.length a)%nat ->
  List.length (storeFrame n i a) = List.length a /\
  (forall ch, (ch < n)%nat ->
     nth (i * n + ch) (storeFrame n i a) zero = getChannelData ch i) /\
  (forall k, (k < i * n \/ (i + 1) * n <= k)%nat ->
     nth k (storeFrame n i a) zero = nth k a zero).
Proof.
  intros Ha. unfold Audio.storeFrame.
  destruct (channels_loop n i n 0 a ltac:(lia) Ha) as (H1 & H2 & H3).
  cbv zeta in *. split; [exact H1 | split].
  - intros ch Hch. apply H2. lia.
  - intros k Hk. apply H3. lia.
Qed.

(** The loop over the frames, from frame [c] on. *)
Lemma frames_loop (n : nat) : forall m c a,
  ((c + m) * n <= List.length a)%nat ->
  let a' := fold_left (fun a i => storeFrame n i a) (seq c m) a in
  List.length a' = List.length a /\
  (forall i ch, (c <= i < c + m)%nat -> (ch < n)%nat ->
     nth (i * n + ch) a' zero = getChannelData ch i) /\
  (forall k, (k < c * n \/ (c + m) * n <= k)%nat ->
     nth k a' zero = nth k a zero).
Proof.
  induction m as [ | m IH]; intros c a Ha.
  - cbn. split; [reflexivity | split; [intros i ch H; lia | reflexivity]].
  - cbn [seq fold_left].
    destruct (storeFrame_spec n c a ltac:(nia)) as (S1 & S2 & S3).
    destruct (IH (S c) (storeFrame n c a) ltac:(rewrite S1; nia))
      as (I1 & I2 & I3).
    cbv zeta in *. rewrite S1 in I1.
    split; [exact I1 | split].
    + intros i ch Hi Hch. destruct (Nat.eq_dec i c) as [-> | Hne].
      * rewrite I3 by nia. now apply S2.
      * apply I2; lia.
    + intros k Hk. rewrite I3 by nia. apply S3. nia.
Qed.

Lemma interleaved_spec (n len : nat) :
  List.length (interleaved n len) = (len * n)%nat /\
  forall i ch, (i < len)%nat -> (ch < n)%nat ->
    nth (i * n + ch) (interleaved n len) zero = getChannelData ch i.
Proof.
  unfold Audio.interleaved.
  destruct (frames_loop n len 0 (repeat zero (len * n))
              ltac:(rewrite repeat_length; lia)) as (H1 & H2 & _).
  cbv zeta in *. rewrite repeat_length in H1.
  split; [exact H1 | ]. intros i ch Hi Hch. apply H2; lia.
Qed.

(** X21. The interleaving loop fills the whole array and puts every sample
    where an interleaved stream has it: the array has
    [length * numberOfChannels] entries, and the entry at
    [i * numberOfChannels + ch] is sample [i] of channel [ch], for every
    frame [i] and channel [ch] of the buffer. *)
Theorem interleaved_layout (numberOfChannels length i ch : nat) :
  (i < length)%nat -> (ch < numberOfChannels)%nat ->
  List.length (interleaved numberOfChannels length) =
    (length * numberOfChannels)%nat /\
  nth (i * numberOfChannels + ch) (interleaved numberOfChannels length) zero =
    getChannelData ch i.
Proof.
  intros Hi Hch.
  destruct (interleaved_spec numberOfChannels length) as (H1 & H2).
  split; [exact H1 | now apply H2].
Qed.

(** X22. A chunk handed to the audio encoder holds exactly the frames it
    declares: the chunk that starts at frame [i] has
    [(end - i) * numberOfChannels] samples, where
    [end = min(i + chunkSize, length)], and its entry at
    [j * numberOfChannels + ch] is sample [i + j] of channel [ch]. *)
Theorem chunkData_frames (numberOfChannels length chunkSize i j ch : nat) :
  (i < length)%nat -> (i + j < Nat.min (i + chunkSize) length)%nat ->
  (ch < numberOfChannels)%nat ->
  List.length (chunkData numberOfChannels length chunkSize i) =
    ((Nat.min (i + chunkSize) length - i) * numberOfChannels)%nat /\
  nth (j * numberOfChannels + ch)
      (chunkData numberOfChannels length chunkSize i) zero =
    getChannelData ch (i + j).
Proof.
  intros Hi Hj Hch.
  destruct (interleaved_spec numberOfChannels length) as (H1 & H2).
  unfold Audio.chunkData, Audio.subarray. cbv zeta. split.
  - rewrite length_firstn, length_skipn, H1. nia.
  - rewrite nth_firstn.
    replace (j * numberOfChannels + ch <?
             Nat.min (i + chunkSize) length * numberOfChannels -
             i * numberOfChannels)%nat with true
      by (symmetry; apply Nat.ltb_lt; nia).
    rewrite nth_skipn.
    replace (i * numberOfChannels + (j * numberOfChannels + ch))%nat
      with ((i + j) * numberOfChannels + ch)%nat by lia.
    apply H2; lia.
Qed.

End Interleave.

(** Two channels of three frames: left holds 10, 11, 12 and right holds
    20, 21, 22. *)
Lemma interleaved_layout_witness :
  nth (1 * 2 + 1)
      (Audio.interleaved nat 0%nat (fun ch i => (10 * (ch + 1) + i)%nat) 2 3)
      0%nat = 21%nat.
Proof.
  exact (proj2 (interleaved_layout nat 0%nat
                  (fun ch i => (10 * (ch + 1) + i)%nat) 2 3 1 1
                  ltac:(lia) ltac:(lia))).
Defined.

Lemma chunkData_frames_witness :
  List.length
    (Audio.chunkData nat 0%nat (fun ch i => (10 * (ch + 1) + i)%nat) 2 5 2 4)
  = 2%nat.
Proof.
  exact (proj1 (chunkData_frames nat 0%nat
                  (fun ch i => (10 * (ch + 1) + i)%nat) 2 5 2 4 0 0
                  ltac:(lia) ltac:(simpl; lia) ltac:(lia))).
Defined.

End AudioProperties.

(* ------------------------------------------------------------------ *)
(** ** Properties of the live recorder and of the preview size *)

Module LiveProperties.
Import Live Recorder Preview.

Lemma video_of_clones (s : MediaStream) :
  getVideoTracks (map clone (getAudioTracks s)) = [].
Proof.
  unfold getVideoTracks, getAudioTracks.
  induction s as [ | t s IH]; [reflexivity | ].
  simpl. destruct t as [[ | ] n c]; simpl; exact IH.
Qed.

Lemma video_of_video (s : MediaStream) :
  getVideoTracks (getVideoTracks s) = getVideoTracks s.
Proof.
  unfold getVideoTracks.
  induction s as [ | t s IH]; [reflexivity | ].
  simpl. destruct (isKind video t) eqn:E; [ | exact IH].
  simpl. rewrite E, IH. reflexivity.
Qed.

Lemma clones_are_clones (s : MediaStream) :
  Forall (fun t => isClone t = true) (map clone s).
Proof. apply Forall_forall. intros t Hin. apply in_map_iff in Hin.
  destruct Hin as (t0 & <- & _). reflexivity. Qed.

Lemma audio_of_mixed (canvasStream : MediaStream) (o : option MediaStream) :
  getVideoTracks (addAudioTracks (getVideoTracks canvasStream) o) =
    getVideoTracks canvasStream /\
  Forall (fun t => isClone t = true)
    (getAudioTracks (addAudioTracks (getVideoTracks canvasStream) o)).
Proof.
  unfold addAudioTracks. destruct o as [st | ].
  - split.
    + unfold getVideoTracks at 1. rewrite filter_app.
      fold (getVideoTracks (getVideoTracks canvasStream)).
      fold (getVideoTracks (map clone (getAudioTracks st))).
      rewrite video_of_video, video_of_clones. apply app_nil_r.
    + unfold getAudioTracks at 1. rewrite filter_app.
      fold (getAudioTracks (getVideoTracks canvasStream)).
      rewrite ExporterFacts.audio_of_video_tracks. cbn [app].
      apply Forall_forall. intros t Hin. apply filter_In in Hin.
      destruct Hin as (Hin & _).
      apply in_map_iff in Hin. destruct Hin as (t0 & <- & _). reflexivity.
  - split; [apply video_of_video | ].
    rewrite ExporterFacts.audio_of_video_tracks. constructor.
Qed.

(** X23. The live recorder never records a track of the source itself:
    whatever the source, the capture stream and the mute flag, the video
    tracks of the mixed stream are the video tracks of the canvas and
    every audio track in it is a clone, so stopping the tracks of the
    recording cannot stop the audio of the source. *)
Theorem mixed_stream_holds_only_clones
    (source : option MediaSource) (canvasStream : MediaStream)
    (videoCapture : option MediaStream) (isMuted : bool) :
  let mixed := mixedStreamOf source canvasStream videoCapture isMuted in
  getVideoTracks mixed = getVideoTracks canvasStream /\
  Forall (fun t => isClone t = true) (getAudioTracks mixed).
Proof.
  unfold mixedStreamOf. cbv zeta.
  destruct (sourceTypeIs source file_video && isSome videoCapture &&
            negb isMuted)%bool; [apply audio_of_mixed | ].
  destruct (sourceTypeIs source webcam && isSome (sourceStream source) &&
            negb isMuted)%bool; [apply audio_of_mixed | ].
  exact (audio_of_mixed canvasStream None).
Qed.

(** X24. The container type asked of the recorder is the vp9 pairing
    whenever the browser supports it, else the vp8 pairing when that is
    supported, and the bare [video/webm] only when neither is: a type
    with codecs is never asked for unless the browser reported support
    for it. *)
Theorem mimeType_is_supported_or_default (isTypeSupported : string -> bool) :
  let preferredMime := "video/webm;codecs=vp9,opus"%string in
  let fallbackMime := "video/webm;codecs=vp8,opus"%string in
  let chosen := mimeTypeOf isTypeSupported in
  (isTypeSupported preferredMime = true -> chosen = preferredMime) /\
  (chosen = fallbackMime ->
   isTypeSupported preferredMime = false /\
   isTypeSupported fallbackMime = true) /\
  (chosen = "video/webm"%string <->
   isTypeSupported preferredMime = false /\
   isTypeSupported fallbackMime = false) /\
  (chosen = "video/webm"%string \/ isTypeSupported chosen = true).
Proof.
  unfold mimeTypeOf. cbv zeta.
  destruct (isTypeSupported "video/webm;codecs=vp9,opus"%string) eqn:E1;
    [ | destruct (isTypeSupported "video/webm;codecs=vp8,opus"%string) eqn:E2].
  - repeat split; auto; try discriminate. intros (H & _). discriminate H.
  - repeat split; auto; try discriminate. intros (_ & H). discriminate H.
  - repeat split; auto; discriminate.
Qed.

Lemma chunks_filter (ds : list Blob) (acc : list Blob) :
  fold_left ondataavailable ds acc =
  acc ++ filter (fun d => (0 <? List.length d)%nat) ds.
Proof.
  revert acc. induction ds as [ | d ds IH]; intros acc.
  - cbn. now rewrite app_nil_r.
  - cbn [fold_left filter]. rewrite IH. unfold ondataavailable.
    destruct (0 <? List.length d)%nat; [ | reflexivity].
    now rewrite <- app_assoc.
Qed.

Lemma concat_filter_nonempty (ds : list Blob) :
  List.concat (filter (fun d => (0 <? List.length d)%nat) ds) = List.concat ds.
Proof.
  induction ds as [ | d ds IH]; [reflexivity | ].
  cbn [filter]. destruct d as [ | x d].
  - exact IH.
  - change (0 <? List.length (x :: d))%nat with true. cbv iota.
    cbn [List.concat]. now rewrite IH.
Qed.

(** X25. Dropping the empty deliveries of the recorder loses nothing: the
    chunks kept are the non-empty deliveries in the order delivered, and
    the blob built from them on stop is the concatenation of everything
    the recorder delivered. *)
Theorem recorded_blob_is_everything_delivered (deliveries : list Blob) :
  chunksAfter deliveries =
    filter (fun d => (0 <? List.length d)%nat) deliveries /\
  Forall (fun d => d <> []) (chunksAfter deliveries) /\
  blobOf (chunksAfter deliveries) = List.concat deliveries.
Proof.
  unfold chunksAfter, blobOf. rewrite chunks_filter. cbn [app].
  split; [reflexivity | split].
  - apply Forall_forall. intros d Hin. apply filter_In in Hin.
    destruct Hin as (_ & H). destruct d; [discriminate H | discriminate].
  - apply concat_filter_nonempty.
Qed.

Local Open Scope Q_scope.

Lemma Qfloor_below (x : Q) (y : Q) : x <= y -> inject_Z (Qfloor x) <= y.
Proof. intros H. apply Qle_trans with x; [apply Qfloor_le | exact H]. Qed.

Lemma Qdiv_lt_unshift (a b c : Q) : 0 < c -> a / c < b -> a < b * c.
Proof.
  intros Hc H. apply (Qmult_lt_r _ _ c Hc) in H.
  assert (E : a / c * c == a).
  { rewrite Qmult_comm. apply Qmult_div_r.
    intros E0. rewrite E0 in Hc. discriminate Hc. }
  rewrite E in H. exact H.
Qed.

Lemma Qdiv_le_unshift (a b c : Q) : 0 < c -> b <= a / c -> b * c <= a.
Proof.
  intros Hc H. apply (Qmult_le_r _ _ c Hc) in H.
  assert (E : a / c * c == a).
  { rewrite Qmult_comm. apply Qmult_div_r.
    intros E0. rewrite E0 in Hc. discriminate Hc. }
  rewrite E in H. exact H.
Qed.

(** X26. The preview never overflows its container: for a rendered
    surface and a container with positive sides, the size given to the
    preview canvas is at most the container in both directions, is never
    negative, and fills the container in one direction (its width is the
    floor of the container width, or its height the floor of the container
    height). *)
Theorem preview_fits_container
    (renderWidth renderHeight : Z) (containerWidth containerHeight : Q) :
  (0 < renderWidth)%Z -> (0 < renderHeight)%Z ->
  0 < containerWidth -> 0 < containerHeight ->
  let '(displayWidth, displayHeight) :=
    displaySize renderWidth renderHeight containerWidth containerHeight in
  inject_Z displayWidth <= containerWidth /\
  inject_Z displayHeight <= containerHeight /\
  (0 <= displayWidth)%Z /\ (0 <= displayHeight)%Z /\
  (displayWidth = Qfloor containerWidth \/
   displayHeight = Qfloor containerHeight).
Proof.
  intros Hw Hh Hcw Hch. unfold displaySize. cbv zeta.
  set (sa := inject_Z renderWidth / inject_Z renderHeight).
  assert (Hrw : 0 < inject_Z renderWidth).
  { unfold Qlt. simpl. lia. }
  assert (Hrh : 0 < inject_Z renderHeight).
  { unfold Qlt. simpl. lia. }
  assert (Hsa : 0 < sa).
  { subst sa. apply Qlt_shift_div_l; [exact Hrh | ]. now rewrite Qmult_0_l. }
  assert (Hpos : forall x, 0 <= x -> (0 <= Qfloor x)%Z).
  { intros x Hx. change 0%Z with (Qfloor 0). now apply Qfloor_resp_le. }
  destruct (Qlt_le_dec (containerWidth / containerHeight) sa) as [Hlt | Hle].
  - assert (H1 : containerWidth / sa <= containerHeight).
    { apply Qle_shift_div_r; [exact Hsa | ].
      apply Qlt_le_weak. rewrite Qmult_comm.
      now apply Qdiv_lt_unshift. }
    repeat split.
    + apply Qfloor_le.
    + apply Qfloor_below. exact H1.
    + apply Hpos. now apply Qlt_le_weak.
    + apply Hpos. apply Qle_shift_div_l; [exact Hsa | ].
      rewrite Qmult_0_l. now apply Qlt_le_weak.
    + now left.
  - assert (H1 : containerHeight * sa <= containerWidth).
    { rewrite Qmult_comm. now apply Qdiv_le_unshift. }
    repeat split.
    + apply Qfloor_below. exact H1.
    + apply Qfloor_le.
    + apply Hpos. apply Qmult_le_0_compat; now apply Qlt_le_weak.
    + apply Hpos. now apply Qlt_le_weak.
    + now right.
Qed.

Lemma preview_fits_container_witness :
  displaySize 320 176 800 300 = (545, 300)%Z /\
  inject_Z 545 <= 800.
Proof.
  pose proof (preview_fits_container 320 176 800 300
                ltac:(reflexivity) ltac:(reflexivity)
                ltac:(reflexivity) ltac:(reflexivity)) as H.
  split; [reflexivity | exact (proj1 H)].
Defined.

End LiveProperties.
